(** * Worker-group synchronisation of the EVM categorizer manager

    A shallow embedding of [blockchain/evm/categorizer/manager.go] (the
    subscription ingestor, the catch-up engine of a worker group and the
    live dispatcher) and of the wire messages of [app/remote/message]
    (Reply and Broadcast), followed by the properties proved of them.

    - [Categorizer]: the manager.  Block numbers are Go [uint64] values:
      they are kept in [Z], and the only arithmetic the manager performs on
      them, [group.block_number + 1], is written with its wrap-around at
      [2^64].  A [panic(err)] is an explicit result.  The sockets are the
      outside world: what they answer is an input of every loop.  The
      worker's [categorize] is a parameter of the engines.
    - [Message]: Reply and Broadcast over a model of the [key_value]
      package, whose text is compact JSON.
    - [CategorizerProperties], [MessageProperties]: the properties. *)

From Stdlib Require Import ZArith NArith List String Ascii Bool Lia.
From Stdlib Require Import DecimalString DecimalN DecimalPos Permutation.
Import ListNotations.

Local Open Scope Z_scope.

(** ** Results of code that may panic *)

(** [Done a]: the code ran to its end.  [Panicked a]: a [panic(err)] was
    raised; [a] is the state reached when it was raised. *)
Inductive Res (A : Type) : Type :=
| Done (a : A)
| Panicked (a : A).
Arguments Done {A} a.
Arguments Panicked {A} a.

Definition res_state {A : Type} (r : Res A) : A :=
  match r with Done a => a | Panicked a => a end.

Definition is_done {A : Type} (r : Res A) : bool :=
  match r with Done _ => true | Panicked _ => false end.

Module Categorizer.

(** ** Data *)

Definition uint64_modulus : Z := 2 ^ 64.

(** Addition of Go [uint64] values. *)
Definition add_uint64 (a b : Z) : Z := (a + b) mod uint64_modulus.

(** A log entry, as far as the manager looks at it: the address of the
    smartcontract that emitted it and the number of its block. *)
Record Log : Type := mkLog {
  log_address : string;
  log_block_number : Z
}.

Record Smartcontract : Type := mkSmartcontract {
  Address : string;
  CategorizedBlockNumber : Z
}.

(** The ABI of a worker is opaque to the manager and left out. *)
Record EvmWorker : Type := mkWorker {
  smartcontract : Smartcontract
}.

Definition EvmWorkers : Type := list EvmWorker.

(** [group_id] stands for the identity of the [*OldWorkerGroup] pointer. *)
Record OldWorkerGroup : Type := mkGroup {
  group_id : nat;
  block_number : Z;
  workers : EvmWorkers
}.

Definition OldWorkerGroups : Type := list OldWorkerGroup.

Record Block : Type := mkBlock {
  NetworkId : string;
  BlockNumber : Z;
  BlockTimestamp : Z;
  Logs : list Log
}.

(** The request pushed to the SDS Categorizer after a worker categorized
    some logs: [{"smartcontracts": [...], "logs": [...]}]. *)
Record Push : Type := mkPush {
  push_smartcontracts : list Smartcontract;
  push_logs : list Log
}.

(** [pusher] records the messages the push socket delivered so far. *)
Record Manager : Type := mkManager {
  Network_Id : string;
  old_categorizers : OldWorkerGroups;
  current_workers : EvmWorkers;
  subscribed_earliest_block_number : Z;
  subscribed_blocks : list Block;
  pusher : list Push
}.

Definition NewManager (network_id : string) : Manager :=
  {| Network_Id := network_id;
     old_categorizers := [];
     current_workers := [];
     subscribed_earliest_block_number := 0;
     subscribed_blocks := [];
     pusher := [] |}.

Definition set_old_categorizers (m : Manager) (gs : OldWorkerGroups) : Manager :=
  {| Network_Id := Network_Id m;
     old_categorizers := gs;
     current_workers := current_workers m;
     subscribed_earliest_block_number := subscribed_earliest_block_number m;
     subscribed_blocks := subscribed_blocks m;
     pusher := pusher m |}.

Definition set_current_workers (m : Manager) (ws : EvmWorkers) : Manager :=
  {| Network_Id := Network_Id m;
     old_categorizers := old_categorizers m;
     current_workers := ws;
     subscribed_earliest_block_number := subscribed_earliest_block_number m;
     subscribed_blocks := subscribed_blocks m;
     pusher := pusher m |}.

Definition set_subscribed_earliest_block_number (m : Manager) (n : Z) : Manager :=
  {| Network_Id := Network_Id m;
     old_categorizers := old_categorizers m;
     current_workers := current_workers m;
     subscribed_earliest_block_number := n;
     subscribed_blocks := subscribed_blocks m;
     pusher := pusher m |}.

Definition set_subscribed_blocks (m : Manager) (q : list Block) : Manager :=
  {| Network_Id := Network_Id m;
     old_categorizers := old_categorizers m;
     current_workers := current_workers m;
     subscribed_earliest_block_number := subscribed_earliest_block_number m;
     subscribed_blocks := q;
     pusher := pusher m |}.

Definition set_pusher (m : Manager) (ps : list Push) : Manager :=
  {| Network_Id := Network_Id m;
     old_categorizers := old_categorizers m;
     current_workers := current_workers m;
     subscribed_earliest_block_number := subscribed_earliest_block_number m;
     subscribed_blocks := subscribed_blocks m;
     pusher := ps |}.

(** ** Collaborators that are not part of the manager file *)

(** Modelled from the spec: [EvmWorkers.GetSmartcontractAddresses] (the
    worker list is declared outside of the manager file): the address of
    every worker, in the order of the list. *)
Definition workers_addresses (ws : EvmWorkers) : list string :=
  map (fun w => Address (smartcontract w)) ws.

(** Modelled from the spec: [spaghetti_log.FilterByAddress]: a log entry
    belongs to exactly one smartcontract address; the entries of the given
    address are kept, in order. *)
Definition FilterByAddress (all_logs : list Log) (address : string) : list Log :=
  filter (fun l => String.eqb (log_address l) address) all_logs.

(** Modelled from the spec: [Block.GetForSmartcontract]: this worker's logs
    extracted from the block. *)
Definition GetForSmartcontract (b : Block) (address : string) : list Log :=
  FilterByAddress (Logs b) address.

(** Modelled from the spec: [NewGroup(block_number, workers)]: a group is
    created with its cursor at the given block number. *)
Definition NewGroup (id : nat) (n : Z) (ws : EvmWorkers) : OldWorkerGroup :=
  {| group_id := id; block_number := n; workers := ws |}.

(** Modelled from the spec: [OldWorkerGroups.Delete(group)]: the group (the
    entry carrying its identity) is removed from the collection. *)
Definition Delete (gs : OldWorkerGroups) (g : OldWorkerGroup) : OldWorkerGroups :=
  filter (fun g' => negb (Nat.eqb (group_id g') (group_id g))) gs.

(** The engine of a group works through a pointer: what it writes to its
    group is seen by the entry of the collection with the same identity. *)
Definition write_group (gs : OldWorkerGroups) (g : OldWorkerGroup) : OldWorkerGroups :=
  map (fun g' => if Nat.eqb (group_id g') (group_id g) then g else g') gs.

(** Modelled from the spec: [EvmWorker.categorize] (§4.2, apply): the batch
    is applied and the resulting watermark, the highest block number whose
    logs have been applied, is stored and returned; logs at or below the
    watermark do not move it. *)
Definition categorize_watermark (w : EvmWorker) (logs : list Log) : EvmWorker * Z :=
  let n := fold_left (fun acc l => Z.max acc (log_block_number l)) logs
                     (CategorizedBlockNumber (smartcontract w)) in
  ({| smartcontract := {| Address := Address (smartcontract w);
                          CategorizedBlockNumber := n |} |}, n).

(** What the outside world answers during one pass of a loop: the reply of
    the historical log source to [RemoteLogFilter] ([None]: an error) and
    whether [pusher.SendMessage] delivers a message ([false]: an error). *)
Record Env : Type := mkEnv {
  RemoteLogFilter : Z -> list string -> option (list Log);
  SendMessage : Push -> bool
}.

(** ** Manager.GetSmartcontractAddresses *)

Definition GetSmartcontractAddresses (m : Manager) : list string :=
  fold_left (fun addresses group => addresses ++ workers_addresses (workers group))
            (old_categorizers m) []
  ++ workers_addresses (current_workers m).

(** ** Manager.add_current_workers *)

Definition add_current_workers (m : Manager) (ws : EvmWorkers) : Manager :=
  set_current_workers m (current_workers m ++ ws).

Section Engines.

(** [worker.categorize(logs)]: the worker after the logs were applied and
    the block number it returns. *)
Variable categorize : EvmWorker -> list Log -> EvmWorker * Z.

(** ** Manager.categorize_old_smartcontracts *)

(** State of the loop over [group.workers]: the running [block_number_to],
    the workers (those visited are updated) and the messages delivered. *)
Record Applied : Type := mkApplied {
  block_number_to : Z;
  applied_workers : EvmWorkers;
  applied_pushes : list Push
}.

Definition visited (w : EvmWorker) (a : Applied) : Applied :=
  {| block_number_to := block_number_to a;
     applied_workers := w :: applied_workers a;
     applied_pushes := applied_pushes a |}.

Definition delivered (p : Push) (a : Applied) : Applied :=
  {| block_number_to := block_number_to a;
     applied_workers := applied_workers a;
     applied_pushes := p :: applied_pushes a |}.

Definition res_map {A B : Type} (f : A -> B) (r : Res A) : Res B :=
  match r with Done a => Done (f a) | Panicked a => Panicked (f a) end.

(** The loop [for _, worker := range group.workers] of a catch-up round. *)
Fixpoint apply_to_group (send : Push -> bool) (all_logs : list Log)
    (ws : EvmWorkers) (to : Z) : Res Applied :=
  match ws with
  | [] => Done {| block_number_to := to; applied_workers := []; applied_pushes := [] |}
  | worker :: rest =>
      let logs := FilterByAddress all_logs (Address (smartcontract worker)) in
      if Nat.eqb (List.length logs) 0 then
        res_map (visited worker) (apply_to_group send all_logs rest to)
      else
        let (worker', reached) := categorize worker logs in
        let push := {| push_smartcontracts := [smartcontract worker'];
                       push_logs := logs |} in
        if send push then
          res_map (fun a => visited worker' (delivered push a))
                  (apply_to_group send all_logs rest reached)
        else
          Panicked {| block_number_to := reached;
                      applied_workers := worker' :: rest;
                      applied_pushes := [] |}
  end.

(** The request of a Fetching round: [block_number_from] and [addresses]. *)
Definition fetch_request (m : Manager) (g : OldWorkerGroup) : Z * list string :=
  (add_uint64 (block_number g) 1, GetSmartcontractAddresses m).

(** The engine of one group. *)
Inductive Engine : Type :=
| Running (m : Manager) (g : OldWorkerGroup)
| Finished (m : Manager) (g : OldWorkerGroup)
| Crashed (m : Manager) (g : OldWorkerGroup).

Definition with_workers (g : OldWorkerGroup) (ws : EvmWorkers) : OldWorkerGroup :=
  {| group_id := group_id g; block_number := block_number g; workers := ws |}.

Definition with_block_number (g : OldWorkerGroup) (n : Z) : OldWorkerGroup :=
  {| group_id := group_id g; block_number := n; workers := workers g |}.

(** The manager after the engine wrote [g] and delivered [ps]. *)
Definition commit (m : Manager) (g : OldWorkerGroup) (ps : list Push) : Manager :=
  set_pusher (set_old_categorizers m (write_group (old_categorizers m) g))
             (pusher m ++ ps).

(** One pass of the [for] loop of [categorize_old_smartcontracts]; the
    deletion of the group that follows the [break] is part of the pass
    that breaks. *)
Definition round (env : Env) (m : Manager) (g : OldWorkerGroup) : Engine :=
  let (block_number_from, addresses) := fetch_request m g in
  match RemoteLogFilter env block_number_from addresses with
  | None => Running m g
  | Some all_logs =>
      match apply_to_group (SendMessage env) all_logs (workers g) block_number_from with
      | Panicked a =>
          let g1 := with_workers g (applied_workers a) in
          Crashed (commit m g1 (applied_pushes a)) g1
      | Done a =>
          let g1 := with_block_number (with_workers g (applied_workers a))
                                      (block_number_to a) in
          let m1 := commit m g1 (applied_pushes a) in
          if block_number_to a >=? subscribed_earliest_block_number m1 then
            let m2 := add_current_workers m1 (workers g1) in
            Finished (set_old_categorizers m2 (Delete (old_categorizers m2) g1)) g1
          else
            Running m1 g1
      end
  end.

Definition step (e : Engine) (env : Env) : Engine :=
  match e with
  | Running m g => round env m g
  | _ => e
  end.

(** The engine run against the answers of the outside world, one per pass. *)
Definition run (envs : list Env) (e : Engine) : Engine :=
  fold_left step envs e.

Definition is_finished (e : Engine) : bool :=
  match e with Finished _ _ => true | _ => false end.

Definition is_running (e : Engine) : bool :=
  match e with Running _ _ => true | _ => false end.

(** Number of passes of a run that promote the group. *)
Fixpoint promotions (envs : list Env) (e : Engine) : nat :=
  match envs with
  | [] => 0%nat
  | env :: rest =>
      ((if is_running e && is_finished (step e env) then 1 else 0)
       + promotions rest (step e env))%nat
  end.

(** ** Manager.categorize_current_smartcontracts *)

Record Consumed : Type := mkConsumed {
  consumed_workers : EvmWorkers;
  consumed_pushes : list Push
}.

Definition seen (w : EvmWorker) (c : Consumed) : Consumed :=
  {| consumed_workers := w :: consumed_workers c;
     consumed_pushes := consumed_pushes c |}.

Definition sent (p : Push) (c : Consumed) : Consumed :=
  {| consumed_workers := consumed_workers c;
     consumed_pushes := p :: consumed_pushes c |}.

(** The loop [for _, worker := range manager.current_workers] run for one
    block popped from the queue. *)
Fixpoint consume_block (send : Push -> bool) (block : Block)
    (ws : EvmWorkers) : Res Consumed :=
  match ws with
  | [] => Done {| consumed_workers := []; consumed_pushes := [] |}
  | worker :: rest =>
      if BlockNumber block <=? CategorizedBlockNumber (smartcontract worker) then
        res_map (seen worker) (consume_block send block rest)
      else
        let logs := GetForSmartcontract block (Address (smartcontract worker)) in
        let (worker', _) := categorize worker logs in
        let push := {| push_smartcontracts := [smartcontract worker'];
                       push_logs := logs |} in
        if send push then
          res_map (fun c => seen worker' (sent push c))
                  (consume_block send block rest)
        else
          Panicked {| consumed_workers := worker' :: rest; consumed_pushes := [] |}
  end.

(** One pass of the dispatcher: with no live worker or an empty queue it
    only sleeps; otherwise it pops a block and lets every live worker
    consume it.  (The inner loop of the source goes on popping; what [Pop]
    does once the queue is empty is not part of this model.) *)
Definition dispatch (send : Push -> bool) (m : Manager) : Res Manager :=
  match current_workers m, subscribed_blocks m with
  | [], _ => Done m
  | _, [] => Done m
  | _ :: _, block :: queue =>
      res_map (fun c => set_pusher
                          (set_current_workers (set_subscribed_blocks m queue)
                                               (consumed_workers c))
                          (pusher m ++ consumed_pushes c))
              (consume_block send block (current_workers m))
  end.

End Engines.

(** ** Manager.subscribe *)

(** What the ingestor reads from a parsed broadcast: the results of
    [GetUint64("block_number")], [GetString("network_id")],
    [GetUint64("block_timestamp")] and [NewLogs] on the reply parameters
    ([None]: the call returned an error). *)
Record Inbound : Type := mkInbound {
  in_block_number : option Z;
  in_network_id : option string;
  in_block_timestamp : option Z;
  in_logs : option (list Log)
}.

(** One pass of the polling loop. *)
Inductive Polled : Type :=
| PollFailed
| Idle
| RecvFailed
| Unparsable
| Received (b : Inbound).

Definition NewBlock (network_id : string) (n ts : Z) (logs : list Log) : Block :=
  {| NetworkId := network_id; BlockNumber := n; BlockTimestamp := ts; Logs := logs |}.

Definition subscribe_step (m : Manager) (p : Polled) : Res Manager :=
  match p with
  | PollFailed => Panicked m
  | Idle => Done m
  | RecvFailed => Panicked m
  | Unparsable => Panicked m
  | Received b =>
      match in_block_number b with
      | None => Panicked m
      | Some n =>
          match in_network_id b with
          | None => Panicked m
          | Some network_id =>
              if negb (String.eqb network_id (Network_Id m)) then Done m
              else if negb (subscribed_earliest_block_number m =? 0)
                      && (n <? subscribed_earliest_block_number m)
              then Done m
              else
                let m1 := if subscribed_earliest_block_number m =? 0
                          then set_subscribed_earliest_block_number m n
                          else m in
                match in_block_timestamp b with
                | None => Panicked m1
                | Some timestamp =>
                    match in_logs b with
                    | None => Panicked m1
                    | Some logs =>
                        Done (set_subscribed_blocks m1
                                (subscribed_blocks m1
                                 ++ [NewBlock (Network_Id m1) n timestamp logs]))
                    end
                end
          end
      end
  end.

(** The ingestor fed with a sequence of polls; it stops at the first
    panic. *)
Fixpoint subscribe (m : Manager) (ps : list Polled) : Res Manager :=
  match ps with
  | [] => Done m
  | p :: rest =>
      match subscribe_step m p with
      | Done m1 => subscribe m1 rest
      | Panicked m1 => Panicked m1
      end
  end.

(** ** Notions the properties are stated with *)

Definition engine_group (e : Engine) : OldWorkerGroup :=
  match e with Running _ g | Finished _ g | Crashed _ g => g end.

Definition engine_manager (e : Engine) : Manager :=
  match e with Running m _ | Finished m _ | Crashed m _ => m end.

Definition is_crashed (e : Engine) : bool :=
  match e with Crashed _ _ => true | _ => false end.

(** The outside world [env] with a log source that only answers the
    requests that begin at block [n]. *)
Definition serving_from (n : Z) (env : Env) : Env :=
  {| RemoteLogFilter := fun from addresses =>
       if from =? n then RemoteLogFilter env from addresses else None;
     SendMessage := SendMessage env |}.

(** The outside world [env] with a log source that only answers the
    requests for exactly the addresses [l]. *)
Definition serving_addresses (l : list string) (env : Env) : Env :=
  {| RemoteLogFilter := fun from addresses =>
       if list_eq_dec string_dec addresses l
       then RemoteLogFilter env from addresses else None;
     SendMessage := SendMessage env |}.

(** The member has some of the fetched logs: [len(logs) != 0]. *)
Definition has_logs (all_logs : list Log) (w : EvmWorker) : bool :=
  negb (Nat.eqb (List.length (FilterByAddress all_logs (Address (smartcontract w)))) 0).

(** The block numbers returned by [categorize] in a round, one for every
    member with fetched logs, in the order of the members. *)
Definition reached_by (categorize : EvmWorker -> list Log -> EvmWorker * Z)
    (all_logs : list Log) (ws : EvmWorkers) : list Z :=
  map (fun w => snd (categorize w (FilterByAddress all_logs (Address (smartcontract w)))))
      (filter (has_logs all_logs) ws).

(** The cursor the specification asks for: the maximum block number
    reached across the members, the old cursor if nothing was fetched. *)
Definition cursor_by_spec (categorize : EvmWorker -> list Log -> EvmWorker * Z)
    (all_logs : list Log) (g : OldWorkerGroup) : Z :=
  match reached_by categorize all_logs (workers g) with
  | [] => block_number g
  | r :: rs => fold_left Z.max rs r
  end.

(** A cooperative outside world: the log source answers and respects the
    first block of the request; the push socket delivers. *)
Definition cooperative (env : Env) : Prop :=
  (forall p, SendMessage env p = true)
  /\ (forall from addresses, exists logs,
        RemoteLogFilter env from addresses = Some logs
        /\ forall l, In l logs -> from <= log_block_number l).

(** The block number returned by [categorize] is not below the block of
    any log of the batch. *)
Definition covers (categorize : EvmWorker -> list Log -> EvmWorker * Z) : Prop :=
  forall w logs l, In l logs -> log_block_number l <= snd (categorize w logs).

(** The message announcing that [w] categorized [logs]. *)
Definition push_of (w : EvmWorker) (logs : list Log) : Push :=
  {| push_smartcontracts := [smartcontract w]; push_logs := logs |}.

(** The live dispatcher skips the worker for this block. *)
Definition skipped (block : Block) (w : EvmWorker) : bool :=
  BlockNumber block <=? CategorizedBlockNumber (smartcontract w).

(** The results of a loop over [pre ++ rest], from the results of its two
    halves. *)
Definition applied_app (a r : Applied) : Applied :=
  {| block_number_to := block_number_to r;
     applied_workers := applied_workers a ++ applied_workers r;
     applied_pushes := applied_pushes a ++ applied_pushes r |}.

Definition consumed_app (c r : Consumed) : Consumed :=
  {| consumed_workers := consumed_workers c ++ consumed_workers r;
     consumed_pushes := consumed_pushes c ++ consumed_pushes r |}.

(** ** Examples *)

Definition worker_at (address : string) (n : Z) : EvmWorker :=
  {| smartcontract := {| Address := address; CategorizedBlockNumber := n |} |}.

Definition log_at (address : string) (n : Z) : Log :=
  {| log_address := address; log_block_number := n |}.

(** A log source that answers every request with the same logs, and a push
    socket that delivers everything. *)
Definition answering (logs : list Log) : Env :=
  {| RemoteLogFilter := fun _ _ => Some logs; SendMessage := fun _ => true |}.

(** The same log source in front of a push socket that fails. *)
Definition undelivered (logs : list Log) : Env :=
  {| RemoteLogFilter := fun _ _ => Some logs; SendMessage := fun _ => false |}.

(** A manager of network "1" whose live feed started at block [baseline]. *)
Definition manager_at (baseline : Z) (gs : OldWorkerGroups) (live : EvmWorkers) : Manager :=
  {| Network_Id := "1";
     old_categorizers := gs;
     current_workers := live;
     subscribed_earliest_block_number := baseline;
     subscribed_blocks := [];
     pusher := [] |}.

(** A broadcast of network "1" for block [n], without logs. *)
Definition broadcast_of (n : Z) : Inbound :=
  {| in_block_number := Some n;
     in_network_id := Some "1"%string;
     in_block_timestamp := Some 1700000000;
     in_logs := Some [] |}.

End Categorizer.

(** * Wire messages: Reply and Broadcast *)

Module Message.

Local Open Scope nat_scope.
Local Open Scope string_scope.

(** ** Errors *)

(** [ErrWrap context cause] is [fmt.Errorf("context: %w", cause)]. *)
Inductive error : Type :=
| ErrNoDistinction (msg : string)
| ErrKeyValue (reason : string)
| ErrValidation (reason : string)
| ErrWrap (context : string) (cause : error).

Inductive result (A : Type) : Type :=
| Ok (a : A)
| Err (e : error).
Arguments Ok {A} a.
Arguments Err {A} e.

Definition bind {A B : Type} (r : result A) (f : A -> result B) : result B :=
  match r with Ok a => f a | Err e => Err e end.

(** [wrap context r]: the error of [r], if any, wrapped with a context. *)
Definition wrap {A : Type} (context : string) (r : result A) : result A :=
  match r with Ok a => Ok a | Err e => Err (ErrWrap context e) end.

Notation "x <- r ;; k" := (bind r (fun x => k))
  (at level 61, r at next level, right associativity).

Definition is_ok {A : Type} (r : result A) : bool :=
  match r with Ok _ => true | Err _ => false end.

(** ** The values of a key-value *)

#[local] Set Warnings "-register-all".

(** Modelled from the spec: the values a [key_value.KeyValue]
    ([map[string]interface{}]) holds once it went through JSON (the
    package is not under src/).  Numbers are unsigned integers, which is
    what the messages of the manager carry (block numbers, timestamps). *)
Inductive json : Type :=
| JNull
| JBool (b : bool)
| JNumber (n : N)
| JString (s : string)
| JArray (l : list json)
| JObject (members : list (string * json)).

(** Modelled from the spec: a key-value is the list of the members of a
    JSON object. *)
Definition KeyValue : Type := list (string * json).

(** Induction on values that reaches the elements of arrays and the
    members of objects. *)
Section JsonInduction.

Variable P : json -> Prop.
Hypothesis P_null : P JNull.
Hypothesis P_bool : forall b, P (JBool b).
Hypothesis P_number : forall n, P (JNumber n).
Hypothesis P_string : forall s, P (JString s).
Hypothesis P_array : forall l, Forall P l -> P (JArray l).
Hypothesis P_object : forall members, Forall (fun kv => P (snd kv)) members ->
                                      P (JObject members).

Fixpoint json_nested_ind (v : json) : P v :=
  match v with
  | JNull => P_null
  | JBool b => P_bool b
  | JNumber n => P_number n
  | JString s => P_string s
  | JArray l =>
      P_array l
        ((fix all (l : list json) : Forall P l :=
            match l with
            | [] => Forall_nil P
            | x :: r => Forall_cons x (json_nested_ind x) (all r)
            end) l)
  | JObject members =>
      P_object members
        ((fix all (l : list (string * json)) : Forall (fun kv => P (snd kv)) l :=
            match l with
            | [] => Forall_nil _
            | kv :: r => Forall_cons kv (json_nested_ind (snd kv)) (all r)
            end) members)
  end.

End JsonInduction.

(** ** The text of a key-value *)

Definition dquote : ascii := "034"%char.
Definition backslash : ascii := "092"%char.

Definition is_digit (c : ascii) : bool :=
  Nat.leb 48 (nat_of_ascii c) && Nat.leb (nat_of_ascii c) 57.

Definition needs_escape (c : ascii) : bool :=
  Ascii.eqb c dquote || Ascii.eqb c backslash.

(** Modelled from the spec: the wire encoding of [key_value] (the package
    is not under src/) is the compact JSON text of the value.  Every
    printer writes its text in front of [k].  The characters of a string:
    a quote or a backslash is preceded by a backslash. *)
Fixpoint print_chars (s k : string) : string :=
  match s with
  | EmptyString => k
  | String c r =>
      if needs_escape c then String backslash (String c (print_chars r k))
      else String c (print_chars r k)
  end.

(** Modelled from the spec: a string between quotes. *)
Definition print_string (s k : string) : string :=
  String dquote (print_chars s (String dquote k)).

(** Modelled from the spec: a number in decimal. *)
Definition print_number (n : N) (k : string) : string :=
  NilEmpty.string_of_uint (N.to_uint n) ++ k.

(** Modelled from the spec: the text of a value; the members of an object
    keep their order. *)
Fixpoint print_json (v : json) (k : string) : string :=
  match v with
  | JNull => "null" ++ k
  | JBool true => "true" ++ k
  | JBool false => "false" ++ k
  | JNumber n => print_number n k
  | JString s => print_string s k
  | JArray [] => "[]" ++ k
  | JArray (x :: r) =>
      String "[" (print_json x
        ((fix tail (r : list json) : string :=
            match r with
            | [] => String "]" k
            | y :: r' => String "," (print_json y (tail r'))
            end) r))
  | JObject [] => "{}" ++ k
  | JObject ((key, x) :: r) =>
      String "{" (print_string key (String ":" (print_json x
        ((fix tail (r : list (string * json)) : string :=
            match r with
            | [] => String "}" k
            | (key', y) :: r' =>
                String "," (print_string key' (String ":" (print_json y (tail r'))))
            end) r))))
  end.

(** What follows the first element of an array, and the first member of an
    object. *)
Fixpoint print_elems_tail (r : list json) (k : string) : string :=
  match r with
  | [] => String "]" k
  | y :: r' => String "," (print_json y (print_elems_tail r' k))
  end.

Fixpoint print_members_tail (r : list (string * json)) (k : string) : string :=
  match r with
  | [] => String "}" k
  | (key, y) :: r' =>
      String "," (print_string key (String ":" (print_json y (print_members_tail r' k))))
  end.

(** ** Reading the text back *)

(** [strip p s]: [s] without its prefix [p]. *)
Fixpoint strip (p s : string) : option string :=
  match p with
  | EmptyString => Some s
  | String a p' =>
      match s with
      | String b s' => if Ascii.eqb a b then strip p' s' else None
      | EmptyString => None
      end
  end.

(** Modelled from the spec: the characters of a string, after its opening
    quote, up to the closing one. *)
Fixpoint parse_chars (s : string) : option (string * string) :=
  match s with
  | EmptyString => None
  | String c r =>
      if Ascii.eqb c dquote then Some (EmptyString, r)
      else if Ascii.eqb c backslash then
        match r with
        | String e r' =>
            if needs_escape e then
              match parse_chars r' with
              | Some (str, rest) => Some (String e str, rest)
              | None => None
              end
            else None
        | EmptyString => None
        end
      else
        match parse_chars r with
        | Some (str, rest) => Some (String c str, rest)
        | None => None
        end
  end.

(** The digits [s] starts with, and what follows them. *)
Fixpoint span_digits (s : string) : string * string :=
  match s with
  | EmptyString => (EmptyString, EmptyString)
  | String c r =>
      if is_digit c then
        let (digits, rest) := span_digits r in (String c digits, rest)
      else (EmptyString, s)
  end.

(** Modelled from the spec: a number is a run of decimal digits. *)
Definition parse_number (s : string) : option (json * string) :=
  let (digits, rest) := span_digits s in
  match digits with
  | EmptyString => None
  | String _ _ =>
      match NilEmpty.uint_of_string digits with
      | Some u => Some (JNumber (N.of_uint u), rest)
      | None => None
      end
  end.

(** Modelled from the spec: [null], [true] and [false]. *)
Definition parse_literal (s : string) : option (json * string) :=
  match strip "null" s with
  | Some rest => Some (JNull, rest)
  | None =>
      match strip "true" s with
      | Some rest => Some (JBool true, rest)
      | None =>
          match strip "false" s with
          | Some rest => Some (JBool false, rest)
          | None => None
          end
      end
  end.

(** Modelled from the spec: the decoding of the wire text of [key_value]:
    a value, the elements of an array after its bracket, the members of an
    object after its brace.  [fuel] bounds the number of nested calls. *)
Fixpoint parse_json (fuel : nat) (s : string) {struct fuel} : option (json * string) :=
  match fuel with
  | O => None
  | S fuel' =>
      match s with
      | EmptyString => None
      | String c r =>
          if Ascii.eqb c dquote then
            match parse_chars r with
            | Some (str, rest) => Some (JString str, rest)
            | None => None
            end
          else if Ascii.eqb c "[" then
            match strip "]" r with
            | Some rest => Some (JArray [], rest)
            | None =>
                match parse_elems fuel' r with
                | Some (l, rest) => Some (JArray l, rest)
                | None => None
                end
            end
          else if Ascii.eqb c "{" then
            match strip "}" r with
            | Some rest => Some (JObject [], rest)
            | None =>
                match parse_members fuel' r with
                | Some (l, rest) => Some (JObject l, rest)
                | None => None
                end
            end
          else if is_digit c then parse_number s
          else parse_literal s
      end
  end
with parse_elems (fuel : nat) (s : string) {struct fuel} : option (list json * string) :=
  match fuel with
  | O => None
  | S fuel' =>
      match parse_json fuel' s with
      | Some (x, String c rest) =>
          if Ascii.eqb c "," then
            match parse_elems fuel' rest with
            | Some (l, rest') => Some (x :: l, rest')
            | None => None
            end
          else if Ascii.eqb c "]" then Some ([x], rest)
          else None
      | _ => None
      end
  end
with parse_members (fuel : nat) (s : string) {struct fuel}
    : option (list (string * json) * string) :=
  match fuel with
  | O => None
  | S fuel' =>
      match strip (String dquote EmptyString) s with
      | None => None
      | Some r =>
          match parse_chars r with
          | Some (key, String c1 r1) =>
              if Ascii.eqb c1 ":" then
                match parse_json fuel' r1 with
                | Some (x, String c2 rest) =>
                    if Ascii.eqb c2 "," then
                      match parse_members fuel' rest with
                      | Some (l, rest') => Some ((key, x) :: l, rest')
                      | None => None
                      end
                    else if Ascii.eqb c2 "}" then Some ([(key, x)], rest)
                    else None
                | _ => None
                end
              else None
          | _ => None
          end
      end
  end.

(** ** Notions the round trip is stated with *)

(** What follows the text of a number must not go on with a digit. *)
Definition head_not_digit (k : string) : Prop :=
  match k with
  | EmptyString => True
  | String c _ => is_digit c = false
  end.

(** The first character of the text of a value tells what the value is. *)
Inductive opens : json -> ascii -> Prop :=
| opens_null : opens JNull "n"
| opens_true : opens (JBool true) "t"
| opens_false : opens (JBool false) "f"
| opens_number n c : is_digit c = true -> opens (JNumber n) c
| opens_string s : opens (JString s) dquote
| opens_array l : opens (JArray l) "["
| opens_object l : opens (JObject l) "{".

(** Fuel that suffices to read a value back. *)
Fixpoint need (v : json) : nat :=
  match v with
  | JArray l =>
      S ((fix all (l : list json) : nat :=
            match l with [] => 0 | x :: r => S (need x + all r) end) l)
  | JObject l =>
      S ((fix all (l : list (string * json)) : nat :=
            match l with [] => 0 | (_, x) :: r => S (need x + all r) end) l)
  | _ => 1
  end.

(** The same for the elements of an array and the members of an object. *)
Fixpoint need_elems (l : list json) : nat :=
  match l with [] => 0 | x :: r => S (need x + need_elems r) end.

Fixpoint need_members (l : list (string * json)) : nat :=
  match l with [] => 0 | (_, x) :: r => S (need x + need_members r) end.

(** Reading the text of [v] gives [v] and what followed the text. *)
Definition reads_back (v : json) : Prop :=
  forall fuel k,
    need v <= fuel -> head_not_digit k ->
    parse_json fuel (print_json v k) = Some (v, k).

(** ** key_value *)

(** Modelled from the spec: [KeyValue.ToBytes], the wire text of a
    key-value. *)
Definition ToBytes (kv : KeyValue) : result string :=
  Ok (print_json (JObject kv) EmptyString).

(** Modelled from the spec: [key_value.NewFromString]: the text has to be
    one JSON object and nothing else. *)
Definition NewFromString (s : string) : result KeyValue :=
  match parse_json (String.length s) s with
  | Some (JObject kv, EmptyString) => Ok kv
  | _ => Err (ErrKeyValue "json.Unmarshal")
  end.

(** Modelled from the spec: the value stored under a name; as in a Go map
    filled by the JSON decoder, a later member of the same name replaces an
    earlier one. *)
Definition lookup (kv : KeyValue) (name : string) : option json :=
  fold_left (fun found member =>
               if String.eqb (fst member) name then Some (snd member) else found)
            kv None.

(** Modelled from the spec: [KeyValue.GetString]. *)
Definition GetString (kv : KeyValue) (name : string) : result string :=
  match lookup kv name with
  | Some (JString s) => Ok s
  | Some _ => Err (ErrKeyValue "expected string")
  | None => Err (ErrKeyValue "key not found")
  end.

(** Modelled from the spec: [KeyValue.GetKeyValue]. *)
Definition GetKeyValue (kv : KeyValue) (name : string) : result KeyValue :=
  match lookup kv name with
  | Some (JObject members) => Ok members
  | Some _ => Err (ErrKeyValue "expected key-value")
  | None => Err (ErrKeyValue "key not found")
  end.

(** Modelled from the spec: [message.ToString], the parts of a ZeroMQ
    message joined into one string. *)
Definition ToString (msgs : list string) : string :=
  String.concat EmptyString msgs.

(** ** Reply *)

Definition OK : string := "OK".
Definition FAIL : string := "fail".

Record Reply : Type := mkReply {
  Status : string;
  Message : string;
  Parameters : KeyValue
}.

Definition Fail (message : string) : Reply :=
  {| Status := FAIL; Message := message; Parameters := [] |}.

Definition valid_status (reply : Reply) : result unit :=
  if negb (String.eqb (Status reply) FAIL) && negb (String.eqb (Status reply) OK)
  then Err (ErrValidation
              ("status is either 'OK' or 'fail', but given: '" ++ Status reply ++ "'"))
  else Ok tt.

Definition valid_fail (reply : Reply) : result unit :=
  if String.eqb (Status reply) FAIL && Nat.eqb (String.length (Message reply)) 0
  then Err (ErrValidation "failure should not have an empty message")
  else Ok tt.

Definition IsOK (r : Reply) : bool := String.eqb (Status r) OK.

(** Modelled from the spec: the members of a Reply, under the names of
    its [json] tags, sorted as the encoder of a Go map sorts them. *)
Definition reply_members (reply : Reply) : KeyValue :=
  [("message", JString (Message reply));
   ("parameters", JObject (Parameters reply));
   ("status", JString (Status reply))].

(** Modelled from the spec: [key_value.NewFromInterface] for a Reply. *)
Definition reply_interface (reply : Reply) : result KeyValue :=
  Ok (reply_members reply).

Definition Reply_ToBytes (reply : Reply) : result string :=
  _ <- wrap "failure validation" (valid_fail reply) ;;
  _ <- wrap "status validation" (valid_status reply) ;;
  kv <- wrap "failed to serialize Reply to key-value" (reply_interface reply) ;;
  wrap "serialized key-value.ToBytes" (ToBytes kv).

Definition Reply_ToString (reply : Reply) : result string :=
  wrap "reply.ToBytes" (Reply_ToBytes reply).

(** Modelled from the spec: a field of a Go struct filled from a
    key-value: a missing or null member leaves the zero value, a member of
    another type is an error. *)
Definition field_string (kv : KeyValue) (name : string) : result string :=
  match lookup kv name with
  | None | Some JNull => Ok EmptyString
  | Some (JString s) => Ok s
  | Some _ => Err (ErrKeyValue "json: cannot unmarshal into string")
  end.

(** Modelled from the spec: the same for a field that is a key-value. *)
Definition field_key_value (kv : KeyValue) (name : string) : result KeyValue :=
  match lookup kv name with
  | None | Some JNull => Ok []
  | Some (JObject members) => Ok members
  | Some _ => Err (ErrKeyValue "json: cannot unmarshal into key-value")
  end.

(** Modelled from the spec: [KeyValue.ToInterface] into a Reply. *)
Definition ToInterface (dat : KeyValue) : result Reply :=
  status <- field_string dat "status" ;;
  message <- field_string dat "message" ;;
  parameters <- field_key_value dat "parameters" ;;
  Ok {| Status := status; Message := message; Parameters := parameters |}.

Definition ParseJsonReply (dat : KeyValue) : result Reply :=
  reply <- wrap "failed to serialize key-value to msg.Reply" (ToInterface dat) ;;
  _ <- wrap "validation" (Reply_ToBytes reply) ;;
  Ok reply.

Definition ParseReply (msgs : list string) : result Reply :=
  let msg := ToString msgs in
  data <- wrap "key_value.NewFromString" (NewFromString msg) ;;
  reply <- wrap "ParseJsonReply" (ParseJsonReply data) ;;
  Ok reply.

(** ** Broadcast *)

Record Broadcast : Type := mkBroadcast {
  BroadcastReply : Reply;
  Topic : string
}.

Definition NewBroadcast (topic : string) (reply : Reply) : Broadcast :=
  {| Topic := topic; BroadcastReply := reply |}.

Definition Broadcast_IsOK (b : Broadcast) : bool := IsOK (BroadcastReply b).

(** Modelled from the spec: [key_value.NewFromInterface] for a Broadcast. *)
Definition broadcast_interface (b : Broadcast) : result KeyValue :=
  Ok [("reply", JObject (reply_members (BroadcastReply b)));
      ("topic", JString (Topic b))].

Definition Broadcast_ToBytes (b : Broadcast) : string :=
  match broadcast_interface b with
  | Err _ => EmptyString
  | Ok kv =>
      match ToBytes kv with
      | Ok bytes => bytes
      | Err _ => EmptyString
      end
  end.

Definition ParseBroadcast (msgs : list string) : result Broadcast :=
  let msg := ToString msgs in
  match index 0 "{" msg with
  | None => Err (ErrNoDistinction msg)
  | Some i =>
      let broadcastRaw := substring i (String.length msg - i) msg in
      dat <- wrap "key_value.NewFromString" (NewFromString broadcastRaw) ;;
      topic <- wrap "broadcast.GetString(`topic`)" (GetString dat "topic") ;;
      raw_reply <- wrap "broadcast.GetKeyValue(`reply`)" (GetKeyValue dat "reply") ;;
      reply <- wrap "ParseJsonReply" (ParseJsonReply raw_reply) ;;
      Ok {| Topic := topic; BroadcastReply := reply |}
  end.

(** ** Notions the properties are stated with *)

(** The wire-shape constraints of a Reply: the status is "OK" or "fail",
    and a failure has a message. *)
Definition wire_shaped (r : Reply) : Prop :=
  Status r = OK \/ (Status r = FAIL /\ Message r <> EmptyString).

(** What ParseBroadcast does with [msg[i:]]. *)
Definition parse_body (broadcastRaw : string) : result Broadcast :=
  dat <- wrap "key_value.NewFromString" (NewFromString broadcastRaw) ;;
  topic <- wrap "broadcast.GetString(`topic`)" (GetString dat "topic") ;;
  raw_reply <- wrap "broadcast.GetKeyValue(`reply`)" (GetKeyValue dat "reply") ;;
  reply <- wrap "ParseJsonReply" (ParseJsonReply raw_reply) ;;
  Ok {| Topic := topic; BroadcastReply := reply |}.

(** The member [name] of an object is the string [s]; a member that is
    missing or null counts as the empty string. *)
Definition string_member (members : KeyValue) (name s : string) : Prop :=
  match lookup members name with
  | Some (JString s') => s' = s
  | None | Some JNull => s = EmptyString
  | Some _ => False
  end.

(** The member [name] of an object is the object [kv]; a member that is
    missing or null counts as the empty object. *)
Definition object_member (members : KeyValue) (name : string) (kv : KeyValue) : Prop :=
  match lookup members name with
  | Some (JObject kv') => kv' = kv
  | None | Some JNull => kv = []
  | Some _ => False
  end.

(** An object is reply JSON, in the words of the specification
    ([{status: "OK"|"fail", message: string (required iff status is
    "fail"), parameters: map}]): its members "status", "message" and
    "parameters" are the fields of a Reply within the wire-shape
    constraints. *)
Definition reply_json (members : KeyValue) : Prop :=
  exists reply,
    string_member members "status" (Status reply)
    /\ string_member members "message" (Message reply)
    /\ object_member members "parameters" (Parameters reply)
    /\ wire_shaped reply.

(** A text is valid broadcast JSON, in the words of the specification
    ([{topic: string, reply: Reply}]): it is the text of a JSON object,
    as the decoder of key-values reads it, that has a string under "topic"
    and, under "reply", an object that is reply JSON. *)
Definition valid_broadcast (raw : string) : Prop :=
  exists dat topic members,
    NewFromString raw = Ok dat
    /\ lookup dat "topic" = Some (JString topic)
    /\ lookup dat "reply" = Some (JObject members)
    /\ reply_json members.

(** [msg[i:]]. *)
Definition from_index (i : nat) (msg : string) : string :=
  substring i (String.length msg - i) msg.

(** ** Examples *)

(** The reply of a block broadcast, as the ingestor expects it. *)
Definition block_reply : Reply :=
  {| Status := OK;
     Message := EmptyString;
     Parameters := [("block_number", JNumber 150);
                    ("network_id", JString "1");
                    ("block_timestamp", JNumber 1700000000);
                    ("logs", JArray [JObject [("address", JString "0xa")]])] |}.

End Message.

(** * The rest of the manager file *)

Module CategorizerViews.

Import Categorizer.

(** Modelled from the spec: [EvmWorkers.GetSmartcontracts] (the worker list
    is declared outside of the manager file): the smartcontract of every
    worker, in the order of the list. *)
Definition workers_smartcontracts (ws : EvmWorkers) : list Smartcontract :=
  map smartcontract ws.

(** ** Manager.GetSmartcontracts *)

Definition GetSmartcontracts (m : Manager) : list Smartcontract :=
  fold_left (fun smartcontracts group =>
               smartcontracts ++ workers_smartcontracts (workers group))
            (old_categorizers m) []
  ++ workers_smartcontracts (current_workers m).

(** ** Notions the properties are stated with *)

(** [categorize] leaves the address of the worker's smartcontract alone. *)
Definition keeps_address (categorize : EvmWorker -> list Log -> EvmWorker * Z) : Prop :=
  forall w logs,
    Address (smartcontract (fst (categorize w logs))) = Address (smartcontract w).

(** The log source has no answer to the request of the group. *)
Definition unreachable (m : Manager) (g : OldWorkerGroup) (env : Env) : Prop :=
  RemoteLogFilter env (fst (fetch_request m g)) (snd (fetch_request m g)) = None.

(** A poll that brings nothing, or a broadcast of another network that
    carries its block number. *)
Definition foreign (m : Manager) (p : Polled) : Prop :=
  p = Idle
  \/ exists b n network_id,
       p = Received b
       /\ in_block_number b = Some n
       /\ in_network_id b = Some network_id
       /\ network_id <> Network_Id m.

(** A block the ingestor may enqueue once the baseline is set. *)
Definition fresh (m : Manager) (b : Block) : Prop :=
  subscribed_earliest_block_number m <= BlockNumber b
  /\ NetworkId b = Network_Id m.

(** A published result of the catch-up engine for one of the workers [ws]:
    it names the worker's smartcontract, as [categorize] left it, and
    carries the worker's logs among [all_logs], of which there is at least
    one. *)
Definition announces (categorize : EvmWorker -> list Log -> EvmWorker * Z)
    (all_logs : list Log) (ws : EvmWorkers) (p : Push) : Prop :=
  push_logs p <> []
  /\ exists w,
       In w ws
       /\ push_logs p = FilterByAddress all_logs (Address (smartcontract w))
       /\ push_smartcontracts p = [smartcontract (fst (categorize w (push_logs p)))].

(** The messages of a catch-up round for the members [ws] it went
    through: one for each member with fetched logs and none for the
    others, in the order of the members, each with the member's logs and
    its smartcontract as [categorize] left it. *)
Definition published (categorize : EvmWorker -> list Log -> EvmWorker * Z)
    (all_logs : list Log) (ws : EvmWorkers) : list Push :=
  map (fun w =>
         let logs := FilterByAddress all_logs (Address (smartcontract w)) in
         push_of (fst (categorize w logs)) logs)
      (filter (has_logs all_logs) ws).

End CategorizerViews.

(** * The list of networks *)

(** [Networks] of [package network]: [Exist], [NewNetworks] and [Get].
    The [Network] type and its constructor [New] are declared elsewhere:
    the networks, their [Id] and [New], with the key-values it reads and
    the errors it returns, are parameters. *)
Module Network.

Section Networks.

Variable Network : Type.
Variable Id : Network -> string.
Variable KeyValue : Type.
Variable NewError : Type.
Variable New : KeyValue -> NewError + Network.

Definition Networks : Type := list Network.

(** The errors of [NewNetworks]: [fmt.Errorf("New: %w", err)] and a
    duplicate network id; the error of [Get]: the id is not found. *)
Inductive error : Type :=
| ErrNew (cause : NewError)
| ErrDuplicate (network_id : string).

Inductive not_found : Type :=
| ErrNotFound (network_id : string).

Fixpoint Exist (networks : Networks) (network_id : string) : bool :=
  match networks with
  | [] => false
  | network :: rest =>
      if String.eqb (Id network) network_id then true else Exist rest network_id
  end.

(** The loop of [NewNetworks], from the networks parsed so far. *)
Fixpoint NewNetworks_loop (networks : Networks) (raw_networks : list KeyValue)
    : error + Networks :=
  match raw_networks with
  | [] => inr networks
  | raw :: rest =>
      match New raw with
      | inl err => inl (ErrNew err)
      | inr network =>
          if Exist networks (Id network) then inl (ErrDuplicate (Id network))
          else NewNetworks_loop (networks ++ [network]) rest
      end
  end.

Definition NewNetworks (raw_networks : list KeyValue) : error + Networks :=
  NewNetworks_loop [] raw_networks.

Fixpoint Get (networks : Networks) (network_id : string) : not_found + Network :=
  match networks with
  | [] => inl (ErrNotFound network_id)
  | network :: rest =>
      if String.eqb (Id network) network_id then inr network else Get rest network_id
  end.

(** Each raw network is parsed to the network at the same place. *)
Definition parsed (raw_networks : list KeyValue) (networks : Networks) : Prop :=
  Forall2 (fun raw network => New raw = inr network) raw_networks networks.

End Networks.

Arguments ErrNew {NewError} cause.
Arguments ErrDuplicate {NewError} network_id.
Arguments Exist {Network} Id networks network_id.
Arguments NewNetworks_loop {Network} Id {KeyValue NewError} New networks raw_networks.
Arguments NewNetworks {Network} Id {KeyValue NewError} New raw_networks.
Arguments Get {Network} Id networks network_id.
Arguments parsed {Network KeyValue NewError} New raw_networks networks.

(** An example: a raw network is a pair of an id and a chain number; an
    empty id is refused. *)
Definition sample_New (raw : string * nat) : string + (string * nat) :=
  if String.eqb (fst raw) EmptyString then inl "missing id"%string else inr raw.

End Network.

(** * Names of the internal configuration *)

Module Config.

Local Open Scope string_scope.

(** [strings.ReplaceAll(s, old, new)] for an [old] and a [new] of one byte
    each, which is how [UrlToFileName] calls it. *)
Fixpoint ReplaceAll (s : string) (old new : ascii) : string :=
  match s with
  | EmptyString => EmptyString
  | String c rest =>
      String (if Ascii.eqb c old then new else c) (ReplaceAll rest old new)
  end.

Definition slash : ascii := "/"%char.
Definition backslash : ascii := "092"%char.
Definition dot : ascii := "."%char.

Definition UrlToFileName (url : string) : string :=
  ReplaceAll (ReplaceAll url slash dot) backslash dot.

Definition ManagerName (url : string) : string :=
  let fileName := UrlToFileName url in
  "manager." ++ fileName.

Definition ContextName (url : string) : string :=
  let fileName := UrlToFileName url in
  "orchestra." ++ fileName.

(** The string has neither a slash nor a backslash. *)
Fixpoint plain (s : string) : bool :=
  match s with
  | EmptyString => true
  | String c rest => negb (Ascii.eqb c slash) && negb (Ascii.eqb c backslash) && plain rest
  end.

End Config.

(** * The service *)

Module Service.

Local Open Scope string_scope.

(** ** Rules, units and handlers *)

(** What the service reads of a destination rule. *)
Record Rule : Type := mkRule {
  Urls : list string;
  Categories : list string;
  Commands : list string;
  ExcludedCommands : list string
}.

Record Unit : Type := mkUnit {
  ServiceId : string;
  HandlerId : string;
  Command : string
}.

(** What the service asks of a handler ([base.Interface]): the category
    and the id of its configuration, [IsRouteExist] and [RouteCommands]. *)
Record Handler : Type := mkHandler {
  Config_Category : string;
  Config_Id : string;
  IsRouteExist : string -> bool;
  RouteCommands : list string
}.

(** [slices.Contains]. *)
Definition Contains (s : list string) (v : string) : bool :=
  existsb (String.eqb v) s.

(** [independent.Handlers] is a Go map from a category to a handler: the
    list holds its entries in the order in which a [range] loop meets
    them, which Go does not fix. *)
Record Service : Type := mkService {
  id : string;
  url : string;
  Handlers : list (string * Handler);
  RequiredExtensions : list (string * string)
}.

Definition unit_of (s : Service) (h : Handler) (command : string) : Unit :=
  {| ServiceId := id s; HandlerId := Config_Id h; Command := command |}.

Definition unitsByRouteRule (s : Service) (rule : Rule) : list Unit :=
  flat_map
    (fun raw =>
       let handlerInterface := snd raw in
       if negb (Contains (Categories rule) (Config_Category handlerInterface)) then []
       else
         flat_map
           (fun command =>
              if Contains (ExcludedCommands rule) command then []
              else if negb (IsRouteExist handlerInterface command) then []
              else [unit_of s handlerInterface command])
           (Commands rule))
    (Handlers s).

Definition unitsByHandlerRule (s : Service) (rule : Rule) : list Unit :=
  flat_map
    (fun raw =>
       let handlerInterface := snd raw in
       if negb (Contains (Categories rule) (Config_Category handlerInterface)) then []
       else
         flat_map
           (fun command =>
              if Contains (ExcludedCommands rule) command then []
              else [unit_of s handlerInterface command])
           (RouteCommands handlerInterface))
    (Handlers s).

Definition unitsByServiceRule (s : Service) (rule : Rule) : list Unit :=
  flat_map
    (fun raw =>
       let handlerInterface := snd raw in
       flat_map
         (fun command =>
            if Contains (ExcludedCommands rule) command then []
            else [unit_of s handlerInterface command])
         (RouteCommands handlerInterface))
    (Handlers s).

(** The service with other entries in its map of handlers. *)
Definition with_handlers (s : Service) (hs : list (string * Handler)) : Service :=
  {| id := id s; url := url s; Handlers := hs;
     RequiredExtensions := RequiredExtensions s |}.

(** ** Required extensions *)

(** [KeyValue.Exist] and [KeyValue.Set] of the data type library, on the
    Go map from the id of an extension to its url: a key is there or
    not, and setting it replaces its value or adds the key. *)
Definition Exist (kv : list (string * string)) (key : string) : bool :=
  existsb (fun entry => String.eqb (fst entry) key) kv.

Fixpoint Set_ (kv : list (string * string)) (key value : string)
    : list (string * string) :=
  match kv with
  | [] => [(key, value)]
  | entry :: rest =>
      if String.eqb (fst entry) key then (key, value) :: rest
      else entry :: Set_ rest key value
  end.

Definition RequireExtension (s : Service) (id' url' : string) : Service :=
  if Exist (RequiredExtensions s) id' then
    {| id := id s; url := url s; Handlers := Handlers s;
       RequiredExtensions := Set_ (RequiredExtensions s) id' url' |}
  else s.

(** The service after calls of [RequireExtension], each with an id and a
    url. *)
Definition required_after (s : Service) (calls : list (string * string)) : Service :=
  fold_left (fun s call => RequireExtension s (fst call) (snd call)) calls s.

(** ** SetProxyChain *)

Section ProxyChains.

(** [Proxy] stands for a [*serviceConfig.Proxy]. *)
Variable Proxy : Type.

Record ProxyChain : Type := mkProxyChain {
  Sources : list string;
  Proxies : list Proxy;
  Destination : Rule
}.

(** [ProxyChain.IsValid] of the configuration library. *)
Variable IsValid : ProxyChain -> bool.

(** An argument of [SetProxyChain], by its dynamic type; a
    [*serviceConfig.Rule] may be nil. *)
Inductive param : Type :=
| AString (src : string)
| AStrings (sourceUrls : list string)
| AProxy (proxy : Proxy)
| AProxies (requiredProxies : list Proxy)
| ARule (requiredRule : option Rule)
| AOther.

Inductive SetProxyChainError : Type :=
| ErrArgumentAmount
| ErrNoProxyClient
| ErrFirstArgument
| ErrSecondArgument
| ErrNoProxy
| ErrThirdArgument
| ErrNotValid
| ErrSet.

(** What a call does: it panics on a nil rule, or returns an error or
    nil, having handed a chain to the proxy client or not. *)
Inductive SetProxyChainResult : Type :=
| SetPanicked
| SetReturned (err : option SetProxyChainError) (handed : option ProxyChain).

Definition with_urls (rule : Rule) (urls : list string) : Rule :=
  {| Urls := urls; Categories := Categories rule; Commands := Commands rule;
     ExcludedCommands := ExcludedCommands rule |}.

(** [proxyClient] is the proxy client of the context, if the service has
    a context with one: it tells whether [Set] returned without error. *)
Definition SetProxyChain (s : Service) (proxyClient : option (ProxyChain -> bool))
    (params : list param) : SetProxyChainResult :=
  let n := List.length params in
  if Nat.ltb n 2 || Nat.ltb 3 n then SetReturned (Some ErrArgumentAmount) None
  else
    match proxyClient with
    | None => SetReturned (Some ErrNoProxyClient) None
    | Some proxyClient_Set =>
        match (if Nat.eqb n 3 then
                 match nth 0 params AOther with
                 | AString src => inr [src]
                 | AStrings sourceUrls => inr sourceUrls
                 | _ => inl ErrFirstArgument
                 end
               else inr []) with
        | inl err => SetReturned (Some err) None
        | inr sources =>
            let i := (n - 2)%nat in
            match (match nth i params AOther with
                   | AProxy proxy => inr [proxy]
                   | AProxies requiredProxies =>
                       if Nat.eqb (List.length requiredProxies) 0 then inl ErrNoProxy
                       else inr requiredProxies
                   | _ => inl ErrSecondArgument
                   end) with
            | inl err => SetReturned (Some err) None
            | inr proxies =>
                match nth (i + 1) params AOther with
                | ARule None => SetPanicked
                | ARule (Some rule) =>
                    let rule :=
                      if Nat.eqb (List.length (Urls rule)) 0
                      then with_urls rule [url s] else rule in
                    let proxyChain :=
                      {| Sources := sources; Proxies := proxies;
                         Destination := rule |} in
                    if negb (IsValid proxyChain) then SetReturned (Some ErrNotValid) None
                    else if proxyClient_Set proxyChain
                         then SetReturned None (Some proxyChain)
                         else SetReturned (Some ErrSet) (Some proxyChain)
                | _ => SetReturned (Some ErrThirdArgument) None
                end
            end
        end
    end.

End ProxyChains.

Arguments Sources {Proxy} p.
Arguments Proxies {Proxy} p.
Arguments Destination {Proxy} p.
Arguments AString {Proxy} src.
Arguments AStrings {Proxy} sourceUrls.
Arguments AProxy {Proxy} proxy.
Arguments AProxies {Proxy} requiredProxies.
Arguments ARule {Proxy} requiredRule.
Arguments AOther {Proxy}.
Arguments SetPanicked {Proxy}.
Arguments SetReturned {Proxy} err handed.
Arguments SetProxyChain {Proxy} IsValid s proxyClient params.

(** ** New *)

(** What the outside world answers to [New]: the flags of the command
    line, whether the context is created and its configuration started,
    whether a logger is created for an id, the strings the configuration
    client has for the two environment variables, and whether the context
    closes without an error. *)
Record World : Type := mkWorld {
  FlagExist_Id : bool;
  FlagValue_Id : string;
  FlagExist_Url : bool;
  FlagValue_Url : string;
  context_New : bool;
  StartConfig : bool;
  log_New : string -> bool;
  String_IdEnv : option string;
  String_UrlEnv : option string;
  ctx_Close : bool
}.

(** Where [New] gave up; [close_failed] tells whether closing the context
    added its own error. *)
Inductive NewError : Type :=
| ErrContextNew
| ErrStartConfig
| ErrLogNew (close_failed : bool)
| ErrIdEnv (close_failed : bool)
| ErrUrlEnv (close_failed : bool)
| ErrNoId (close_failed : bool)
| ErrNoUrl (close_failed : bool).

(** The result of [New], and how many times the context was closed. *)
Record Created : Type := mkCreated {
  returned : NewError + Service;
  closed : nat
}.

Definition close_and_fail (w : World) (e : bool -> NewError) : Created :=
  {| returned := inl (e (negb (ctx_Close w))); closed := 1 |}.

Definition New (w : World) : Created :=
  let id0 := if FlagExist_Id w then FlagValue_Id w else EmptyString in
  let url0 := if FlagExist_Url w then FlagValue_Url w else EmptyString in
  if negb (context_New w) then {| returned := inl ErrContextNew; closed := 0 |}
  else if negb (StartConfig w) then {| returned := inl ErrStartConfig; closed := 0 |}
  else
    let independent := {| id := id0; url := url0; Handlers := [];
                          RequiredExtensions := [] |} in
    if negb (log_New w id0) then close_and_fail w ErrLogNew
    else
      match (if Nat.eqb (String.length id0) 0 then String_IdEnv w else Some id0) with
      | None => close_and_fail w ErrIdEnv
      | Some id1 =>
          match (if Nat.eqb (String.length url0) 0 then String_UrlEnv w
                 else Some url0) with
          | None => close_and_fail w ErrUrlEnv
          | Some url1 =>
              if Nat.eqb (String.length id1) 0 then close_and_fail w ErrNoId
              else if Nat.eqb (String.length url1) 0 then close_and_fail w ErrNoUrl
              else {| returned := inr independent; closed := 0 |}
          end
      end.

(** The id and the url of the flags: empty without the flag. *)
Definition flag_id (w : World) : string :=
  if FlagExist_Id w then FlagValue_Id w else EmptyString.

Definition flag_url (w : World) : string :=
  if FlagExist_Url w then FlagValue_Url w else EmptyString.

(** The id and the url the checks of [New] are made on. *)
Definition known_id (w : World) : option string :=
  if FlagExist_Id w && negb (Nat.eqb (String.length (FlagValue_Id w)) 0)
  then Some (FlagValue_Id w) else String_IdEnv w.

Definition known_url (w : World) : option string :=
  if FlagExist_Url w && negb (Nat.eqb (String.length (FlagValue_Url w)) 0)
  then Some (FlagValue_Url w) else String_UrlEnv w.

(** ** Examples *)

Definition sample_handler : Handler :=
  {| Config_Category := "main";
     Config_Id := "main_1";
     IsRouteExist := fun command => Contains ["hello"; "bye"] command;
     RouteCommands := ["hello"; "bye"] |}.

Definition sample_service : Service :=
  {| id := "sample"; url := "github.com/ahmetson/sample-service";
     Handlers := [("main", sample_handler)];
     RequiredExtensions := [] |}.

Definition sample_rule : Rule :=
  {| Urls := []; Categories := ["main"]; Commands := ["hello"; "bye"];
     ExcludedCommands := ["bye"] |}.

(** A world without flags, where the environment has the id and the url. *)
Definition sample_world : World :=
  {| FlagExist_Id := false; FlagValue_Id := EmptyString;
     FlagExist_Url := false; FlagValue_Url := EmptyString;
     context_New := true; StartConfig := true; log_New := fun _ => true;
     String_IdEnv := Some "sample";
     String_UrlEnv := Some "github.com/ahmetson/sample-service";
     ctx_Close := true |}.

End Service.

(** * The handler of the logs *)

Module LogHandler.

Import Message.

Local Open Scope string_scope.

(** What [GetLogs] gets from its collaborators: the value, or the text of
    the error ([err.Error()]). *)
Inductive outcome (A : Type) : Type :=
| Success (a : A)
| Failure (text : string).
Arguments Success {A} a.
Arguments Failure {A} text.

(** [GetLogs]: [keys] is what [request.Parameters.GetStringList("keys")]
    returns, [GetLogsFromDb] the database, whose logs are given as
    [data_type.ToMapList] turns them into values. *)
Definition GetLogs (keys : outcome (list string))
    (GetLogsFromDb : list string -> outcome (list json)) : Reply :=
  match keys with
  | Failure text => Fail text
  | Success keys =>
      match GetLogsFromDb keys with
      | Failure text => Fail text
      | Success logs =>
          {| Status := "OK";
             Message := EmptyString;
             Parameters := [("logs", JArray logs)] |}
      end
  end.

End LogHandler.

(** * Properties of the manager *)

Module CategorizerProperties.

Import Categorizer.

(** ** Facts about lists *)

Lemma last_cons_default {A : Type} (l : list A) (x d : A) :
  last (x :: l) d = last l x.
Proof.
  revert x d; induction l as [|y l IH]; intros x d; [reflexivity|].
  change (last (x :: y :: l) d) with (last (y :: l) d).
  now rewrite (IH y d), (IH y x).
Qed.

Lemma fold_left_app_flat_map {A B : Type} (f : A -> list B) (l : list A) (init : list B) :
  fold_left (fun acc a => acc ++ f a) l init = init ++ flat_map f l.
Proof.
  revert init; induction l as [|a l IH]; intros init; simpl.
  - now rewrite app_nil_r.
  - rewrite IH. now rewrite <- app_assoc.
Qed.

Lemma GetSmartcontractAddresses_flat (m : Manager) :
  GetSmartcontractAddresses m
  = flat_map (fun g => workers_addresses (workers g)) (old_categorizers m)
    ++ workers_addresses (current_workers m).
Proof.
  unfold GetSmartcontractAddresses. now rewrite fold_left_app_flat_map.
Qed.

(** ** The request of a Fetching round *)

(** A round reads the answer of the log source at [fetch_request] and
    nowhere else. *)
Lemma round_reads_fetch_request categorize (env1 env2 : Env) (m : Manager) (g : OldWorkerGroup) :
  RemoteLogFilter env1 (fst (fetch_request m g)) (snd (fetch_request m g))
  = RemoteLogFilter env2 (fst (fetch_request m g)) (snd (fetch_request m g)) ->
  (forall p, SendMessage env1 p = SendMessage env2 p) ->
  round categorize env1 m g = round categorize env2 m g.
Proof.
  intros Hfetch Hsend. unfold round.
  destruct (fetch_request m g) as [from addresses]; simpl in *.
  rewrite Hfetch.
  destruct (RemoteLogFilter env2 from addresses) as [all_logs|]; [|reflexivity].
  assert (Happ : forall ws to,
             apply_to_group categorize (SendMessage env1) all_logs ws to
             = apply_to_group categorize (SendMessage env2) all_logs ws to).
  { induction ws as [|w ws IH]; intros to; simpl; [reflexivity|].
    destruct (Nat.eqb _ 0); [now rewrite IH|].
    destruct (categorize w _) as [w' reached].
    rewrite Hsend. destruct (SendMessage env2 _); [now rewrite IH|reflexivity]. }
  now rewrite Happ.
Qed.

Lemma add_uint64_succ (n : Z) :
  0 <= n < uint64_modulus - 1 -> add_uint64 n 1 = n + 1.
Proof.
  intros H. unfold add_uint64. apply Z.mod_small. lia.
Qed.

(** C5, as the code has it: a Fetching round asks for the logs from the
    block after the group's cursor, [group.block_number + 1] in [uint64]
    arithmetic, and not from the cursor itself: the round runs the same
    against a log source that only serves requests beginning there, and
    gets nothing from one that only serves requests beginning at the
    cursor.  A group created at block 100 fetches from block 101 onward. *)
Theorem fetch_starts_after_cursor categorize (env : Env) (m : Manager) (g : OldWorkerGroup) :
  fst (fetch_request m g) = (block_number g + 1) mod 2 ^ 64
  /\ round categorize (serving_from ((block_number g + 1) mod 2 ^ 64) env) m g
     = round categorize env m g
  /\ (0 <= block_number g < 2 ^ 64 - 1 ->
      fst (fetch_request m g) = block_number g + 1
      /\ round categorize (serving_from (block_number g) env) m g = Running m g)
  /\ (forall id ws, fst (fetch_request m (NewGroup id 100 ws)) = 101).
Proof.
  split; [reflexivity|]. split; [|split].
  - apply round_reads_fetch_request; [|reflexivity].
    cbn [fetch_request fst snd serving_from RemoteLogFilter].
    unfold add_uint64, uint64_modulus. now rewrite Z.eqb_refl.
  - intros H.
    assert (Hfrom : add_uint64 (block_number g) 1 = block_number g + 1)
      by (apply add_uint64_succ; unfold uint64_modulus; lia).
    split; [exact Hfrom|].
    unfold round. cbn [fetch_request serving_from RemoteLogFilter].
    rewrite Hfrom.
    destruct (Z.eqb_spec (block_number g + 1) (block_number g)) as [Heq|_];
      [lia|reflexivity].
  - reflexivity.
Qed.

Lemma fetch_starts_after_cursor_witness :
  let g := NewGroup 0 100 [worker_at "a" 100] in
  let m := manager_at 150 [g] [] in
  let env := answering [log_at "a" 120] in
  fst (fetch_request m g) = 101
  /\ round categorize_watermark (serving_from 100 env) m g = Running m g
  /\ block_number (engine_group (round categorize_watermark (serving_from 101 env) m g))
     = 120.
Proof.
  intros g m env.
  destruct (fetch_starts_after_cursor categorize_watermark env m g)
    as (_ & Hsame & Hnext & _).
  destruct Hnext as [Hfrom Hnone]; [simpl; lia|].
  split; [exact Hfrom|]. split; [exact Hnone|].
  change 101 with ((block_number g + 1) mod 2 ^ 64) at 1.
  rewrite Hsame. reflexivity.
Defined.

(** C5 as stated fails: the request of a group whose cursor is 100 does not
    begin at block 100, and a log source that only serves requests
    beginning at block 100 leaves the group where it was. *)
Lemma fetch_from_cursor_counterexample :
  let g := NewGroup 0 100 [worker_at "a" 100] in
  let m := manager_at 150 [g] [] in
  fst (fetch_request m g) <> block_number g
  /\ round categorize_watermark (serving_from (block_number g) (answering [log_at "a" 120]))
           m g
     = Running m g.
Proof.
  split; [vm_compute; discriminate|reflexivity].
Qed.

(** C6, as the code has it: the request carries the addresses of every
    worker the manager holds, the members of all groups in the order of
    the collection followed by the live population: the round runs the
    same against a log source that only serves requests for exactly these
    addresses, and gets nothing from one that only serves the addresses of
    the group's own members when they are not all there is.  The addresses
    of the group's members are part of the request as long as the group is
    in the collection. *)
Theorem fetch_addresses_of_all_workers categorize (env : Env) (m : Manager)
    (g : OldWorkerGroup) :
  snd (fetch_request m g)
  = flat_map (fun g' => workers_addresses (workers g')) (old_categorizers m)
    ++ workers_addresses (current_workers m)
  /\ round categorize
       (serving_addresses
          (flat_map (fun g' => workers_addresses (workers g')) (old_categorizers m)
           ++ workers_addresses (current_workers m)) env) m g
     = round categorize env m g
  /\ (In g (old_categorizers m) ->
      incl (workers_addresses (workers g)) (snd (fetch_request m g)))
  /\ (snd (fetch_request m g) <> workers_addresses (workers g) ->
      round categorize (serving_addresses (workers_addresses (workers g)) env) m g
      = Running m g).
Proof.
  assert (Hall : snd (fetch_request m g)
                 = flat_map (fun g' => workers_addresses (workers g')) (old_categorizers m)
                   ++ workers_addresses (current_workers m))
    by (cbn [fetch_request snd]; apply GetSmartcontractAddresses_flat).
  split; [exact Hall|]. split; [|split].
  - apply round_reads_fetch_request; [|reflexivity].
    cbn [serving_addresses RemoteLogFilter]. rewrite <- Hall.
    destruct (list_eq_dec string_dec _ _) as [_|Hne]; [reflexivity|contradiction].
  - intros Hin a Ha. rewrite Hall. apply in_or_app; left.
    apply in_flat_map. now exists g.
  - intros Hne. unfold round.
    destruct (fetch_request m g) as [from addresses] eqn:Hreq.
    cbn [serving_addresses RemoteLogFilter]. cbn [snd] in Hne.
    destruct (list_eq_dec string_dec _ _) as [Heq|_]; [contradiction|reflexivity].
Qed.

Lemma fetch_addresses_of_all_workers_witness :
  let g1 := NewGroup 0 100 [worker_at "a" 100] in
  let g2 := NewGroup 1 120 [worker_at "b" 120] in
  let m := manager_at 150 [g1; g2] [worker_at "c" 150] in
  incl (workers_addresses (workers g1)) (snd (fetch_request m g1))
  /\ round categorize_watermark
       (serving_addresses (workers_addresses (workers g1)) (answering [log_at "a" 120]))
       m g1
     = Running m g1.
Proof.
  intros g1 g2 m.
  destruct (fetch_addresses_of_all_workers categorize_watermark
              (answering [log_at "a" 120]) m g1) as (_ & _ & Hin & Hnone).
  split.
  - apply Hin. simpl. left. reflexivity.
  - apply Hnone. simpl. discriminate.
Defined.

(** C6 as stated fails: the request of the first of two groups also names
    the worker of the other group and the live worker. *)
Lemma fetch_only_members_counterexample :
  let g1 := NewGroup 0 100 [worker_at "a" 100] in
  let g2 := NewGroup 1 120 [worker_at "b" 120] in
  let m := manager_at 150 [g1; g2] [worker_at "c" 150] in
  snd (fetch_request m g1) = ["a"; "b"; "c"]%string
  /\ snd (fetch_request m g1) <> workers_addresses (workers g1).
Proof.
  simpl. split; [reflexivity|discriminate].
Qed.

(** ** The cursor after an Applying round *)

Lemma reached_by_cons categorize all_logs w ws :
  reached_by categorize all_logs (w :: ws)
  = if has_logs all_logs w
    then snd (categorize w (FilterByAddress all_logs (Address (smartcontract w))))
         :: reached_by categorize all_logs ws
    else reached_by categorize all_logs ws.
Proof.
  unfold reached_by; simpl. now destruct (has_logs all_logs w).
Qed.

Lemma apply_to_group_cursor categorize send all_logs ws :
  forall to a,
    apply_to_group categorize send all_logs ws to = Done a ->
    block_number_to a = last (reached_by categorize all_logs ws) to.
Proof.
  induction ws as [|w ws IH]; intros to a H; simpl in H.
  - injection H as <-. reflexivity.
  - rewrite reached_by_cons. unfold has_logs.
    destruct (Nat.eqb _ 0) eqn:Hlen; cbn [negb].
    + destruct (apply_to_group categorize send all_logs ws to) as [a0|a0] eqn:Hrest;
        simpl in H; [|discriminate].
      injection H as <-. simpl. now apply IH.
    + rewrite last_cons_default.
      destruct (categorize w _) as [w' reached].
      destruct (send _); [|discriminate].
      destruct (apply_to_group categorize send all_logs ws reached) as [a0|a0] eqn:Hrest;
        simpl in H; [|discriminate].
      injection H as <-. simpl. now apply IH.
Qed.

(** The shape of a round whose fetch succeeded, by the result of the loop
    over the members. *)
Lemma round_fetched categorize env m g all_logs :
  RemoteLogFilter env (fst (fetch_request m g)) (snd (fetch_request m g)) = Some all_logs ->
  round categorize env m g
  = match apply_to_group categorize (SendMessage env) all_logs (workers g)
                         (add_uint64 (block_number g) 1) with
    | Panicked a =>
        let g1 := with_workers g (applied_workers a) in
        Crashed (commit m g1 (applied_pushes a)) g1
    | Done a =>
        let g1 := with_block_number (with_workers g (applied_workers a))
                                    (block_number_to a) in
        let m1 := commit m g1 (applied_pushes a) in
        if block_number_to a >=? subscribed_earliest_block_number m then
          Finished (set_old_categorizers (add_current_workers m1 (workers g1))
                      (Delete (old_categorizers (add_current_workers m1 (workers g1))) g1)) g1
        else Running m1 g1
    end.
Proof.
  intros H. unfold round. simpl in H. simpl. rewrite H. reflexivity.
Qed.

(** C2, as the code has it: after an Applying round the cursor is the block
    number returned for the last member, in member order, that had fetched
    logs; when no member had any, it is the old cursor plus one.  With
    exactly one member that had logs this is the maximum the specification
    asks for. *)
Theorem cursor_after_round categorize env m g all_logs :
  RemoteLogFilter env (fst (fetch_request m g)) (snd (fetch_request m g)) = Some all_logs ->
  is_crashed (round categorize env m g) = false ->
  block_number (engine_group (round categorize env m g))
  = last (reached_by categorize all_logs (workers g)) (add_uint64 (block_number g) 1)
  /\ (reached_by categorize all_logs (workers g) = [] ->
      block_number (engine_group (round categorize env m g))
      = add_uint64 (block_number g) 1)
  /\ (forall r, reached_by categorize all_logs (workers g) = [r] ->
      block_number (engine_group (round categorize env m g))
      = cursor_by_spec categorize all_logs g).
Proof.
  intros Hfetch Hok.
  assert (Hlast : block_number (engine_group (round categorize env m g))
                  = last (reached_by categorize all_logs (workers g))
                         (add_uint64 (block_number g) 1)).
  { rewrite (round_fetched _ _ _ _ _ Hfetch) in *.
    destruct (apply_to_group _ _ _ _ _) as [a|a] eqn:Happ; [|discriminate].
    apply apply_to_group_cursor in Happ. cbv zeta.
    destruct (_ >=? _); simpl; exact Happ. }
  split; [exact Hlast|]. split.
  - intros Hnone. now rewrite Hlast, Hnone.
  - intros r Hone. unfold cursor_by_spec. now rewrite Hlast, Hone.
Qed.

Lemma cursor_after_round_witness :
  let g := NewGroup 0 100 [worker_at "a" 100; worker_at "b" 100] in
  let m := manager_at 150 [g] [] in
  block_number (engine_group
    (round categorize_watermark (answering [log_at "a" 140; log_at "b" 120]) m g))
  = 120.
Proof.
  intros g m.
  apply (proj1 (cursor_after_round categorize_watermark
                  (answering [log_at "a" 140; log_at "b" 120]) m g
                  [log_at "a" 140; log_at "b" 120] eq_refl eq_refl)).
Defined.

(** C2 as stated fails on both counts: with logs up to block 140 for the
    first member and up to block 120 for the second the cursor becomes 120,
    not the maximum 140; and with nothing fetched the cursor moves from 100
    to 101. *)
Lemma cursor_maximum_counterexample :
  let g := NewGroup 0 100 [worker_at "a" 100; worker_at "b" 100] in
  let m := manager_at 150 [g] [] in
  let fetched := [log_at "a" 140; log_at "b" 120] in
  block_number (engine_group (round categorize_watermark (answering fetched) m g))
    <> cursor_by_spec categorize_watermark fetched g
  /\ block_number (engine_group (round categorize_watermark (answering []) m g))
    <> cursor_by_spec categorize_watermark [] g.
Proof.
  split; vm_compute; discriminate.
Qed.

(** ** A catch-up run *)

(** A group at block 100 under a baseline of 150: the first round applies
    logs up to block 149 and stays in catch-up, the second one fetches from
    block 150, finds nothing, moves the cursor to 150 and promotes the
    worker. *)
Example catch_up_run :
  let g := NewGroup 0 100 [worker_at "a" 100] in
  let m := manager_at 150 [g] [] in
  let first := answering [log_at "a" 120; log_at "a" 149] in
  let second := answering [] in
  block_number (engine_group (run categorize_watermark [first] (Running m g))) = 149
  /\ is_running (run categorize_watermark [first] (Running m g)) = true
  /\ run categorize_watermark [first; second] (Running m g)
     = Finished
         {| Network_Id := "1";
            old_categorizers := [];
            current_workers := [worker_at "a" 149];
            subscribed_earliest_block_number := 150;
            subscribed_blocks := [];
            pusher := [push_of (worker_at "a" 149) [log_at "a" 120; log_at "a" 149]] |}
         (NewGroup 0 150 [worker_at "a" 149]).
Proof.
  repeat split.
Qed.

(** ** Promotion of a group *)

Lemma apply_to_group_length categorize send all_logs ws :
  forall to a,
    apply_to_group categorize send all_logs ws to = Done a ->
    List.length (applied_workers a) = List.length ws.
Proof.
  induction ws as [|w ws IH]; intros to a H; simpl in H.
  - injection H as <-. reflexivity.
  - destruct (Nat.eqb _ 0).
    + destruct (apply_to_group categorize send all_logs ws to) as [a0|a0] eqn:Hrest;
        simpl in H; [|discriminate].
      injection H as <-. simpl. f_equal. eapply IH; eassumption.
    + destruct (categorize w _) as [w' reached].
      destruct (send _); [|discriminate].
      destruct (apply_to_group categorize send all_logs ws reached) as [a0|a0] eqn:Hrest;
        simpl in H; [|discriminate].
      injection H as <-. simpl. f_equal. eapply IH; eassumption.
Qed.

Lemma Delete_absent (gs : OldWorkerGroups) (g g0 : OldWorkerGroup) :
  In g0 (Delete gs g) -> group_id g0 <> group_id g.
Proof.
  unfold Delete. intros H. apply filter_In in H as [_ H].
  apply negb_true_iff, Nat.eqb_neq in H. exact H.
Qed.

Lemma step_stopped categorize (e : Engine) (env : Env) :
  is_running e = false -> step categorize e env = e.
Proof. now destruct e. Qed.

Lemma run_stopped categorize (envs : list Env) (e : Engine) :
  is_running e = false -> run categorize envs e = e.
Proof.
  unfold run. induction envs as [|env envs IH]; intros H; simpl; [reflexivity|].
  rewrite step_stopped by exact H. now apply IH.
Qed.

Lemma promotions_stopped categorize (envs : list Env) (e : Engine) :
  is_running e = false -> promotions categorize envs e = 0%nat.
Proof.
  induction envs as [|env envs IH]; intros H; simpl; [reflexivity|].
  rewrite H, step_stopped by exact H. simpl. now apply IH.
Qed.

Lemma promotions_at_most_once categorize (envs : list Env) :
  forall e, (promotions categorize envs e <= 1)%nat.
Proof.
  induction envs as [|env envs IH]; intros e; simpl; [lia|].
  destruct (is_running e && is_finished (step categorize e env)) eqn:Hp.
  - apply andb_true_iff in Hp as [_ Hfin].
    rewrite promotions_stopped; [lia|].
    now destruct (step categorize e env).
  - specialize (IH (step categorize e env)). lia.
Qed.

(** A round promotes exactly when the fetch succeeds, every result is
    delivered and the loop over the members ends at or past the baseline. *)
Lemma round_finished_iff categorize env m g :
  is_finished (round categorize env m g) = true <->
  exists all_logs a,
    RemoteLogFilter env (fst (fetch_request m g)) (snd (fetch_request m g)) = Some all_logs
    /\ apply_to_group categorize (SendMessage env) all_logs (workers g)
                      (fst (fetch_request m g)) = Done a
    /\ subscribed_earliest_block_number m <= block_number_to a.
Proof.
  split.
  - intros H.
    destruct (RemoteLogFilter env (fst (fetch_request m g)) (snd (fetch_request m g)))
      as [all_logs|] eqn:Hfetch.
    + rewrite (round_fetched _ _ _ _ _ Hfetch) in H.
      destruct (apply_to_group _ _ _ _ _) as [a|a] eqn:Happ; [|discriminate].
      exists all_logs, a. split; [reflexivity|]. split; [exact Happ|].
      cbv zeta in H.
      destruct (_ >=? _) eqn:Hge; [|discriminate].
      apply Z.geb_le in Hge. exact Hge.
    + unfold round in H. simpl in *. rewrite Hfetch in H. discriminate.
  - intros (all_logs & a & Hfetch & Happ & Hge).
    rewrite (round_fetched _ _ _ _ _ Hfetch). simpl in Happ. rewrite Happ.
    cbv zeta. apply Z.geb_le in Hge. now rewrite Hge.
Qed.

Lemma round_finished_inv categorize env m g m' g' :
  round categorize env m g = Finished m' g' ->
  subscribed_earliest_block_number m <= block_number g'
  /\ group_id g' = group_id g
  /\ List.length (workers g') = List.length (workers g)
  /\ current_workers m' = current_workers m ++ workers g'
  /\ (forall g0, In g0 (old_categorizers m') -> group_id g0 <> group_id g).
Proof.
  intros H.
  destruct (RemoteLogFilter env (fst (fetch_request m g)) (snd (fetch_request m g)))
    as [all_logs|] eqn:Hfetch.
  - rewrite (round_fetched _ _ _ _ _ Hfetch) in H.
    destruct (apply_to_group _ _ _ _ _) as [a|a] eqn:Happ; [|discriminate].
    cbv zeta in H. destruct (_ >=? _) eqn:Hge; [|discriminate].
    injection H as <- <-. apply Z.geb_le in Hge.
    repeat split; try reflexivity; try assumption.
    + simpl. eapply apply_to_group_length; eassumption.
    + intros g0 Hin. simpl in Hin. now apply Delete_absent in Hin.
  - unfold round in H. simpl in *. rewrite Hfetch in H. discriminate.
Qed.

(** ** A cooperative outside world: the group is promoted *)

Lemma categorize_watermark_covers : covers categorize_watermark.
Proof.
  intros w logs l Hin. unfold categorize_watermark; simpl.
  generalize (CategorizedBlockNumber (smartcontract w)) as acc.
  induction logs as [|l0 logs IH]; intros acc; [contradiction|].
  simpl. destruct Hin as [->|Hin].
  - clear IH. generalize (Z.le_max_r acc (log_block_number l)).
    generalize (Z.max acc (log_block_number l)) as acc'.
    induction logs as [|l1 logs IH]; intros acc' H; simpl; [exact H|].
    apply IH. lia.
  - now apply IH.
Qed.

Lemma apply_to_group_delivers categorize send all_logs ws :
  (forall p, send p = true) ->
  forall to, exists a, apply_to_group categorize send all_logs ws to = Done a.
Proof.
  intros Hsend. induction ws as [|w ws IH]; intros to; simpl.
  - eexists; reflexivity.
  - destruct (Nat.eqb _ 0).
    + destruct (IH to) as [a ->]. eexists; reflexivity.
    + destruct (categorize w _) as [w' reached]. rewrite Hsend.
      destruct (IH reached) as [a ->]. eexists; reflexivity.
Qed.

Lemma last_Forall {A : Type} (P : A -> Prop) (l : list A) (d : A) :
  Forall P l -> P d -> P (last l d).
Proof.
  intros Hl Hd. induction Hl as [|x l Hx Hl IH]; [exact Hd|].
  rewrite last_cons_default.
  clear IH Hd. revert x Hx. induction Hl as [|y l Hy Hl IH]; intros x Hx; [exact Hx|].
  rewrite last_cons_default. now apply IH.
Qed.

Lemma reached_by_from categorize all_logs ws (from : Z) :
  covers categorize ->
  (forall l, In l all_logs -> from <= log_block_number l) ->
  Forall (fun r => from <= r) (reached_by categorize all_logs ws).
Proof.
  intros Hcov Hfrom. unfold reached_by.
  apply Forall_map, Forall_forall. intros w Hw.
  apply filter_In in Hw as [_ Hw]. unfold has_logs in Hw.
  destruct (FilterByAddress all_logs (Address (smartcontract w))) as [|l logs] eqn:Hf;
    [discriminate|].
  assert (Hin : In l all_logs).
  { assert (H : In l (FilterByAddress all_logs (Address (smartcontract w))))
      by (rewrite Hf; now left).
    unfold FilterByAddress in H. now apply filter_In in H as [H _]. }
  specialize (Hfrom l Hin).
  specialize (Hcov w (l :: logs) l (or_introl eq_refl)). lia.
Qed.

(** Under a cooperative world a round below the baseline either promotes
    the group or moves its cursor forward, and never crashes. *)
Lemma round_progress categorize env m g :
  covers categorize -> cooperative env ->
  0 <= block_number g < uint64_modulus - 1 ->
  match round categorize env m g with
  | Running m1 g1 =>
      block_number g < block_number g1 < subscribed_earliest_block_number m
      /\ subscribed_earliest_block_number m1 = subscribed_earliest_block_number m
  | Finished _ _ => True
  | Crashed _ _ => False
  end.
Proof.
  intros Hcov [Hsend Hsrc] Hrange.
  destruct (Hsrc (fst (fetch_request m g)) (snd (fetch_request m g)))
    as (all_logs & Hfetch & Hfrom).
  rewrite (round_fetched _ _ _ _ _ Hfetch).
  destruct (apply_to_group_delivers categorize (SendMessage env) all_logs (workers g)
              Hsend (add_uint64 (block_number g) 1)) as [a Happ].
  rewrite Happ. cbv zeta.
  destruct (_ >=? _) eqn:Hge; [exact I|].
  simpl. split; [|reflexivity].
  apply apply_to_group_cursor in Happ.
  assert (Hlast : add_uint64 (block_number g) 1 <= block_number_to a).
  { rewrite Happ. apply last_Forall; [|lia].
    now apply reached_by_from. }
  rewrite add_uint64_succ in Hlast by exact Hrange.
  assert (Hlt : (block_number_to a >=? subscribed_earliest_block_number m) = false)
    by exact Hge.
  rewrite Z.geb_leb in Hlt. apply Z.leb_gt in Hlt. lia.
Qed.

(** With enough cooperative rounds a group below the baseline is promoted,
    and exactly once. *)
Lemma cooperative_run_promotes categorize (envs : list Env) :
  covers categorize ->
  Forall cooperative envs ->
  forall m g,
    0 <= block_number g < subscribed_earliest_block_number m ->
    subscribed_earliest_block_number m < uint64_modulus ->
    subscribed_earliest_block_number m - block_number g <= Z.of_nat (List.length envs) ->
    is_finished (run categorize envs (Running m g)) = true
    /\ promotions categorize envs (Running m g) = 1%nat.
Proof.
  intros Hcov Hcoop. induction Hcoop as [|env envs Henv Hcoop IH];
    intros m g Hc Hb Hlen; [simpl in Hlen; lia|].
  pose proof (round_progress categorize env m g Hcov Henv) as Hp.
  unfold run; simpl fold_left; simpl promotions.
  destruct (round categorize env m g) as [m1 g1|m1 g1|m1 g1] eqn:Hr.
  - destruct Hp as [Hlt Hbase]; [lia|].
    simpl. fold (run categorize envs (Running m1 g1)).
    apply IH; rewrite ?Hbase; try lia.
    rewrite length_cons in Hlen. lia.
  - simpl. fold (run categorize envs (Finished m1 g1)).
    rewrite run_stopped, promotions_stopped by reflexivity. now split.
  - exfalso. apply Hp. lia.
Qed.

(** ** A group is promoted once, at or past the baseline *)

(** C1, as the code has it: a group is promoted at most once, and it is
    promoted by the round that ends with its cursor at or past the live
    baseline: every member is appended to the live population, the group
    leaves the collection and the engine stops for good.  At promotion the
    cursor is never below the baseline; it may exceed it.  When the log
    source answers from the requested block on and every result is
    delivered, a group below the baseline is promoted, exactly once, within
    as many rounds as blocks separate its cursor from the baseline. *)
Theorem group_promoted_once categorize env m g :
  (forall envs, (promotions categorize envs (Running m g) <= 1)%nat)
  /\ (is_finished (round categorize env m g) = true <->
      exists all_logs a,
        RemoteLogFilter env (fst (fetch_request m g)) (snd (fetch_request m g))
          = Some all_logs
        /\ apply_to_group categorize (SendMessage env) all_logs (workers g)
                          (fst (fetch_request m g)) = Done a
        /\ subscribed_earliest_block_number m <= block_number_to a)
  /\ (forall m' g',
        round categorize env m g = Finished m' g' ->
        subscribed_earliest_block_number m <= block_number g'
        /\ List.length (workers g') = List.length (workers g)
        /\ current_workers m' = current_workers m ++ workers g'
        /\ (forall g0, In g0 (old_categorizers m') -> group_id g0 <> group_id g)
        /\ (forall envs, run categorize envs (Finished m' g') = Finished m' g')
        /\ (forall envs, promotions categorize (env :: envs) (Running m g) = 1%nat))
  /\ (covers categorize ->
      0 <= block_number g < subscribed_earliest_block_number m ->
      subscribed_earliest_block_number m < 2 ^ 64 ->
      forall envs,
        Forall cooperative envs ->
        subscribed_earliest_block_number m - block_number g <= Z.of_nat (List.length envs) ->
        is_finished (run categorize envs (Running m g)) = true
        /\ promotions categorize envs (Running m g) = 1%nat).
Proof.
  split; [intros envs; apply promotions_at_most_once|].
  split; [apply round_finished_iff|].
  split; [|intros Hcov Hc Hb envs Hcoop Hlen;
           now apply cooperative_run_promotes].
  intros m' g' H.
  destruct (round_finished_inv _ _ _ _ _ _ H) as (Hge & _ & Hlen & Hlive & Hgone).
  repeat split; try assumption.
  - intros envs. now apply run_stopped.
  - intros envs. simpl. rewrite H. simpl. now rewrite promotions_stopped.
Qed.

Lemma group_promoted_once_witness :
  let g := NewGroup 0 100 [worker_at "a" 100] in
  let m := manager_at 150 [g] [worker_at "c" 150] in
  let env := answering [log_at "a" 149; log_at "a" 150] in
  current_workers (engine_manager (round categorize_watermark env m g))
  = [worker_at "c" 150; worker_at "a" 150]
  /\ old_categorizers (engine_manager (round categorize_watermark env m g)) = []
  /\ promotions categorize_watermark [env; env; env] (Running m g) = 1%nat.
Proof.
  intros g m env.
  destruct (group_promoted_once categorize_watermark env m g) as (_ & _ & H & _).
  destruct (H (engine_manager (round categorize_watermark env m g))
              (engine_group (round categorize_watermark env m g)) eq_refl)
    as (_ & _ & Hlive & _ & _ & Hone).
  split; [exact Hlive|]. split; [reflexivity|]. exact (Hone [env; env]).
Defined.

(** C1 as stated fails in its last part: with the baseline at 150, a group
    at cursor 100 whose member has a log in block 160 is promoted with its
    cursor at 160, past the baseline. *)
Lemma promotion_cursor_counterexample :
  let g := NewGroup 0 100 [worker_at "a" 100] in
  let m := manager_at 150 [g] [] in
  let e := round categorize_watermark (answering [log_at "a" 160]) m g in
  is_finished e = true
  /\ block_number (engine_group e) = 160
  /\ ~ block_number (engine_group e) <= subscribed_earliest_block_number m.
Proof.
  simpl. split; [reflexivity|]. split; [reflexivity|].
  vm_compute. intros H. apply H. reflexivity.
Qed.

(** ** The live dispatcher *)

(** When every message is delivered, each live worker is either skipped,
    and then neither touched nor announced, or it categorizes its logs of
    the block and is announced, whatever the number of those logs. *)
Lemma consume_block_delivered categorize send block ws :
  (forall p, send p = true) ->
  consume_block categorize send block ws
  = Done {| consumed_workers :=
              map (fun w => if skipped block w then w
                            else fst (categorize w (GetForSmartcontract block
                                                      (Address (smartcontract w))))) ws;
            consumed_pushes :=
              flat_map (fun w => if skipped block w then []
                                 else [push_of (fst (categorize w (GetForSmartcontract block
                                                      (Address (smartcontract w)))))
                                               (GetForSmartcontract block
                                                      (Address (smartcontract w)))]) ws |}.
Proof.
  intros Hsend. induction ws as [|w ws IH]; [reflexivity|].
  cbn [consume_block map flat_map]. rewrite IH.
  change (BlockNumber block <=? CategorizedBlockNumber (smartcontract w))
    with (skipped block w).
  destruct (skipped block w); [reflexivity|].
  destruct (categorize w _) as [w' reached]. now rewrite Hsend.
Qed.

(** C3, the code at the failing input: a live worker at watermark 150
    receives block 151, which holds no log of its address.  The worker is
    not skipped, no log is applied, and a result with an empty list of logs
    is published all the same; the catch-up loop, given the same logs,
    publishes nothing. *)
Theorem live_dispatcher_publishes_empty_result :
  let block := NewBlock "1" 151 1700000000 [log_at "b" 151] in
  let w := worker_at "a" 150 in
  GetForSmartcontract block (Address (smartcontract w)) = []
  /\ consume_block categorize_watermark (fun _ => true) block [w]
     = Done {| consumed_workers := [w];
               consumed_pushes := [push_of w []] |}
  /\ apply_to_group categorize_watermark (fun _ => true) (Logs block) [w] 151
     = Done {| block_number_to := 151;
               applied_workers := [w];
               applied_pushes := [] |}.
Proof.
  repeat split.
Qed.

(** ** The subscription ingestor *)

Lemma subscribe_app (m : Manager) (ps1 ps2 : list Polled) :
  subscribe m (ps1 ++ ps2)
  = match subscribe m ps1 with
    | Done m1 => subscribe m1 ps2
    | Panicked m1 => Panicked m1
    end.
Proof.
  revert m; induction ps1 as [|p ps1 IH]; intros m; simpl; [reflexivity|].
  destruct (subscribe_step m p) as [m1|m1]; [apply IH|reflexivity].
Qed.

Lemma subscribe_step_keeps_baseline (m : Manager) (p : Polled) :
  subscribed_earliest_block_number m <> 0 ->
  subscribed_earliest_block_number (res_state (subscribe_step m p))
  = subscribed_earliest_block_number m.
Proof.
  intros Hset. apply Z.eqb_neq in Hset.
  destruct p as [| | | |b]; simpl; try reflexivity.
  destruct (in_block_number b) as [n|]; [|reflexivity].
  destruct (in_network_id b) as [network_id|]; [|reflexivity].
  destruct (negb (String.eqb network_id (Network_Id m))); [reflexivity|].
  rewrite Hset. simpl.
  destruct (n <? _); [reflexivity|].
  destruct (in_block_timestamp b); [|reflexivity].
  destruct (in_logs b); reflexivity.
Qed.

Lemma subscribe_keeps_baseline (ps : list Polled) :
  forall m,
    subscribed_earliest_block_number m <> 0 ->
    subscribed_earliest_block_number (res_state (subscribe m ps))
    = subscribed_earliest_block_number m.
Proof.
  induction ps as [|p ps IH]; intros m Hset; simpl; [reflexivity|].
  pose proof (subscribe_step_keeps_baseline m p Hset) as Hstep.
  destruct (subscribe_step m p) as [m1|m1]; simpl in *; [|exact Hstep].
  rewrite IH; [exact Hstep|]. now rewrite Hstep.
Qed.

Lemma subscribe_step_sets_baseline (m : Manager) (b : Inbound) (n : Z) :
  subscribed_earliest_block_number m = 0 ->
  in_block_number b = Some n ->
  in_network_id b = Some (Network_Id m) ->
  subscribed_earliest_block_number (res_state (subscribe_step m (Received b))) = n.
Proof.
  intros Hunset Hn Hnet. simpl. rewrite Hn, Hnet, String.eqb_refl, Hunset. simpl.
  destruct (in_block_timestamp b); [|reflexivity].
  destruct (in_logs b); reflexivity.
Qed.

(** C4, as the code has it: once the baseline is set, a broadcast of this
    network whose block number is strictly below the baseline is dropped
    and leaves the manager as it was; a block at or above the baseline,
    the baseline block itself included, is appended to the Block Queue. *)
Theorem broadcast_below_baseline_discarded (m : Manager) (b : Inbound) (n : Z) :
  subscribed_earliest_block_number m <> 0 ->
  in_block_number b = Some n ->
  in_network_id b = Some (Network_Id m) ->
  (n < subscribed_earliest_block_number m ->
   subscribe_step m (Received b) = Done m)
  /\ (subscribed_earliest_block_number m <= n ->
      forall timestamp logs,
        in_block_timestamp b = Some timestamp ->
        in_logs b = Some logs ->
        subscribe_step m (Received b)
        = Done (set_subscribed_blocks m
                  (subscribed_blocks m ++ [NewBlock (Network_Id m) n timestamp logs]))).
Proof.
  intros Hset Hn Hnet. apply Z.eqb_neq in Hset.
  split.
  - intros Hlt. apply Z.ltb_lt in Hlt.
    simpl. now rewrite Hn, Hnet, String.eqb_refl, Hset, Hlt.
  - intros Hge timestamp logs Hts Hlogs. apply Z.ltb_ge in Hge.
    simpl. now rewrite Hn, Hnet, String.eqb_refl, Hset, Hge, Hts, Hlogs.
Qed.

Lemma broadcast_below_baseline_discarded_witness :
  let m := manager_at 150 [] [] in
  subscribe_step m (Received (broadcast_of 149)) = Done m
  /\ subscribed_blocks (res_state (subscribe_step m (Received (broadcast_of 151))))
     = [NewBlock "1" 151 1700000000 []].
Proof.
  intros m. split.
  - apply (broadcast_below_baseline_discarded m (broadcast_of 149) 149);
      [discriminate|reflexivity|reflexivity|reflexivity].
  - destruct (broadcast_below_baseline_discarded m (broadcast_of 151) 151) as [_ H];
      [discriminate|reflexivity|reflexivity|].
    rewrite (H ltac:(discriminate) 1700000000 [] eq_refl eq_refl). reflexivity.
Defined.

(** C4 as stated fails at the baseline itself: with the baseline at 150 a
    block 150 delivered again is not discarded, it joins the queue. *)
Lemma redelivered_baseline_counterexample :
  let m := manager_at 150 [] [] in
  subscribe_step m (Received (broadcast_of 150)) <> Done m
  /\ subscribed_blocks (res_state (subscribe_step m (Received (broadcast_of 150))))
     = [NewBlock "1" 150 1700000000 []].
Proof.
  split; [discriminate|reflexivity].
Qed.

(** C7, as the code has it: the value 0 stands for an unset baseline.  The
    first broadcast of this network with a block number other than 0 sets
    the baseline to that number, and no later poll changes it. *)
Theorem baseline_set_once (m m1 : Manager) (ps1 ps2 : list Polled) (b : Inbound) (n : Z) :
  subscribe m ps1 = Done m1 ->
  subscribed_earliest_block_number m1 = 0 ->
  in_block_number b = Some n ->
  n <> 0 ->
  in_network_id b = Some (Network_Id m1) ->
  subscribed_earliest_block_number
    (res_state (subscribe m (ps1 ++ Received b :: ps2))) = n.
Proof.
  intros Hpre Hunset Hn Hnz Hnet.
  rewrite subscribe_app, Hpre.
  pose proof (subscribe_step_sets_baseline m1 b n Hunset Hn Hnet) as Hstep.
  change (subscribe m1 (Received b :: ps2))
    with (match subscribe_step m1 (Received b) with
          | Done m2 => subscribe m2 ps2
          | Panicked m2 => Panicked m2
          end).
  destruct (subscribe_step m1 (Received b)) as [m2|m2]; cbn [res_state] in Hstep |- *.
  - rewrite subscribe_keeps_baseline; [exact Hstep|]. now rewrite Hstep.
  - exact Hstep.
Qed.

Lemma baseline_set_once_witness :
  subscribed_earliest_block_number
    (res_state (subscribe (NewManager "1")
                  ([Idle] ++ Received (broadcast_of 150)
                     :: [Received (broadcast_of 151); Received (broadcast_of 149)])))
  = 150.
Proof.
  apply (baseline_set_once (NewManager "1") (NewManager "1") [Idle]
           [Received (broadcast_of 151); Received (broadcast_of 149)]
           (broadcast_of 150) 150);
    [reflexivity|reflexivity|reflexivity|discriminate|reflexivity].
Defined.

(** C7 as stated fails when the first block observed has number 0: the
    baseline stays unset and the next broadcast changes it. *)
Lemma baseline_block_zero_counterexample :
  let first := [Received (broadcast_of 0)] in
  let later := [Received (broadcast_of 150)] in
  subscribed_earliest_block_number (res_state (subscribe (NewManager "1") first)) = 0
  /\ subscribed_earliest_block_number
       (res_state (subscribe (NewManager "1") (first ++ later))) = 150
  /\ subscribed_earliest_block_number
       (res_state (subscribe (NewManager "1") (first ++ later)))
     <> subscribed_earliest_block_number
          (res_state (subscribe (NewManager "1") first)).
Proof.
  repeat split. discriminate.
Qed.

(** ** A result that cannot be delivered *)

(** The loop over the members, cut in two. *)
Lemma apply_to_group_app categorize send all_logs pre rest :
  forall to,
    apply_to_group categorize send all_logs (pre ++ rest) to
    = match apply_to_group categorize send all_logs pre to with
      | Done a =>
          res_map (applied_app a)
                  (apply_to_group categorize send all_logs rest (block_number_to a))
      | Panicked a =>
          Panicked {| block_number_to := block_number_to a;
                      applied_workers := applied_workers a ++ rest;
                      applied_pushes := applied_pushes a |}
      end.
Proof.
  induction pre as [|w pre IH]; intros to; simpl.
  - destruct (apply_to_group categorize send all_logs rest to) as [[? ? ?]|[? ? ?]];
      reflexivity.
  - destruct (Nat.eqb _ 0).
    + rewrite IH.
      destruct (apply_to_group categorize send all_logs pre to) as [a|a]; simpl;
        [|reflexivity].
      destruct (apply_to_group categorize send all_logs rest (block_number_to a));
        reflexivity.
    + destruct (categorize w _) as [w' reached].
      destruct (send _); [|reflexivity].
      rewrite IH.
      destruct (apply_to_group categorize send all_logs pre reached) as [a|a]; simpl;
        [|reflexivity].
      destruct (apply_to_group categorize send all_logs rest (block_number_to a));
        reflexivity.
Qed.

Lemma apply_to_group_undelivered categorize send all_logs w post to :
  has_logs all_logs w = true ->
  send (push_of (fst (categorize w (FilterByAddress all_logs (Address (smartcontract w)))))
                (FilterByAddress all_logs (Address (smartcontract w)))) = false ->
  apply_to_group categorize send all_logs (w :: post) to
  = Panicked
      {| block_number_to :=
           snd (categorize w (FilterByAddress all_logs (Address (smartcontract w))));
         applied_workers :=
           fst (categorize w (FilterByAddress all_logs (Address (smartcontract w))))
           :: post;
         applied_pushes := [] |}.
Proof.
  unfold has_logs, push_of. intros Hlogs Hsend. simpl.
  apply negb_true_iff in Hlogs. rewrite Hlogs.
  destruct (categorize w _) as [w' reached]. simpl in Hsend. now rewrite Hsend.
Qed.

(** The loop over the live workers, cut in two. *)
Lemma consume_block_app categorize send block pre rest :
  consume_block categorize send block (pre ++ rest)
  = match consume_block categorize send block pre with
    | Done c => res_map (consumed_app c) (consume_block categorize send block rest)
    | Panicked c =>
        Panicked {| consumed_workers := consumed_workers c ++ rest;
                    consumed_pushes := consumed_pushes c |}
    end.
Proof.
  induction pre as [|w pre IH]; simpl.
  - destruct (consume_block categorize send block rest) as [[? ?]|[? ?]]; reflexivity.
  - destruct (_ <=? _).
    + rewrite IH.
      destruct (consume_block categorize send block pre) as [c|c]; simpl; [|reflexivity].
      destruct (consume_block categorize send block rest); reflexivity.
    + destruct (categorize w _) as [w' reached].
      destruct (send _); [|reflexivity].
      rewrite IH.
      destruct (consume_block categorize send block pre) as [c|c]; simpl; [|reflexivity].
      destruct (consume_block categorize send block rest); reflexivity.
Qed.

Lemma consume_block_undelivered categorize send block w post :
  skipped block w = false ->
  send (push_of (fst (categorize w (GetForSmartcontract block (Address (smartcontract w)))))
                (GetForSmartcontract block (Address (smartcontract w)))) = false ->
  consume_block categorize send block (w :: post)
  = Panicked
      {| consumed_workers :=
           fst (categorize w (GetForSmartcontract block (Address (smartcontract w))))
           :: post;
         consumed_pushes := [] |}.
Proof.
  unfold skipped, push_of. intros Hskip Hsend. simpl. rewrite Hskip.
  destruct (categorize w _) as [w' reached]. simpl in Hsend. now rewrite Hsend.
Qed.

(** C8, as the code has it: a result that the push socket fails to deliver
    makes the task panic, in the catch-up engine and in the live dispatcher
    alike.  At that point the publishing worker already carries its
    advanced watermark; the workers after it are not visited, the failed
    message is not among the delivered ones and the cursor of the group is
    left as it was. *)
Theorem publish_failure_panics categorize (env : Env) (m : Manager) (g : OldWorkerGroup)
    (block : Block) (all_logs : list Log) (pre post : EvmWorkers) (w : EvmWorker) :
  SendMessage env (push_of (fst (categorize w (FilterByAddress all_logs
                                                 (Address (smartcontract w)))))
                           (FilterByAddress all_logs (Address (smartcontract w)))) = false ->
  SendMessage env (push_of (fst (categorize w (GetForSmartcontract block
                                                 (Address (smartcontract w)))))
                           (GetForSmartcontract block (Address (smartcontract w)))) = false ->
  (forall a,
     RemoteLogFilter env (fst (fetch_request m g)) (snd (fetch_request m g)) = Some all_logs ->
     workers g = pre ++ w :: post ->
     apply_to_group categorize (SendMessage env) all_logs pre
                    (add_uint64 (block_number g) 1) = Done a ->
     has_logs all_logs w = true ->
     let g1 := with_workers g
                 (applied_workers a
                  ++ fst (categorize w (FilterByAddress all_logs (Address (smartcontract w))))
                  :: post) in
     round categorize env m g = Crashed (commit m g1 (applied_pushes a)) g1
     /\ block_number g1 = block_number g)
  /\ (forall c,
        consume_block categorize (SendMessage env) block pre = Done c ->
        skipped block w = false ->
        consume_block categorize (SendMessage env) block (pre ++ w :: post)
        = Panicked
            {| consumed_workers :=
                 consumed_workers c
                 ++ fst (categorize w (GetForSmartcontract block (Address (smartcontract w))))
                 :: post;
               consumed_pushes := consumed_pushes c |}).
Proof.
  intros Hold Hlive. split.
  - intros a Hfetch Hws Hpre Hlogs g1. split; [|reflexivity].
    rewrite (round_fetched _ _ _ _ _ Hfetch), Hws, apply_to_group_app, Hpre.
    rewrite (apply_to_group_undelivered _ _ _ _ _ _ Hlogs Hold). simpl.
    unfold g1, applied_app; simpl. now rewrite !app_nil_r.
  - intros c Hpre Hskip.
    rewrite consume_block_app, Hpre.
    rewrite (consume_block_undelivered _ _ _ _ _ Hskip Hlive). simpl.
    unfold consumed_app; simpl. now rewrite app_nil_r.
Qed.

Lemma publish_failure_panics_witness :
  let g := NewGroup 0 100 [worker_at "a" 100; worker_at "b" 100] in
  let m := manager_at 150 [g] [] in
  let fetched := [log_at "a" 120; log_at "b" 130] in
  let block := NewBlock "1" 151 1700000000 [log_at "a" 151] in
  round categorize_watermark (undelivered fetched) m g
  = Crashed (manager_at 150 [NewGroup 0 100 [worker_at "a" 120; worker_at "b" 100]] [])
            (NewGroup 0 100 [worker_at "a" 120; worker_at "b" 100])
  /\ consume_block categorize_watermark (fun _ => false) block
                   [worker_at "a" 100; worker_at "b" 100]
     = Panicked {| consumed_workers := [worker_at "a" 151; worker_at "b" 100];
                   consumed_pushes := [] |}.
Proof.
  intros g m fetched block.
  destruct (publish_failure_panics categorize_watermark (undelivered fetched) m g block
              fetched [] [worker_at "b" 100] (worker_at "a" 100) eq_refl eq_refl)
    as [Hold Hlive].
  split.
  - exact (proj1 (Hold _ eq_refl eq_refl eq_refl eq_refl)).
  - exact (Hlive _ eq_refl eq_refl).
Defined.

(** C8 as stated fails: when the push socket does not deliver, the engine
    of the group and the live dispatcher both end in a panic, and the
    worker that follows the publishing one is never visited. *)
Lemma publish_failure_counterexample :
  let g := NewGroup 0 100 [worker_at "a" 100; worker_at "b" 100] in
  let m := manager_at 150 [g] [worker_at "a" 100; worker_at "b" 100] in
  let fetched := [log_at "a" 120; log_at "b" 130] in
  let block := NewBlock "1" 151 1700000000 [log_at "a" 151; log_at "b" 151] in
  is_crashed (round categorize_watermark (undelivered fetched) m g) = true
  /\ workers (engine_group (round categorize_watermark (undelivered fetched) m g))
     = [worker_at "a" 120; worker_at "b" 100]
  /\ is_done (dispatch categorize_watermark (fun _ => false)
                (set_subscribed_blocks m [block])) = false
  /\ current_workers (res_state (dispatch categorize_watermark (fun _ => false)
                                   (set_subscribed_blocks m [block])))
     = [worker_at "a" 151; worker_at "b" 100].
Proof.
  repeat split.
Qed.

End CategorizerProperties.

(** * Properties of the wire messages *)

Module MessageProperties.

Import Message.

Local Open Scope nat_scope.
Local Open Scope string_scope.

(** ** The text of a key-value *)

Lemma print_json_array x r k :
  print_json (JArray (x :: r)) k = String "[" (print_json x (print_elems_tail r k)).
Proof.
  simpl. do 2 f_equal. induction r as [|y r IH]; simpl; [reflexivity|].
  now rewrite IH.
Qed.

Lemma print_json_object key x r k :
  print_json (JObject ((key, x) :: r)) k
  = String "{" (print_string key (String ":" (print_json x (print_members_tail r k)))).
Proof.
  simpl. do 4 f_equal. induction r as [|[key' y] r IH]; simpl; [reflexivity|].
  now rewrite IH.
Qed.

(** ** Reading back what was written *)

Lemma length_app (a b : string) :
  String.length (a ++ b) = String.length a + String.length b.
Proof.
  induction a as [|c a IH]; simpl; [reflexivity|]. now rewrite IH.
Qed.

Lemma parse_chars_print (s k : string) :
  parse_chars (print_chars s (String dquote k)) = Some (s, k).
Proof.
  induction s as [|c s IH]; [reflexivity|].
  cbn [print_chars]. destruct (needs_escape c) eqn:Hesc.
  - cbn [parse_chars].
    change (Ascii.eqb backslash dquote) with false.
    change (Ascii.eqb backslash backslash) with true.
    cbv iota. now rewrite Hesc, IH.
  - cbn [parse_chars]. unfold needs_escape in Hesc.
    apply orb_false_iff in Hesc as [Hq Hb]. now rewrite Hq, Hb, IH.
Qed.

Lemma span_digits_uint (u : Decimal.uint) (k : string) :
  head_not_digit k ->
  span_digits (NilEmpty.string_of_uint u ++ k) = (NilEmpty.string_of_uint u, k).
Proof.
  intros Hk. induction u as [|u IH|u IH|u IH|u IH|u IH|u IH|u IH|u IH|u IH|u IH];
    cbn [NilEmpty.string_of_uint append span_digits];
    try (change (is_digit _) with true; cbv iota; now rewrite IH).
  destruct k as [|c k]; [reflexivity|]. cbn [span_digits].
  simpl in Hk. now rewrite Hk.
Qed.

Lemma to_uint_nonnil (n : N) : N.to_uint n <> Decimal.Nil.
Proof.
  destruct n as [|p]; [discriminate|]. apply DecimalPos.Unsigned.to_uint_nonnil.
Qed.

Lemma string_of_uint_head (u : Decimal.uint) :
  u <> Decimal.Nil ->
  exists c r, NilEmpty.string_of_uint u = String c r /\ is_digit c = true.
Proof.
  intros Hu. destruct u; [contradiction| ..]; do 2 eexists; split; reflexivity.
Qed.

Lemma print_number_head (n : N) (k : string) :
  exists c r, print_number n k = String c r /\ is_digit c = true.
Proof.
  destruct (string_of_uint_head (N.to_uint n) (to_uint_nonnil n)) as (c & r & Hs & Hc).
  exists c, (r ++ k). unfold print_number. now rewrite Hs.
Qed.

Lemma parse_number_print (n : N) (k : string) :
  head_not_digit k ->
  parse_number (print_number n k) = Some (JNumber n, k).
Proof.
  intros Hk. unfold parse_number, print_number.
  rewrite span_digits_uint by exact Hk.
  destruct (string_of_uint_head (N.to_uint n) (to_uint_nonnil n)) as (c & r & Hs & _).
  rewrite NilEmpty.usu. rewrite Hs.
  now rewrite DecimalN.Unsigned.of_to.
Qed.

Lemma print_json_head (v : json) (k : string) :
  exists c r, print_json v k = String c r /\ opens v c.
Proof.
  destruct v as [|[|]|n|s|[|x l]|[|[key x] l]];
    try (eexists; eexists; split; [reflexivity|constructor]).
  destruct (print_number_head n k) as (c & r & Hs & Hc).
  exists c, r. split; [exact Hs|now constructor].
Qed.

Lemma need_array l : need (JArray l) = S (need_elems l).
Proof.
  reflexivity.
Qed.

Lemma need_object l : need (JObject l) = S (need_members l).
Proof.
  reflexivity.
Qed.

Lemma digit_neq (c d : ascii) :
  is_digit c = true -> is_digit d = false ->
  Ascii.eqb c d = false /\ Ascii.eqb d c = false.
Proof.
  intros Hc Hd.
  destruct (Ascii.eqb_spec c d) as [->|]; [congruence|].
  destruct (Ascii.eqb_spec d c) as [->|]; [congruence|]. now split.
Qed.

Lemma elems_tail_head (r : list json) (k : string) :
  head_not_digit (print_elems_tail r k).
Proof. destruct r; reflexivity. Qed.

Lemma members_tail_head (r : list (string * json)) (k : string) :
  head_not_digit (print_members_tail r k).
Proof. destruct r as [|[key y] r]; reflexivity. Qed.

Lemma strip_bracket_value (x : json) (k : string) :
  strip "]" (print_json x k) = None.
Proof.
  destruct (print_json_head x k) as (c & r & -> & Hc).
  destruct Hc as [| | |n c Hd| | |]; try reflexivity.
  cbn [strip]. now rewrite (proj2 (digit_neq c "]" Hd eq_refl)).
Qed.

Lemma reads_back_elems (r : list json) :
  Forall reads_back r ->
  forall x fuel k,
    reads_back x ->
    need_elems (x :: r) <= fuel -> head_not_digit k ->
    parse_elems fuel (print_json x (print_elems_tail r k)) = Some (x :: r, k).
Proof.
  intros Hr. induction Hr as [|y r Hy Hr IH]; intros x fuel k Hx Hfuel Hk;
    (destruct fuel as [|fuel]; [simpl in Hfuel; lia|]);
    cbn [need_elems] in Hfuel; cbn [parse_elems].
  - rewrite Hx by (simpl; lia || reflexivity). reflexivity.
  - rewrite Hx by (try apply (elems_tail_head (y :: r)); lia).
    cbn [print_elems_tail]. change (Ascii.eqb "," ",") with true. cbv iota.
    rewrite IH by (assumption || (cbn [need_elems]; lia)). reflexivity.
Qed.

Lemma reads_back_members (r : list (string * json)) :
  Forall (fun kv => reads_back (snd kv)) r ->
  forall key x fuel k,
    reads_back x ->
    need_members ((key, x) :: r) <= fuel -> head_not_digit k ->
    parse_members fuel
      (print_string key (String ":" (print_json x (print_members_tail r k))))
    = Some ((key, x) :: r, k).
Proof.
  intros Hr. induction Hr as [|[key' y] r Hy Hr IH]; intros key x fuel k Hx Hfuel Hk;
    (destruct fuel as [|fuel]; [simpl in Hfuel; lia|]);
    cbn [need_members] in Hfuel; cbn [parse_members]; unfold print_string;
    change (strip (String dquote "") (String dquote ?s)) with (Some s);
    cbv iota; rewrite parse_chars_print;
    change (Ascii.eqb ":" ":") with true; cbv iota.
  - rewrite Hx by (simpl; lia || reflexivity). reflexivity.
  - rewrite Hx by (try apply (members_tail_head ((key', y) :: r)); lia).
    cbn [print_members_tail]. change (Ascii.eqb "," ",") with true. cbv iota.
    fold (print_string key' (String ":" (print_json y (print_members_tail r k)))).
    rewrite IH by (assumption || (cbn [need_members]; lia)). reflexivity.
Qed.

(** Every value is read back from its text, whatever follows the text (as
    long as a number is not followed by a digit). *)
Lemma parse_print_json (v : json) : reads_back v.
Proof.
  induction v as [|b|n|s|l IH|members IH] using json_nested_ind;
    intros fuel k Hfuel Hk;
    (destruct fuel as [|fuel]; [simpl in Hfuel; lia|]).
  - reflexivity.
  - destruct b; reflexivity.
  - destruct (print_number_head n k) as (c & r & Hs & Hc).
    cbn [print_json]. rewrite Hs. cbn [parse_json].
    rewrite (proj1 (digit_neq c dquote Hc eq_refl)).
    rewrite (proj1 (digit_neq c "[" Hc eq_refl)).
    rewrite (proj1 (digit_neq c "{" Hc eq_refl)).
    rewrite Hc, <- Hs. now apply parse_number_print.
  - cbn [print_json parse_json]. unfold print_string.
    change (Ascii.eqb dquote dquote) with true. cbv iota.
    now rewrite parse_chars_print.
  - destruct l as [|x r]; [reflexivity|].
    rewrite print_json_array. cbn [parse_json].
    change (Ascii.eqb "[" dquote) with false.
    change (Ascii.eqb "[" "[") with true. cbv iota.
    rewrite strip_bracket_value.
    rewrite need_array in Hfuel.
    rewrite (reads_back_elems r) by
      (assumption || (now inversion IH) || lia).
    reflexivity.
  - destruct members as [|[key x] r]; [reflexivity|].
    rewrite print_json_object. cbn [parse_json].
    change (Ascii.eqb "{" dquote) with false.
    change (Ascii.eqb "{" "[") with false.
    change (Ascii.eqb "{" "{") with true. cbv iota.
    change (strip "}" (print_string key ?s)) with (@None string). cbv iota.
    rewrite need_object in Hfuel.
    rewrite (reads_back_members r) by
      (assumption || (now inversion IH) || lia).
    reflexivity.
Qed.

(** The text of a value is at least as long as the fuel its reading
    needs. *)
Lemma need_le_length (v : json) :
  forall k, need v + String.length k <= String.length (print_json v k).
Proof.
  induction v as [|b|n|s|l IH|members IH] using json_nested_ind; intros k.
  - simpl. lia.
  - destruct b; simpl; lia.
  - pose proof (to_uint_nonnil n) as Hn.
    cbn [print_json need]. unfold print_number. rewrite length_app.
    destruct (N.to_uint n); [contradiction| ..]; simpl; lia.
  - simpl. assert (H : forall s k, String.length k <= String.length (print_chars s k)).
    { clear. induction s as [|c s IH]; intros k; simpl; [lia|].
      specialize (IH k). destruct (needs_escape c); simpl; lia. }
    specialize (H s (String dquote k)). simpl in H. lia.
  - destruct l as [|x r]; [simpl; lia|].
    rewrite print_json_array, need_array. cbn [need_elems String.length].
    assert (H : forall k, need_elems r + S (String.length k)
                          <= String.length (print_elems_tail r k)).
    { inversion IH as [|? ? _ Hr]; subst. clear IH.
      induction Hr as [|y r Hy Hr IHr]; intros k'; simpl; [lia|].
      specialize (Hy (print_elems_tail r k')). specialize (IHr k'). lia. }
    inversion IH as [|? ? Hx _]; subst.
    specialize (Hx (print_elems_tail r k)). specialize (H k). lia.
  - destruct members as [|[key x] r]; [simpl; lia|].
    rewrite print_json_object, need_object. cbn [need_members String.length].
    assert (Hs : forall s k, String.length k <= String.length (print_string s k)).
    { clear. intros s k. unfold print_string. simpl.
      assert (H : forall s k, String.length k <= String.length (print_chars s k)).
      { induction s0 as [|c s0 IH]; intros k0; simpl; [lia|].
        specialize (IH k0). destruct (needs_escape c); simpl; lia. }
      specialize (H s (String dquote k)). simpl in H. lia. }
    assert (H : forall k, need_members r + S (String.length k)
                          <= String.length (print_members_tail r k)).
    { inversion IH as [|? ? _ Hr]; subst. clear IH.
      induction Hr as [|[key' y] r Hy Hr IHr]; intros k'; simpl; [lia|].
      simpl in Hy. specialize (Hy (print_members_tail r k')). specialize (IHr k').
      pose proof (Hs key' (String ":" (print_json y (print_members_tail r k')))) as Hk.
      simpl in Hk. lia. }
    inversion IH as [|? ? Hx _]; subst. simpl in Hx.
    specialize (Hx (print_members_tail r k)). specialize (H k).
    pose proof (Hs key (String ":" (print_json x (print_members_tail r k)))) as Hk.
    simpl in Hk. unfold print_string. simpl. lia.
Qed.

(** ** Round trips *)

Lemma NewFromString_print (kv : KeyValue) :
  NewFromString (print_json (JObject kv) EmptyString) = Ok kv.
Proof.
  unfold NewFromString.
  rewrite (parse_print_json (JObject kv)); [reflexivity| |exact I].
  pose proof (need_le_length (JObject kv) EmptyString) as H.
  cbn [String.length] in H. now rewrite Nat.add_0_r in H.
Qed.

Lemma ToInterface_reply_members (r : Reply) :
  ToInterface (reply_members r) = Ok r.
Proof. destruct r; reflexivity. Qed.

Lemma wire_shaped_valid (r : Reply) :
  wire_shaped r -> valid_fail r = Ok tt /\ valid_status r = Ok tt.
Proof.
  unfold valid_fail, valid_status.
  intros [H|[H Hm]]; rewrite H; simpl; [now split|].
  destruct (Message r); [contradiction|now split].
Qed.

Lemma Reply_ToBytes_wire_shaped (r : Reply) :
  wire_shaped r ->
  Reply_ToBytes r = Ok (print_json (JObject (reply_members r)) EmptyString).
Proof.
  intros H. destruct (wire_shaped_valid r H) as [Hf Hs].
  unfold Reply_ToBytes. now rewrite Hf, Hs.
Qed.

Lemma ParseJsonReply_reply_members (r : Reply) :
  wire_shaped r -> ParseJsonReply (reply_members r) = Ok r.
Proof.
  intros H. unfold ParseJsonReply.
  rewrite ToInterface_reply_members. simpl.
  now rewrite (Reply_ToBytes_wire_shaped r H).
Qed.

Lemma prefix_brace (c : ascii) (s : string) :
  prefix "{" (String c s) = Ascii.eqb c "{".
Proof.
  destruct (Ascii.eqb_spec c "{") as [->|Hc].
  - apply prefix_correct. destruct s; reflexivity.
  - destruct (prefix "{" (String c s)) eqn:Hp; [|reflexivity].
    apply prefix_correct in Hp. exfalso. apply Hc.
    destruct s; simpl in Hp; now injection Hp.
Qed.

(** [strings.Index(msg, "{")], one character at a time. *)
Lemma index_brace_cons (c : ascii) (s : string) :
  index 0 "{" (String c s)
  = if Ascii.eqb c "{" then Some 0 else option_map S (index 0 "{" s).
Proof.
  cbn [index]. rewrite prefix_brace.
  destruct (Ascii.eqb c "{"); [reflexivity|].
  now destruct (index 0 "{" s).
Qed.

Lemma substring_all (s : string) : substring 0 (String.length s) s = s.
Proof.
  induction s as [|c s IH]; simpl; [reflexivity|]. now rewrite IH.
Qed.

(** C9: a Reply that satisfies the wire-shape constraints is encoded, and
    decoding the text gives the same status, message and parameters; the
    bytes of a Broadcast built from such a Reply parse to the same topic
    and reply. *)
Theorem reply_broadcast_round_trip (r : Reply) (topic : string) :
  wire_shaped r ->
  (exists wire, Reply_ToString r = Ok wire /\ ParseReply [wire] = Ok r)
  /\ ParseBroadcast [Broadcast_ToBytes (NewBroadcast topic r)]
     = Ok (NewBroadcast topic r).
Proof.
  intros H. split.
  - exists (print_json (JObject (reply_members r)) EmptyString). split.
    + unfold Reply_ToString. now rewrite (Reply_ToBytes_wire_shaped r H).
    + unfold ParseReply, ToString. cbn [String.concat].
      rewrite NewFromString_print. cbn [wrap bind].
      now rewrite (ParseJsonReply_reply_members r H).
  - unfold ParseBroadcast, ToString, Broadcast_ToBytes. cbn [String.concat].
    cbn [broadcast_interface ToBytes NewBroadcast BroadcastReply Topic].
    set (kv := [("reply", JObject (reply_members r)); ("topic", JString topic)]).
    assert (Hopen : exists body, print_json (JObject kv) EmptyString = String "{" body)
      by (eexists; reflexivity).
    destruct Hopen as [body Hbody].
    assert (Hindex : index 0 "{" (print_json (JObject kv) EmptyString) = Some 0)
      by (rewrite Hbody; apply index_brace_cons).
    rewrite Hindex. cbv zeta. rewrite Nat.sub_0_r, substring_all.
    rewrite NewFromString_print. cbn [wrap bind].
    change (GetString kv "topic") with (@Ok string topic).
    change (GetKeyValue kv "reply") with (@Ok KeyValue (reply_members r)).
    cbn [wrap bind].
    now rewrite (ParseJsonReply_reply_members r H).
Qed.

Lemma reply_broadcast_round_trip_witness :
  (exists wire, Reply_ToString block_reply = Ok wire /\ ParseReply [wire] = Ok block_reply)
  /\ ParseBroadcast [Broadcast_ToBytes (NewBroadcast "1 " block_reply)]
     = Ok (NewBroadcast "1 " block_reply).
Proof.
  apply (reply_broadcast_round_trip block_reply "1 "). left. reflexivity.
Defined.

(** ** ParseBroadcast and the text before the first brace *)

Lemma ParseBroadcast_parse_body (msgs : list string) :
  ParseBroadcast msgs
  = match index 0 "{" (ToString msgs) with
    | None => Err (ErrNoDistinction (ToString msgs))
    | Some i => parse_body (from_index i (ToString msgs))
    end.
Proof. reflexivity. Qed.

Lemma index_brace_none_cons (c : ascii) (p : string) :
  index 0 "{" (String c p) = None ->
  Ascii.eqb c "{" = false /\ index 0 "{" p = None.
Proof.
  rewrite index_brace_cons. destruct (Ascii.eqb c "{"); [discriminate|].
  destruct (index 0 "{" p); [discriminate|now split].
Qed.

Lemma index_brace_app (p body : string) :
  index 0 "{" p = None ->
  index 0 "{" (p ++ String "{" body) = Some (String.length p).
Proof.
  induction p as [|c p IH]; intros Hp.
  - apply index_brace_cons.
  - apply index_brace_none_cons in Hp as [Hc Hp].
    cbn [append String.length]. rewrite index_brace_cons, Hc, (IH Hp). reflexivity.
Qed.

Lemma from_index_app (p s : string) :
  from_index (String.length p) (p ++ s) = s.
Proof.
  unfold from_index. induction p as [|c p IH].
  - cbn [append String.length]. rewrite Nat.sub_0_r. apply substring_all.
  - exact IH.
Qed.

(** A message with a brace splits at its first brace. *)
Lemma index_brace_split (msg : string) (i : nat) :
  index 0 "{" msg = Some i ->
  exists p body,
    msg = p ++ String "{" body /\ index 0 "{" p = None /\ String.length p = i.
Proof.
  revert i; induction msg as [|c msg IH]; intros i H; [discriminate|].
  rewrite index_brace_cons in H.
  destruct (Ascii.eqb_spec c "{") as [->|Hc].
  - injection H as <-. exists EmptyString, msg. repeat split.
  - destruct (index 0 "{" msg) as [j|] eqn:Hj; [|discriminate].
    injection H as <-. destruct (IH j eq_refl) as (p & body & -> & Hp & Hlen).
    exists (String c p), body. repeat split.
    + rewrite index_brace_cons, Hp.
      destruct (Ascii.eqb_spec c "{"); [contradiction|reflexivity].
    + simpl. now rewrite Hlen.
Qed.

Lemma GetString_ok (kv : KeyValue) (name s : string) :
  GetString kv name = Ok s <-> lookup kv name = Some (JString s).
Proof.
  unfold GetString.
  destruct (lookup kv name) as [[| | | | |]|]; split; intros H;
    try discriminate; congruence.
Qed.

Lemma GetKeyValue_ok (kv : KeyValue) (name : string) (members : KeyValue) :
  GetKeyValue kv name = Ok members <-> lookup kv name = Some (JObject members).
Proof.
  unfold GetKeyValue.
  destruct (lookup kv name) as [[| | | | |]|]; split; intros H;
    try discriminate; injection H as ->; reflexivity.
Qed.

Lemma field_string_member (kv : KeyValue) (name s : string) :
  field_string kv name = Ok s <-> string_member kv name s.
Proof.
  unfold field_string, string_member.
  destruct (lookup kv name) as [[| | | | |]|]; split; intros H;
    try discriminate; try contradiction; congruence.
Qed.

Lemma field_key_value_member (kv : KeyValue) (name : string) (members : KeyValue) :
  field_key_value kv name = Ok members <-> object_member kv name members.
Proof.
  unfold field_key_value, object_member.
  destruct (lookup kv name) as [[| | | | |]|]; split; intros H;
    try discriminate; try contradiction;
    try (injection H as ->; reflexivity); now rewrite H.
Qed.

(** The decoder of a Reply fills each field from the member of its name. *)
Lemma ToInterface_members (dat : KeyValue) (reply : Reply) :
  ToInterface dat = Ok reply <->
  string_member dat "status" (Status reply)
  /\ string_member dat "message" (Message reply)
  /\ object_member dat "parameters" (Parameters reply).
Proof.
  rewrite <- !field_string_member, <- field_key_value_member.
  unfold ToInterface. split.
  - intros H.
    destruct (field_string dat "status") as [status|e]; [|discriminate].
    cbn [bind] in H.
    destruct (field_string dat "message") as [message|e]; [|discriminate].
    cbn [bind] in H.
    destruct (field_key_value dat "parameters") as [parameters|e]; [|discriminate].
    cbn [bind] in H. injection H as <-. now repeat split.
  - intros (-> & -> & ->). now destruct reply.
Qed.

(** What passed the two validations of [Reply.ToBytes] is within the
    wire-shape constraints. *)
Lemma Reply_ToBytes_validated (r : Reply) (bytes : string) :
  Reply_ToBytes r = Ok bytes -> wire_shaped r.
Proof.
  unfold Reply_ToBytes, valid_fail, valid_status, wire_shaped.
  destruct (String.eqb_spec (Status r) FAIL) as [Hf|Hf].
  - destruct (Message r) as [|c rest]; cbn; [discriminate|].
    intros _. right. split; [exact Hf|discriminate].
  - destruct (String.eqb_spec (Status r) OK) as [Ho|Ho]; cbn; [|discriminate].
    intros _. now left.
Qed.

(** [ParseJsonReply] accepts the objects that are reply JSON, and no
    other. *)
Lemma ParseJsonReply_reply_json (members : KeyValue) :
  (exists reply, ParseJsonReply members = Ok reply) <-> reply_json members.
Proof.
  unfold ParseJsonReply, reply_json. split.
  - intros [reply H].
    destruct (ToInterface members) as [r|e] eqn:Hi; [|discriminate].
    cbn [wrap bind] in H.
    destruct (Reply_ToBytes r) as [bytes|e] eqn:Hb; [|discriminate].
    apply ToInterface_members in Hi as (Hs & Hm & Hp).
    exists r. repeat split; try assumption.
    exact (Reply_ToBytes_validated r bytes Hb).
  - intros (reply & Hs & Hm & Hp & Hw).
    assert (Hi : ToInterface members = Ok reply)
      by (apply ToInterface_members; now repeat split).
    rewrite Hi. cbn [wrap bind].
    rewrite (Reply_ToBytes_wire_shaped reply Hw). cbn [wrap bind].
    now exists reply.
Qed.

Lemma parse_body_valid (raw : string) :
  (exists b, parse_body raw = Ok b) <-> valid_broadcast raw.
Proof.
  unfold parse_body, valid_broadcast. split.
  - intros [b H].
    destruct (NewFromString raw) as [dat|e] eqn:Hd; [|discriminate].
    cbn [wrap bind] in H.
    destruct (GetString dat "topic") as [topic|e] eqn:Ht; [|discriminate].
    cbn [wrap bind] in H.
    destruct (GetKeyValue dat "reply") as [raw_reply|e] eqn:Hr; [|discriminate].
    cbn [wrap bind] in H.
    destruct (ParseJsonReply raw_reply) as [reply|e] eqn:Hp; [|discriminate].
    exists dat, topic, raw_reply.
    split; [reflexivity|].
    split; [now apply GetString_ok|].
    split; [now apply GetKeyValue_ok|].
    apply ParseJsonReply_reply_json. now exists reply.
  - intros (dat & topic & members & -> & Ht & Hr & Hj).
    apply GetString_ok in Ht. apply GetKeyValue_ok in Hr.
    apply ParseJsonReply_reply_json in Hj as [reply Hp].
    cbn [wrap bind]. rewrite Ht. cbn [wrap bind]. rewrite Hr. cbn [wrap bind].
    rewrite Hp. eexists; reflexivity.
Qed.

Lemma parse_body_topic (raw : string) (b : Broadcast) :
  parse_body raw = Ok b ->
  exists dat, NewFromString raw = Ok dat /\ GetString dat "topic" = Ok (Topic b).
Proof.
  unfold parse_body. intros H.
  destruct (NewFromString raw) as [dat|e] eqn:Hd; [|discriminate].
  cbn [wrap bind] in H.
  destruct (GetString dat "topic") as [topic|e] eqn:Ht; [|discriminate].
  cbn [wrap bind] in H.
  destruct (GetKeyValue dat "reply") as [raw_reply|e]; [|discriminate].
  cbn [wrap bind] in H.
  destruct (ParseJsonReply raw_reply) as [reply|e]; [|discriminate].
  injection H as <-. now exists dat.
Qed.



End MessageProperties.

(** * More properties of the manager *)

Module CategorizerViewsProperties.

Import Categorizer CategorizerViews CategorizerProperties.

(** ** Workers are neither lost nor duplicated *)

Lemma res_state_map {A B : Type} (f : A -> B) (r : Res A) :
  res_state (res_map f r) = f (res_state r).
Proof. now destruct r. Qed.

Lemma apply_to_group_addresses categorize send all_logs ws :
  keeps_address categorize ->
  forall to,
    workers_addresses (applied_workers
                         (res_state (apply_to_group categorize send all_logs ws to)))
    = workers_addresses ws.
Proof.
  intros Hkeep. induction ws as [|w ws IH]; intros to; [reflexivity|].
  cbn [apply_to_group].
  destruct (Nat.eqb _ 0).
  - rewrite res_state_map. simpl. now rewrite IH.
  - pose proof (Hkeep w (FilterByAddress all_logs (Address (smartcontract w)))) as Hw.
    destruct (categorize w _) as [w' reached]. simpl in Hw.
    destruct (send _).
    + rewrite res_state_map. simpl. now rewrite IH, Hw.
    + simpl. now rewrite Hw.
Qed.

Lemma same_identity_same_group (gs : OldWorkerGroups) (g g' : OldWorkerGroup) :
  NoDup (map group_id gs) -> In g gs -> In g' gs ->
  group_id g' = group_id g -> g' = g.
Proof.
  induction gs as [|x gs IH]; intros Hnd Hg Hg' Hid; [contradiction|].
  inversion Hnd as [|? ? Hx Hnd']; subst.
  destruct Hg as [->|Hg], Hg' as [->|Hg']; try reflexivity.
  - exfalso. apply Hx. rewrite <- Hid. now apply in_map.
  - exfalso. apply Hx. rewrite Hid. now apply in_map.
  - now apply IH.
Qed.

Lemma write_group_addresses (gs : OldWorkerGroups) (g g1 : OldWorkerGroup) :
  (forall g', In g' gs -> group_id g' = group_id g -> g' = g) ->
  group_id g1 = group_id g ->
  workers_addresses (workers g1) = workers_addresses (workers g) ->
  flat_map (fun g' => workers_addresses (workers g')) (write_group gs g1)
  = flat_map (fun g' => workers_addresses (workers g')) gs.
Proof.
  intros Hsame Hid Hws. induction gs as [|x gs IH]; [reflexivity|].
  cbn [write_group map flat_map].
  fold (write_group gs g1). rewrite IH by (intros g' Hin; apply Hsame; now right).
  f_equal. rewrite Hid.
  destruct (Nat.eqb_spec (group_id x) (group_id g)) as [Heq|_]; [|reflexivity].
  rewrite (Hsame x (or_introl eq_refl) Heq). exact Hws.
Qed.

Lemma Delete_write_group (gs : OldWorkerGroups) (g g1 : OldWorkerGroup) :
  group_id g1 = group_id g ->
  Delete (write_group gs g1) g1 = Delete gs g.
Proof.
  intros Hid. unfold Delete, write_group. rewrite Hid.
  induction gs as [|x gs IH]; [reflexivity|].
  cbn [map filter]. rewrite IH.
  destruct (Nat.eqb_spec (group_id x) (group_id g)) as [Heq|Hne].
  - rewrite Hid, Nat.eqb_refl. reflexivity.
  - apply Nat.eqb_neq in Hne. now rewrite Hne.
Qed.

Lemma Delete_absent_id (gs : OldWorkerGroups) (g : OldWorkerGroup) :
  ~ In (group_id g) (map group_id gs) -> Delete gs g = gs.
Proof.
  unfold Delete. induction gs as [|x gs IH]; intros Hout; [reflexivity|].
  cbn [filter]. destruct (Nat.eqb_spec (group_id x) (group_id g)) as [Heq|_].
  - exfalso. apply Hout. left. exact Heq.
  - cbn [negb]. f_equal. apply IH. intros Hin. apply Hout. now right.
Qed.

Lemma Delete_addresses (gs : OldWorkerGroups) (g : OldWorkerGroup) :
  NoDup (map group_id gs) -> In g gs ->
  Permutation
    (flat_map (fun g' => workers_addresses (workers g')) gs)
    (workers_addresses (workers g)
     ++ flat_map (fun g' => workers_addresses (workers g')) (Delete gs g)).
Proof.
  induction gs as [|x gs IH]; intros Hnd Hin; [contradiction|].
  inversion Hnd as [|? ? Hx Hnd']; subst.
  destruct Hin as [->|Hin].
  - unfold Delete. cbn [filter flat_map]. rewrite Nat.eqb_refl. cbn [negb].
    fold (Delete gs g). now rewrite (Delete_absent_id gs g Hx).
  - assert (Hne : group_id x <> group_id g).
    { intros Heq. apply Hx. rewrite Heq. now apply in_map. }
    unfold Delete. cbn [filter flat_map]. apply Nat.eqb_neq in Hne. rewrite Hne.
    cbn [negb flat_map]. fold (Delete gs g).
    eapply perm_trans; [apply Permutation_app_head, (IH Hnd' Hin)|].
    apply Permutation_app_swap_app.
Qed.

(** X1: a catch-up round neither loses nor duplicates a worker.  When
    [categorize] keeps the address of a smartcontract and the groups of the
    collection have distinct identities, the addresses the manager holds
    after the round, whatever its outcome (retry, next round, promotion or
    panic), are the addresses it held before, up to their order. *)
Theorem round_keeps_addresses categorize (env : Env) (m : Manager) (g : OldWorkerGroup) :
  keeps_address categorize ->
  NoDup (map group_id (old_categorizers m)) ->
  In g (old_categorizers m) ->
  Permutation (GetSmartcontractAddresses (engine_manager (round categorize env m g)))
              (GetSmartcontractAddresses m).
Proof.
  intros Hkeep Hnd Hin.
  assert (Hsame : forall g', In g' (old_categorizers m) ->
                             group_id g' = group_id g -> g' = g)
    by (intros g' Hg' Hid; now apply (same_identity_same_group (old_categorizers m))).
  destruct (RemoteLogFilter env (fst (fetch_request m g)) (snd (fetch_request m g)))
    as [all_logs|] eqn:Hfetch.
  - rewrite (round_fetched _ _ _ _ _ Hfetch).
    pose proof (apply_to_group_addresses categorize (SendMessage env) all_logs
                  (workers g) Hkeep (add_uint64 (block_number g) 1)) as Haddr.
    destruct (apply_to_group _ _ _ _ _) as [a|a]; cbn [res_state] in Haddr; cbv zeta.
    + destruct (_ >=? _); cbn [engine_manager]; rewrite !GetSmartcontractAddresses_flat.
      * cbn [old_categorizers current_workers set_old_categorizers add_current_workers
               set_current_workers commit set_pusher workers with_block_number
               with_workers].
        rewrite (Delete_write_group (old_categorizers m) g) by reflexivity.
        assert (Happ : workers_addresses (current_workers m ++ applied_workers a)
                       = workers_addresses (current_workers m)
                         ++ workers_addresses (workers g))
          by (rewrite <- Haddr; apply map_app).
        rewrite Happ, app_assoc.
        eapply perm_trans; [apply Permutation_app_comm|].
        rewrite app_assoc.
        apply Permutation_app_tail, Permutation_sym, (Delete_addresses _ g Hnd Hin).
      * cbn [old_categorizers current_workers commit set_pusher set_old_categorizers].
        rewrite (write_group_addresses (old_categorizers m) g);
        [reflexivity|exact Hsame|reflexivity|exact Haddr].
    + cbn [engine_manager]. rewrite !GetSmartcontractAddresses_flat.
      cbn [old_categorizers current_workers commit set_pusher set_old_categorizers].
      rewrite (write_group_addresses (old_categorizers m) g);
        [reflexivity|exact Hsame|reflexivity|exact Haddr].
  - unfold round. cbn [fetch_request fst snd] in Hfetch |- *. rewrite Hfetch. reflexivity.
Qed.

Lemma categorize_watermark_keeps_address : keeps_address categorize_watermark.
Proof. intros w logs. reflexivity. Qed.

Lemma round_keeps_addresses_witness :
  let g1 := NewGroup 0 100 [worker_at "a" 100] in
  let g2 := NewGroup 1 120 [worker_at "b" 120] in
  let m := manager_at 150 [g1; g2] [worker_at "c" 150] in
  Permutation
    (GetSmartcontractAddresses
       (engine_manager (round categorize_watermark (answering [log_at "a" 160]) m g1)))
    ["a"; "b"; "c"]%string.
Proof.
  intros g1 g2 m.
  apply (round_keeps_addresses categorize_watermark (answering [log_at "a" 160]) m g1).
  - exact categorize_watermark_keeps_address.
  - repeat constructor; simpl; intuition discriminate.
  - left. reflexivity.
Defined.

(** ** A log source that cannot be reached *)

(** X2: while the historical log source has no answer to the request of
    the group, the engine goes round without changing the manager or the
    group: the cursor does not move, nothing is published, no worker is
    promoted, and the engine neither stops nor panics. *)
Theorem unreachable_source_stalls categorize (envs : list Env) (m : Manager)
    (g : OldWorkerGroup) :
  Forall (unreachable m g) envs ->
  run categorize envs (Running m g) = Running m g
  /\ promotions categorize envs (Running m g) = 0%nat.
Proof.
  intros H. induction H as [|env envs Henv _ IH]; [now split|].
  assert (Hround : round categorize env m g = Running m g).
  { unfold round. unfold unreachable in Henv.
    cbn [fetch_request fst snd] in Henv |- *. now rewrite Henv. }
  unfold run in *. cbn [fold_left promotions step]. rewrite Hround.
  cbn [is_running is_finished andb]. now destruct IH as [-> ->].
Qed.

Lemma unreachable_source_stalls_witness :
  let g := NewGroup 0 100 [worker_at "a" 100] in
  let m := manager_at 150 [g] [] in
  let down := {| RemoteLogFilter := fun _ _ => None; SendMessage := fun _ => true |} in
  run categorize_watermark [down; down; down] (Running m g) = Running m g
  /\ promotions categorize_watermark [down; down; down] (Running m g) = 0%nat.
Proof.
  intros g m down.
  apply (unreachable_source_stalls categorize_watermark [down; down; down] m g).
  repeat constructor.
Defined.

(** ** What a catch-up round leaves alone *)

Lemma write_group_others (gs : OldWorkerGroups) (g1 g0 : OldWorkerGroup) :
  group_id g0 <> group_id g1 ->
  In g0 (write_group gs g1) <-> In g0 gs.
Proof.
  intros Hne. unfold write_group. induction gs as [|x gs IH]; [reflexivity|].
  cbn [map In]. rewrite IH.
  destruct (Nat.eqb_spec (group_id x) (group_id g1)) as [Heq|_]; [|reflexivity].
  split; intros [H|H]; try (now right); exfalso; subst; congruence.
Qed.

Lemma Delete_others (gs : OldWorkerGroups) (g1 g0 : OldWorkerGroup) :
  group_id g0 <> group_id g1 ->
  In g0 (Delete gs g1) <-> In g0 gs.
Proof.
  intros Hne. unfold Delete. rewrite filter_In.
  apply Nat.eqb_neq in Hne. rewrite Hne. cbn [negb]. tauto.
Qed.

(** X3: a catch-up round, whatever its outcome, leaves the live baseline,
    the Block Queue and the network of the manager as they were; it only
    appends to the live population and to the published messages; and the
    groups other than its own stay in the collection, untouched. *)
Theorem round_frame categorize (env : Env) (m : Manager) (g : OldWorkerGroup) :
  let m' := engine_manager (round categorize env m g) in
  subscribed_earliest_block_number m' = subscribed_earliest_block_number m
  /\ subscribed_blocks m' = subscribed_blocks m
  /\ Network_Id m' = Network_Id m
  /\ (exists ws, current_workers m' = current_workers m ++ ws)
  /\ (exists ps, pusher m' = pusher m ++ ps)
  /\ (forall g0, group_id g0 <> group_id g ->
                 In g0 (old_categorizers m') <-> In g0 (old_categorizers m)).
Proof.
  assert (Hstay : forall xs : EvmWorkers, exists ws, xs = xs ++ ws)
    by (intros xs; exists []; symmetry; apply app_nil_r).
  assert (Hkept : forall xs : list Push, exists ps, xs = xs ++ ps)
    by (intros xs; exists []; symmetry; apply app_nil_r).
  destruct (RemoteLogFilter env (fst (fetch_request m g)) (snd (fetch_request m g)))
    as [all_logs|] eqn:Hfetch.
  - rewrite (round_fetched _ _ _ _ _ Hfetch).
    destruct (apply_to_group _ _ _ _ _) as [a|a]; cbv zeta;
      [destruct (_ >=? _)| ]; cbn [engine_manager];
      (split; [reflexivity|]); (split; [reflexivity|]); (split; [reflexivity|]).
    + split; [now exists (applied_workers a)|].
      split; [now exists (applied_pushes a)|].
      intros g0 Hne.
      cbn [old_categorizers set_old_categorizers add_current_workers
             set_current_workers commit set_pusher].
      rewrite Delete_others by exact Hne. now apply write_group_others.
    + split; [apply Hstay|]. split; [now exists (applied_pushes a)|].
      intros g0 Hne. cbn [old_categorizers commit set_pusher set_old_categorizers].
      now apply write_group_others.
    + split; [apply Hstay|]. split; [now exists (applied_pushes a)|].
      intros g0 Hne. cbn [old_categorizers commit set_pusher set_old_categorizers].
      now apply write_group_others.
  - unfold round. cbn [fetch_request fst snd] in Hfetch |- *. rewrite Hfetch.
    cbn [engine_manager].
    split; [reflexivity|]. split; [reflexivity|]. split; [reflexivity|].
    split; [apply Hstay|]. split; [apply Hkept|]. intros g0 _. reflexivity.
Qed.

(** ** What the catch-up engine publishes *)

Lemma announces_more categorize all_logs w ws p :
  announces categorize all_logs ws p -> announces categorize all_logs (w :: ws) p.
Proof.
  intros (Hlogs & w0 & Hin & Hp & Hs). split; [exact Hlogs|].
  exists w0. split; [now right|now split].
Qed.

Lemma apply_to_group_announces categorize send all_logs ws :
  forall to,
    Forall (announces categorize all_logs ws)
           (applied_pushes (res_state (apply_to_group categorize send all_logs ws to)))
    /\ (List.length (applied_pushes
                       (res_state (apply_to_group categorize send all_logs ws to)))
        <= List.length ws)%nat.
Proof.
  induction ws as [|w ws IH]; intros to; [split; [constructor|reflexivity]|].
  cbn [apply_to_group].
  destruct (Nat.eqb (List.length (FilterByAddress all_logs (Address (smartcontract w)))) 0)
    eqn:Hlen.
  - rewrite res_state_map. cbn [visited applied_pushes]. destruct (IH to) as [Hall Hle].
    split; [|cbn [List.length]; lia].
    eapply Forall_impl; [|exact Hall]. intros p. apply announces_more.
  - destruct (categorize w _) as [w' reached] eqn:Hcat.
    destruct (send _).
    + rewrite res_state_map. cbn [visited delivered applied_pushes].
      destruct (IH reached) as [Hall Hle].
      split; [|cbn [List.length]; lia].
      constructor.
      * split.
        { cbn [push_logs]. intros Hnil. rewrite Hnil in Hlen. discriminate. }
        exists w. split; [now left|]. split; [reflexivity|].
        cbn [push_logs push_smartcontracts]. now rewrite Hcat.
      * eapply Forall_impl; [|exact Hall]. intros p. apply announces_more.
    + cbn [res_state applied_pushes]. split; [constructor|cbn [List.length]; lia].
Qed.

Lemma published_cons_without categorize all_logs w ws :
  has_logs all_logs w = false ->
  published categorize all_logs (w :: ws) = published categorize all_logs ws.
Proof. intros H. unfold published. cbn [filter]. now rewrite H. Qed.

Lemma published_cons_with categorize all_logs w ws :
  has_logs all_logs w = true ->
  published categorize all_logs (w :: ws)
  = push_of (fst (categorize w (FilterByAddress all_logs (Address (smartcontract w)))))
            (FilterByAddress all_logs (Address (smartcontract w)))
    :: published categorize all_logs ws.
Proof. intros H. unfold published. cbn [filter]. now rewrite H. Qed.

(** The loop over the members delivers the messages of the members it
    went through, and it stops only at a member with logs whose message
    is refused. *)
Lemma apply_to_group_published categorize send all_logs ws :
  forall to,
    match apply_to_group categorize send all_logs ws to with
    | Done a => applied_pushes a = published categorize all_logs ws
    | Panicked a =>
        exists pre w rest,
          ws = pre ++ w :: rest
          /\ applied_pushes a = published categorize all_logs pre
          /\ has_logs all_logs w = true
          /\ send (push_of
                     (fst (categorize w
                             (FilterByAddress all_logs (Address (smartcontract w)))))
                     (FilterByAddress all_logs (Address (smartcontract w)))) = false
    end.
Proof.
  induction ws as [|w ws IH]; intros to; [reflexivity|].
  cbn [apply_to_group].
  destruct (Nat.eqb (List.length (FilterByAddress all_logs (Address (smartcontract w)))) 0)
    eqn:Hlen.
  - assert (Hw : has_logs all_logs w = false) by (unfold has_logs; now rewrite Hlen).
    specialize (IH to).
    destruct (apply_to_group categorize send all_logs ws to) as [a|a];
      cbn [res_map visited applied_pushes].
    + now rewrite (published_cons_without _ _ _ _ Hw).
    + destruct IH as (pre & w0 & rest & -> & Hps & Hw0 & Hsend).
      exists (w :: pre), w0, rest.
      rewrite (published_cons_without _ _ _ _ Hw). now repeat split.
  - assert (Hw : has_logs all_logs w = true) by (unfold has_logs; now rewrite Hlen).
    destruct (categorize w (FilterByAddress all_logs (Address (smartcontract w))))
      as [w' reached] eqn:Hcat.
    destruct (send _) eqn:Hsend.
    + specialize (IH reached).
      destruct (apply_to_group categorize send all_logs ws reached) as [a|a];
        cbn [res_map visited delivered applied_pushes].
      * rewrite (published_cons_with _ _ _ _ Hw), Hcat, IH. reflexivity.
      * destruct IH as (pre & w0 & rest & -> & Hps & Hw0 & Hsend0).
        exists (w :: pre), w0, rest.
        rewrite (published_cons_with _ _ _ _ Hw), Hcat, Hps. now repeat split.
    + exists [], w, ws. rewrite Hcat. now repeat split.
Qed.

(** X4: the messages a catch-up round publishes are exactly one for each
    member with fetched logs among the members it went through, in the
    order of the members, and none for a member without logs: each
    carries that member's logs, at least one, and names the member's
    smartcontract as [categorize] left it.  The round goes through all
    the members, unless it panics: it then stopped at a member with logs
    whose message was refused, and nothing was published for that member
    or the members after it. *)
Theorem round_publishes_members categorize (env : Env) (m : Manager)
    (g : OldWorkerGroup) (all_logs : list Log) :
  RemoteLogFilter env (fst (fetch_request m g)) (snd (fetch_request m g)) = Some all_logs ->
  exists processed rest,
    workers g = processed ++ rest
    /\ pusher (engine_manager (round categorize env m g))
       = pusher m ++ published categorize all_logs processed
    /\ Forall (announces categorize all_logs (workers g))
              (published categorize all_logs processed)
    /\ (is_crashed (round categorize env m g) = false -> rest = [])
    /\ (is_crashed (round categorize env m g) = true ->
        exists w rest',
          rest = w :: rest'
          /\ has_logs all_logs w = true
          /\ SendMessage env
               (push_of
                  (fst (categorize w
                          (FilterByAddress all_logs (Address (smartcontract w)))))
                  (FilterByAddress all_logs (Address (smartcontract w)))) = false).
Proof.
  intros Hfetch. rewrite (round_fetched _ _ _ _ _ Hfetch).
  destruct (apply_to_group_announces categorize (SendMessage env) all_logs (workers g)
              (add_uint64 (block_number g) 1)) as [Hall _].
  pose proof (apply_to_group_published categorize (SendMessage env) all_logs (workers g)
                (add_uint64 (block_number g) 1)) as Hpub.
  destruct (apply_to_group _ _ _ _ _) as [a|a]; cbn [res_state] in Hall; cbv zeta.
  - exists (workers g), []. rewrite app_nil_r, <- Hpub.
    split; [reflexivity|].
    destruct (_ >=? _); cbn [is_crashed]; (split; [reflexivity|]);
      (split; [exact Hall|]); (split; [reflexivity|discriminate]).
  - destruct Hpub as (pre & w & rest & Hws & Hps & Hw & Hsend).
    exists pre, (w :: rest). rewrite <- Hps. cbn [is_crashed].
    split; [exact Hws|]. split; [reflexivity|]. split; [exact Hall|].
    split; [discriminate|]. intros _. now exists w, rest.
Qed.

Lemma round_publishes_members_witness :
  let g := NewGroup 0 100 [worker_at "a" 100; worker_at "b" 100] in
  let m := manager_at 150 [g] [] in
  pusher (engine_manager (round categorize_watermark (answering [log_at "a" 120]) m g))
  = pusher m ++ [push_of (worker_at "a" 120) [log_at "a" 120]].
Proof.
  intros g m.
  destruct (round_publishes_members categorize_watermark (answering [log_at "a" 120]) m g
              [log_at "a" 120] eq_refl)
    as (processed & rest & Hws & Hps & _ & Hdone & _).
  rewrite (Hdone eq_refl), app_nil_r in Hws. rewrite Hps, <- Hws. reflexivity.
Defined.

(** ** The live dispatcher *)

Lemma consume_block_all_skipped categorize send block ws :
  forallb (skipped block) ws = true ->
  consume_block categorize send block ws
  = Done {| consumed_workers := ws; consumed_pushes := [] |}.
Proof.
  induction ws as [|w ws IH]; intros H; [reflexivity|].
  cbn [forallb] in H. apply andb_true_iff in H as [Hw Hws].
  cbn [consume_block]. unfold skipped in Hw. rewrite Hw, (IH Hws). reflexivity.
Qed.

(** X5: a block whose number is at or below the watermark of every live
    worker is consumed without any effect on the workers: the dispatcher
    removes it from the head of the queue and nothing else changes; nothing
    is sent, so that the pass cannot panic even when the push socket is
    down. *)
Theorem stale_block_is_dropped categorize (send : Push -> bool) (m : Manager)
    (block : Block) (queue : list Block) :
  subscribed_blocks m = block :: queue ->
  current_workers m <> [] ->
  forallb (skipped block) (current_workers m) = true ->
  dispatch categorize send m = Done (set_subscribed_blocks m queue).
Proof.
  intros Hq Hlive Hskip. unfold dispatch. rewrite Hq.
  destruct (current_workers m) as [|w ws] eqn:Hws; [contradiction|].
  rewrite (consume_block_all_skipped _ _ _ _ Hskip). cbn [res_map].
  f_equal. destruct m; cbn in *. subst. now rewrite app_nil_r.
Qed.

Lemma stale_block_is_dropped_witness :
  let block := NewBlock "1" 150 1700000000 [log_at "a" 150] in
  let m := set_subscribed_blocks (manager_at 150 [] [worker_at "a" 150]) [block] in
  dispatch categorize_watermark (fun _ => false) m = Done (set_subscribed_blocks m []).
Proof.
  intros block m.
  apply (stale_block_is_dropped categorize_watermark (fun _ => false) m block []);
    [reflexivity|discriminate|reflexivity].
Defined.

Lemma consume_block_addresses categorize send block ws :
  keeps_address categorize ->
  workers_addresses (consumed_workers (res_state (consume_block categorize send block ws)))
  = workers_addresses ws.
Proof.
  intros Hkeep. induction ws as [|w ws IH]; [reflexivity|].
  cbn [consume_block]. destruct (_ <=? _).
  - rewrite res_state_map. simpl. now rewrite IH.
  - pose proof (Hkeep w (GetForSmartcontract block (Address (smartcontract w)))) as Hw.
    destruct (categorize w _) as [w' reached]. simpl in Hw.
    destruct (send _).
    + rewrite res_state_map. simpl. now rewrite IH, Hw.
    + simpl. now rewrite Hw.
Qed.

(** X6: a pass of the live dispatcher, whether it ends or panics, keeps
    the live population as it is, address by address and in order (as long
    as [categorize] keeps addresses); it leaves the groups and the
    baseline alone, takes at most the head of the Block Queue and only adds
    to the published messages. *)
Theorem dispatch_keeps_population categorize (send : Push -> bool) (m : Manager) :
  keeps_address categorize ->
  let m' := res_state (dispatch categorize send m) in
  workers_addresses (current_workers m') = workers_addresses (current_workers m)
  /\ old_categorizers m' = old_categorizers m
  /\ subscribed_earliest_block_number m' = subscribed_earliest_block_number m
  /\ (subscribed_blocks m' = subscribed_blocks m
      \/ exists block, subscribed_blocks m = block :: subscribed_blocks m')
  /\ (exists ps, pusher m' = pusher m ++ ps).
Proof.
  intros Hkeep. unfold dispatch.
  assert (Hkept : exists ps, pusher m = pusher m ++ ps)
    by (exists []; symmetry; apply app_nil_r).
  destruct (current_workers m) as [|w ws] eqn:Hws.
  - cbn [res_state]. rewrite Hws. repeat split; try reflexivity; [now left|exact Hkept].
  - destruct (subscribed_blocks m) as [|block queue] eqn:Hq.
    + cbn [res_state]. rewrite Hws, Hq.
      repeat split; try reflexivity; [now left|exact Hkept].
    + rewrite res_state_map.
      cbn [current_workers old_categorizers subscribed_earliest_block_number
             subscribed_blocks pusher set_pusher set_current_workers
             set_subscribed_blocks].
      split; [now apply consume_block_addresses|].
      split; [reflexivity|]. split; [reflexivity|].
      split; [right; now exists block|]. eexists; reflexivity.
Qed.

Lemma dispatch_keeps_population_witness :
  let block := NewBlock "1" 151 1700000000 [log_at "a" 151] in
  let m := set_subscribed_blocks
             (manager_at 150 [] [worker_at "a" 150; worker_at "b" 150]) [block] in
  workers_addresses (current_workers (res_state (dispatch categorize_watermark
                                                   (fun _ => false) m)))
  = ["a"; "b"]%string.
Proof.
  intros block m.
  apply (dispatch_keeps_population categorize_watermark (fun _ => false) m
           categorize_watermark_keeps_address).
Defined.

(** ** The subscription ingestor *)

Lemma subscribe_step_appends (m : Manager) (p : Polled) :
  subscribed_earliest_block_number m <> 0 ->
  let m' := res_state (subscribe_step m p) in
  (exists added,
      subscribed_blocks m' = subscribed_blocks m ++ added
      /\ Forall (fresh m) added
      /\ (List.length added <= 1)%nat)
  /\ subscribed_earliest_block_number m' = subscribed_earliest_block_number m
  /\ Network_Id m' = Network_Id m
  /\ old_categorizers m' = old_categorizers m
  /\ current_workers m' = current_workers m
  /\ pusher m' = pusher m.
Proof.
  intros Hset.
  assert (Hnone : exists added,
             subscribed_blocks m = subscribed_blocks m ++ added
             /\ Forall (fresh m) added /\ (List.length added <= 1)%nat).
  { exists []. rewrite app_nil_r. repeat split; [constructor|simpl; lia]. }
  apply Z.eqb_neq in Hset.
  destruct p as [| | | |b]; cbn [subscribe_step res_state]; try (now repeat split).
  destruct (in_block_number b) as [n|]; [|now repeat split].
  destruct (in_network_id b) as [network_id|]; [|now repeat split].
  destruct (negb (String.eqb network_id (Network_Id m))); [now repeat split|].
  rewrite Hset. cbn [negb andb].
  destruct (n <? subscribed_earliest_block_number m) eqn:Hlt; [now repeat split|].
  destruct (in_block_timestamp b) as [timestamp|]; [|now repeat split].
  destruct (in_logs b) as [logs|]; [|now repeat split].
  cbn [res_state subscribed_blocks set_subscribed_blocks].
  repeat split; try reflexivity.
  exists [NewBlock (Network_Id m) n timestamp logs]. repeat split.
  - constructor; [|constructor]. split; [|reflexivity].
    cbn [NewBlock BlockNumber]. now apply Z.ltb_ge in Hlt.
  - simpl. lia.
Qed.

(** X7: once the baseline is set, the ingestor only appends to the Block
    Queue, at most one block per poll, each of this network and with a
    number at or above the baseline; what was queued stays queued, in
    order.  The ingestor never touches the groups, the live population or
    the published messages, whether it goes on or panics. *)
Theorem ingestor_appends_fresh_blocks (ps : list Polled) (m : Manager) :
  subscribed_earliest_block_number m <> 0 ->
  let m' := res_state (subscribe m ps) in
  (exists added,
      subscribed_blocks m' = subscribed_blocks m ++ added
      /\ Forall (fresh m) added
      /\ (List.length added <= List.length ps)%nat)
  /\ old_categorizers m' = old_categorizers m
  /\ current_workers m' = current_workers m
  /\ pusher m' = pusher m.
Proof.
  revert m. induction ps as [|p ps IH]; intros m Hset; cbv zeta.
  - cbn [subscribe res_state]. split; [|now repeat split].
    exists []. rewrite app_nil_r. repeat split; [constructor|simpl; lia].
  - destruct (subscribe_step_appends m p Hset)
      as ((added & Hq & Hfresh & Hlen) & Hbase & Hnet & Hold & Hlive & Hpush).
    cbn [subscribe].
    destruct (subscribe_step m p) as [m1|m1]; cbn [res_state] in *.
    + assert (Hset1 : subscribed_earliest_block_number m1 <> 0) by now rewrite Hbase.
      destruct (IH m1 Hset1)
        as ((added1 & Hq1 & Hfresh1 & Hlen1) & Hold1 & Hlive1 & Hpush1).
      split; [|now rewrite Hold1, Hlive1, Hpush1].
      exists (added ++ added1). rewrite Hq1, Hq, app_assoc. split; [reflexivity|].
      split.
      * apply Forall_app. split; [exact Hfresh|].
        eapply Forall_impl; [|exact Hfresh1].
        intros b [Hb1 Hb2]. unfold fresh. now rewrite <- Hbase, <- Hnet.
      * rewrite length_app. cbn [List.length]. lia.
    + split; [|now repeat split].
      exists added. repeat split; [exact Hq|exact Hfresh|].
      cbn [List.length]. lia.
Qed.

Lemma ingestor_appends_fresh_blocks_witness :
  let m := manager_at 150 [] [] in
  let ps := [Received (broadcast_of 151); Received (broadcast_of 149); Idle;
             Received (broadcast_of 152); Unparsable; Received (broadcast_of 153)] in
  exists added,
    subscribed_blocks (res_state (subscribe m ps)) = subscribed_blocks m ++ added
    /\ Forall (fresh m) added
    /\ (List.length added <= List.length ps)%nat.
Proof.
  intros m ps.
  apply (ingestor_appends_fresh_blocks ps m). discriminate.
Defined.

Lemma subscribe_step_foreign (m : Manager) (p : Polled) :
  foreign m p -> subscribe_step m p = Done m.
Proof.
  intros [->|(b & n & network_id & -> & Hn & Hnet & Hne)]; [reflexivity|].
  cbn [subscribe_step]. rewrite Hn, Hnet.
  apply String.eqb_neq in Hne. now rewrite Hne.
Qed.

(** X8: polls that bring nothing and broadcasts of other networks leave
    the manager exactly as it was, in whatever number: they never set the
    baseline and never reach the queue.  The block number is read before
    the network is compared, though: a broadcast without a readable block
    number makes the ingestor panic, of whatever network it is. *)
Theorem foreign_broadcasts_ignored (ps : list Polled) (m : Manager) :
  Forall (foreign m) ps ->
  subscribe m ps = Done m
  /\ (forall b, in_block_number b = None ->
                subscribe m (ps ++ [Received b]) = Panicked m).
Proof.
  intros H.
  assert (Hdone : subscribe m ps = Done m).
  { induction H as [|p ps Hp _ IH]; [reflexivity|].
    cbn [subscribe]. now rewrite (subscribe_step_foreign m p Hp). }
  split; [exact Hdone|].
  intros b Hb. rewrite subscribe_app, Hdone. cbn [subscribe subscribe_step].
  now rewrite Hb.
Qed.

Lemma foreign_broadcasts_ignored_witness :
  let other := {| in_block_number := Some 7; in_network_id := Some "56"%string;
                  in_block_timestamp := None; in_logs := None |} in
  subscribe (NewManager "1") [Received other; Idle; Received other]
  = Done (NewManager "1").
Proof.
  intros other.
  assert (Hother : foreign (NewManager "1") (Received other))
    by (right; exists other, 7, "56"%string; repeat split; discriminate).
  apply (foreign_broadcasts_ignored [Received other; Idle; Received other]
           (NewManager "1")).
  apply Forall_cons; [exact Hother|].
  apply Forall_cons; [now left|].
  apply Forall_cons; [exact Hother|apply Forall_nil].
Defined.

(** ** The smartcontracts of the manager *)

Lemma map_flat_map {A B C : Type} (f : B -> C) (g : A -> list B) (l : list A) :
  map f (flat_map g l) = flat_map (fun a => map f (g a)) l.
Proof.
  induction l as [|a l IH]; [reflexivity|]. cbn [flat_map].
  now rewrite map_app, IH.
Qed.

(** X9: [GetSmartcontractAddresses] lists the addresses of the
    smartcontracts [GetSmartcontracts] returns, one for one and in the same
    order: those of the groups, in the order of the collection, before
    those of the live population. *)
Theorem addresses_of_smartcontracts (m : Manager) :
  GetSmartcontractAddresses m = map Address (GetSmartcontracts m)
  /\ List.length (GetSmartcontracts m)
     = (list_sum (map (fun g => List.length (workers g)) (old_categorizers m))
        + List.length (current_workers m))%nat.
Proof.
  rewrite GetSmartcontractAddresses_flat. unfold GetSmartcontracts.
  rewrite fold_left_app_flat_map. cbn [app]. split.
  - rewrite map_app, map_flat_map. unfold workers_smartcontracts, workers_addresses.
    rewrite map_map. f_equal.
    induction (old_categorizers m) as [|g gs IH]; [reflexivity|].
    cbn [flat_map]. now rewrite IH, map_map.
  - rewrite length_app. unfold workers_smartcontracts. rewrite length_map. f_equal.
    induction (old_categorizers m) as [|g gs IH]; [reflexivity|].
    cbn [flat_map map list_sum]. now rewrite length_app, length_map, IH.
Qed.

End CategorizerViewsProperties.

(** * More properties of the wire messages *)

Module MessageValidation.

Import Message MessageProperties.

Local Open Scope nat_scope.
Local Open Scope string_scope.

(** ** What Reply.ToBytes accepts *)

Lemma wire_shaped_dec (r : Reply) :
  wire_shaped r
  \/ (Status r = FAIL /\ Message r = EmptyString)
  \/ (Status r <> FAIL /\ Status r <> OK).
Proof.
  unfold wire_shaped.
  destruct (String.eqb_spec (Status r) FAIL) as [Hf|Hf].
  - destruct (Message r) as [|c s]; [right; left; now split|].
    left. right. split; [exact Hf|discriminate].
  - destruct (String.eqb_spec (Status r) OK) as [Ho|Ho]; [now left; left|].
    right. right. now split.
Qed.

Lemma Reply_ToBytes_fail_empty (r : Reply) :
  Status r = FAIL -> Message r = EmptyString ->
  Reply_ToBytes r
  = Err (ErrWrap "failure validation"
           (ErrValidation "failure should not have an empty message")).
Proof.
  intros Hs Hm. unfold Reply_ToBytes, valid_fail. now rewrite Hs, Hm.
Qed.

Lemma Reply_ToBytes_bad_status (r : Reply) :
  Status r <> FAIL -> Status r <> OK ->
  Reply_ToBytes r
  = Err (ErrWrap "status validation"
           (ErrValidation
              ("status is either 'OK' or 'fail', but given: '" ++ Status r ++ "'"))).
Proof.
  intros Hf Ho. apply String.eqb_neq in Hf, Ho.
  unfold Reply_ToBytes, valid_fail, valid_status. now rewrite Hf, Ho.
Qed.

Lemma Reply_ToBytes_ok_iff (r : Reply) :
  is_ok (Reply_ToBytes r) = true <-> wire_shaped r.
Proof.
  split.
  - intros H. destruct (wire_shaped_dec r) as [Hw|[[Hs Hm]|[Hf Ho]]]; [exact Hw| |].
    + rewrite (Reply_ToBytes_fail_empty r Hs Hm) in H. discriminate.
    + rewrite (Reply_ToBytes_bad_status r Hf Ho) in H. discriminate.
  - intros H. now rewrite (Reply_ToBytes_wire_shaped r H).
Qed.

(** X10: [Reply.ToBytes] and [Reply.ToString] refuse every reply outside
    the wire-shape constraints before anything is serialised: a failure
    without a message by the failure validation, which comes first; a
    status other than "OK" and "fail" by the status validation, whose
    error quotes the status given.  So a reply that is encoded is within
    the constraints; and a reply within them passes both validations,
    after which [ToBytes] returns what the serialisation of its key-value
    returns. *)
Theorem reply_validated_before_encoding (r : Reply) :
  (Status r = FAIL -> Message r = EmptyString ->
   Reply_ToString r
   = Err (ErrWrap "reply.ToBytes"
            (ErrWrap "failure validation"
               (ErrValidation "failure should not have an empty message"))))
  /\ (Status r <> FAIL -> Status r <> OK ->
      Reply_ToString r
      = Err (ErrWrap "reply.ToBytes"
               (ErrWrap "status validation"
                  (ErrValidation
                     ("status is either 'OK' or 'fail', but given: '"
                        ++ Status r ++ "'")))))
  /\ (forall bytes,
        Reply_ToBytes r = Ok bytes \/ Reply_ToString r = Ok bytes -> wire_shaped r)
  /\ (wire_shaped r ->
      valid_fail r = Ok tt /\ valid_status r = Ok tt
      /\ Reply_ToBytes r
         = (kv <- wrap "failed to serialize Reply to key-value" (reply_interface r) ;;
            wrap "serialized key-value.ToBytes" (ToBytes kv))).
Proof.
  split; [|split; [|split]].
  - intros Hs Hm. unfold Reply_ToString.
    now rewrite (Reply_ToBytes_fail_empty r Hs Hm).
  - intros Hf Ho. unfold Reply_ToString.
    now rewrite (Reply_ToBytes_bad_status r Hf Ho).
  - intros bytes [H|H].
    + exact (Reply_ToBytes_validated r bytes H).
    + unfold Reply_ToString in H.
      destruct (Reply_ToBytes r) as [bytes'|e] eqn:Hb; [|discriminate].
      exact (Reply_ToBytes_validated r bytes' Hb).
  - intros Hw. destruct (wire_shaped_valid r Hw) as [Hf Hs].
    split; [exact Hf|]. split; [exact Hs|].
    unfold Reply_ToBytes. now rewrite Hf, Hs.
Qed.

Lemma reply_validated_before_encoding_witness :
  Reply_ToString {| Status := "fail"; Message := EmptyString; Parameters := [] |}
  = Err (ErrWrap "reply.ToBytes"
           (ErrWrap "failure validation"
              (ErrValidation "failure should not have an empty message")))
  /\ Reply_ToString {| Status := "ok"; Message := "lower case"; Parameters := [] |}
     = Err (ErrWrap "reply.ToBytes"
              (ErrWrap "status validation"
                 (ErrValidation "status is either 'OK' or 'fail', but given: 'ok'")))
  /\ wire_shaped block_reply.
Proof.
  split; [|split].
  - apply (reply_validated_before_encoding
             {| Status := "fail"; Message := EmptyString; Parameters := [] |});
      reflexivity.
  - exact (proj1 (proj2 (reply_validated_before_encoding
                           {| Status := "ok"; Message := "lower case";
                              Parameters := [] |}))
                 ltac:(discriminate) ltac:(discriminate)).
  - apply (proj1 (proj2 (proj2 (reply_validated_before_encoding block_reply)))
                 (print_json (JObject (reply_members block_reply)) EmptyString)).
    left. reflexivity.
Defined.

(** X11: a reply made by [Fail] is never OK and has no parameters; it can
    be encoded exactly when its message is not empty, and is then read
    back as it was. *)
Theorem fail_needs_a_message (message : string) :
  IsOK (Fail message) = false
  /\ Parameters (Fail message) = []
  /\ (is_ok (Reply_ToString (Fail message)) = true <-> message <> EmptyString)
  /\ (message <> EmptyString ->
      exists wire,
        Reply_ToString (Fail message) = Ok wire
        /\ ParseReply [wire] = Ok (Fail message)).
Proof.
  assert (Hshape : wire_shaped (Fail message) <-> message <> EmptyString).
  { unfold wire_shaped, Fail; cbn [Status Message]. split.
    - intros [H|[_ H]]; [discriminate|exact H].
    - intros H. right. now split. }
  split; [reflexivity|]. split; [reflexivity|]. split.
  - rewrite <- Hshape. unfold Reply_ToString.
    rewrite <- Reply_ToBytes_ok_iff. now destruct (Reply_ToBytes (Fail message)).
  - intros Hm. apply Hshape in Hm.
    exists (print_json (JObject (reply_members (Fail message))) EmptyString). split.
    + unfold Reply_ToString. now rewrite (Reply_ToBytes_wire_shaped _ Hm).
    + unfold ParseReply, ToString. cbn [String.concat].
      rewrite NewFromString_print. cbn [wrap bind].
      now rewrite (ParseJsonReply_reply_members _ Hm).
Qed.

Lemma fail_needs_a_message_witness :
  exists wire,
    Reply_ToString (Fail "keys: not found") = Ok wire
    /\ ParseReply [wire] = Ok (Fail "keys: not found").
Proof.
  apply (fail_needs_a_message "keys: not found"). discriminate.
Defined.

(** ** What the parsers return *)

Lemma ParseJsonReply_ok (dat : KeyValue) (r : Reply) :
  ParseJsonReply dat = Ok r ->
  ToInterface dat = Ok r /\ wire_shaped r.
Proof.
  unfold ParseJsonReply. intros H.
  destruct (ToInterface dat) as [r'|e]; [|discriminate]. cbn [wrap bind] in H.
  destruct (Reply_ToBytes r') as [bytes|e] eqn:Hb; [|discriminate].
  cbn [wrap bind] in H. injection H as <-. split; [reflexivity|].
  apply Reply_ToBytes_ok_iff. now rewrite Hb.
Qed.

(** X12: a reply returned by [ParseJsonReply] or [ParseReply] always
    satisfies the wire-shape constraints, so that it can be encoded again,
    and the text it is encoded to parses back to the same reply. *)
Theorem parsed_reply_is_valid (msgs : list string) (r : Reply) :
  ParseReply msgs = Ok r ->
  wire_shaped r
  /\ exists wire, Reply_ToString r = Ok wire /\ ParseReply [wire] = Ok r.
Proof.
  unfold ParseReply. intros H.
  destruct (NewFromString (ToString msgs)) as [dat|e]; [|discriminate].
  cbn [wrap bind] in H.
  destruct (ParseJsonReply dat) as [r'|e] eqn:Hp; [|discriminate].
  cbn [wrap bind] in H. injection H as <-.
  destruct (ParseJsonReply_ok dat r' Hp) as [_ Hshape].
  split; [exact Hshape|].
  exists (print_json (JObject (reply_members r')) EmptyString). split.
  - unfold Reply_ToString. now rewrite (Reply_ToBytes_wire_shaped _ Hshape).
  - unfold ToString. cbn [String.concat].
    rewrite NewFromString_print. cbn [wrap bind].
    now rewrite (ParseJsonReply_reply_members _ Hshape).
Qed.

Lemma parsed_reply_is_valid_witness :
  let wire := print_json (JObject [("status", JString "OK");
                                   ("parameters", JObject [("n", JNumber 7)])])
                         EmptyString in
  let r := {| Status := "OK"; Message := ""; Parameters := [("n", JNumber 7)] |} in
  wire_shaped r
  /\ exists wire', Reply_ToString r = Ok wire' /\ ParseReply [wire'] = Ok r.
Proof.
  intros wire r.
  apply (parsed_reply_is_valid [wire] r). vm_compute. reflexivity.
Defined.

(** ** Broadcasts *)

Lemma Broadcast_ToBytes_text (b : Broadcast) :
  Broadcast_ToBytes b
  = print_json (JObject [("reply", JObject (reply_members (BroadcastReply b)));
                         ("topic", JString (Topic b))]) EmptyString.
Proof. reflexivity. Qed.

Lemma Broadcast_ToBytes_brace (b : Broadcast) :
  exists body, Broadcast_ToBytes b = String "{" body.
Proof. eexists. reflexivity. Qed.

(** What [ParseBroadcast] makes of the bytes of a broadcast, once they are
    cut from what precedes them. *)
Lemma parse_body_ToBytes (b : Broadcast) :
  parse_body (Broadcast_ToBytes b)
  = match wrap "ParseJsonReply" (ParseJsonReply (reply_members (BroadcastReply b))) with
    | Ok reply => Ok {| Topic := Topic b; BroadcastReply := reply |}
    | Err e => Err e
    end.
Proof.
  unfold parse_body. rewrite Broadcast_ToBytes_text, NewFromString_print.
  cbn [wrap bind].
  change (GetString _ "topic") with (@Ok string (Topic b)).
  change (GetKeyValue _ "reply") with (@Ok KeyValue (reply_members (BroadcastReply b))).
  cbn [wrap bind].
  now destruct (ParseJsonReply (reply_members (BroadcastReply b))).
Qed.

Lemma ParseJsonReply_not_wire_shaped (r : Reply) :
  ~ wire_shaped r ->
  exists e, ParseJsonReply (reply_members r) = Err (ErrWrap "validation" e).
Proof.
  intros H. unfold ParseJsonReply. rewrite ToInterface_reply_members.
  cbn [wrap bind].
  destruct (Reply_ToBytes r) as [bytes|e] eqn:Hb.
  - exfalso. apply H. apply Reply_ToBytes_ok_iff. now rewrite Hb.
  - now exists e.
Qed.

(** X13: [Broadcast.ToBytes] does not validate the reply it encodes.  For
    a reply that breaks the wire-shape constraints it still produces the
    JSON text, and [ParseBroadcast] then refuses that text at the
    validation of the reply: such a broadcast is sent but never
    received. *)
Theorem invalid_broadcast_is_sent_not_parsed (topic : string) (r : Reply) :
  ~ wire_shaped r ->
  (exists body, Broadcast_ToBytes (NewBroadcast topic r) = String "{" body)
  /\ exists e,
       ParseBroadcast [Broadcast_ToBytes (NewBroadcast topic r)]
       = Err (ErrWrap "ParseJsonReply" (ErrWrap "validation" e)).
Proof.
  intros H. split; [apply Broadcast_ToBytes_brace|].
  destruct (ParseJsonReply_not_wire_shaped r H) as [e He]. exists e.
  rewrite ParseBroadcast_parse_body. unfold ToString. cbn [String.concat].
  destruct (Broadcast_ToBytes_brace (NewBroadcast topic r)) as [body Hbody].
  assert (Hi : index 0 "{" (Broadcast_ToBytes (NewBroadcast topic r)) = Some 0)
    by (rewrite Hbody; apply index_brace_cons).
  rewrite Hi. unfold from_index. rewrite Nat.sub_0_r, substring_all.
  rewrite parse_body_ToBytes. cbn [NewBroadcast BroadcastReply Topic].
  now rewrite He.
Qed.

Lemma invalid_broadcast_is_sent_not_parsed_witness :
  exists e,
    ParseBroadcast [Broadcast_ToBytes (NewBroadcast "1 " (Fail ""))]
    = Err (ErrWrap "ParseJsonReply" (ErrWrap "validation" e)).
Proof.
  apply (invalid_broadcast_is_sent_not_parsed "1 " (Fail "")).
  intros [H|[_ H]]; [discriminate|now apply H].
Defined.

Lemma ParseBroadcast_ToBytes_behind (prefix topic : string) (r : Reply) :
  wire_shaped r ->
  index 0 "{" prefix = None ->
  ParseBroadcast [prefix ++ Broadcast_ToBytes (NewBroadcast topic r)]
  = Ok (NewBroadcast topic r).
Proof.
  intros Hshape Hprefix.
  destruct (Broadcast_ToBytes_brace (NewBroadcast topic r)) as [body Hbody].
  assert (Hparse : parse_body (String "{" body) = Ok (NewBroadcast topic r)).
  { rewrite <- Hbody, parse_body_ToBytes. cbn [NewBroadcast BroadcastReply Topic].
    now rewrite (ParseJsonReply_reply_members r Hshape). }
  rewrite ParseBroadcast_parse_body. unfold ToString. cbn [String.concat].
  rewrite Hbody, (index_brace_app prefix body Hprefix), from_index_app.
  exact Hparse.
Qed.

(** X14: the bytes of a broadcast of a valid reply are parsed back to the
    same topic and reply behind any text without a brace, such as the
    topic the publisher puts in front for the subscription filter, whether
    that text is in the same part of the message or in a part of its
    own. *)
Theorem broadcast_parsed_behind_topic (prefix topic : string) (r : Reply) :
  wire_shaped r ->
  index 0 "{" prefix = None ->
  ParseBroadcast [prefix; Broadcast_ToBytes (NewBroadcast topic r)]
  = Ok (NewBroadcast topic r)
  /\ ParseBroadcast [prefix ++ Broadcast_ToBytes (NewBroadcast topic r)]
     = Ok (NewBroadcast topic r).
Proof.
  intros Hshape Hprefix.
  pose proof (ParseBroadcast_ToBytes_behind prefix topic r Hshape Hprefix) as Hone.
  split; [|exact Hone].
  rewrite <- Hone. rewrite !ParseBroadcast_parse_body. unfold ToString.
  cbn [String.concat]. reflexivity.
Qed.

Lemma broadcast_parsed_behind_topic_witness :
  ParseBroadcast ["1 "; Broadcast_ToBytes (NewBroadcast "1 " block_reply)]
  = Ok (NewBroadcast "1 " block_reply).
Proof.
  apply (broadcast_parsed_behind_topic "1 " "1 " block_reply);
    [left; reflexivity|reflexivity].
Defined.

(** X15: a broadcast returned by [ParseBroadcast] carries a valid reply (a
    failure always comes with its message), and its own bytes parse back
    to it. *)
Theorem parsed_broadcast_is_valid (msgs : list string) (b : Broadcast) :
  ParseBroadcast msgs = Ok b ->
  wire_shaped (BroadcastReply b)
  /\ (Broadcast_IsOK b = false -> Message (BroadcastReply b) <> EmptyString)
  /\ ParseBroadcast [Broadcast_ToBytes b] = Ok b.
Proof.
  rewrite ParseBroadcast_parse_body. intros H.
  destruct (index 0 "{" (ToString msgs)) as [i|]; [|discriminate].
  unfold parse_body in H.
  destruct (NewFromString _) as [dat|e]; [|discriminate]. cbn [wrap bind] in H.
  destruct (GetString dat "topic") as [topic|e]; [|discriminate]. cbn [wrap bind] in H.
  destruct (GetKeyValue dat "reply") as [raw_reply|e]; [|discriminate].
  cbn [wrap bind] in H.
  destruct (ParseJsonReply raw_reply) as [reply|e] eqn:Hp; [|discriminate].
  cbn [wrap bind] in H. injection H as <-. cbn [BroadcastReply].
  destruct (ParseJsonReply_ok raw_reply reply Hp) as [_ Hshape].
  split; [exact Hshape|]. split.
  - unfold Broadcast_IsOK, IsOK. cbn [BroadcastReply]. intros Hok.
    destruct Hshape as [Hs|[_ Hm]]; [|exact Hm].
    rewrite Hs in Hok. discriminate.
  - exact (ParseBroadcast_ToBytes_behind EmptyString topic reply Hshape eq_refl).
Qed.

Lemma parsed_broadcast_is_valid_witness :
  let b := NewBroadcast "1 " block_reply in
  wire_shaped (BroadcastReply b)
  /\ (Broadcast_IsOK b = false -> Message (BroadcastReply b) <> EmptyString)
  /\ ParseBroadcast [Broadcast_ToBytes b] = Ok b.
Proof.
  intros b.
  apply (parsed_broadcast_is_valid ["56 "; Broadcast_ToBytes b] b).
  vm_compute. reflexivity.
Defined.

End MessageValidation.

(** * Properties of the list of networks *)

Module NetworkProperties.

Import Network.

Section Networks.

Variable Network : Type.
Variable Id : Network -> string.
Variable KeyValue : Type.
Variable NewError : Type.
Variable New : KeyValue -> NewError + Network.

Lemma Exist_In (networks : list Network) (network_id : string) :
  Exist Id networks network_id = true <-> In network_id (map Id networks).
Proof.
  induction networks as [|network rest IH]; simpl.
  - split; [discriminate | contradiction].
  - destruct (String.eqb (Id network) network_id) eqn:E.
    + apply String.eqb_eq in E. split; auto.
    + apply String.eqb_neq in E. rewrite IH. split; [auto | intros [H | H]; [contradiction | exact H]].
Qed.

Lemma Exist_not_In (networks : list Network) (network_id : string) :
  Exist Id networks network_id = false <-> ~ In network_id (map Id networks).
Proof.
  rewrite <- Exist_In. destruct (Exist Id networks network_id); split; intro H;
    try reflexivity; try discriminate; try (intro; discriminate).
  exfalso. apply H. reflexivity.
Qed.

Lemma NoDup_ids_snoc (networks : list Network) (network : Network) :
  NoDup (map Id networks) ->
  ~ In (Id network) (map Id networks) ->
  NoDup (map Id (networks ++ [network])).
Proof.
  intros Hnd Hnot. rewrite map_app. simpl.
  apply NoDup_app.
  - exact Hnd.
  - constructor; [intros [] | constructor].
  - intros x Hx [<- | []]. exact (Hnot Hx).
Qed.

Lemma NoDup_ids_middle (networks tail : list Network) (network : Network) :
  NoDup (map Id (networks ++ network :: tail)) ->
  ~ In (Id network) (map Id networks).
Proof.
  rewrite map_app. simpl. intros Hnd Hin.
  apply NoDup_remove_2 in Hnd. apply Hnd. apply in_or_app. left. exact Hin.
Qed.

(** From distinct networks, the loop succeeds exactly when the raw
    networks that are left are all parsed and no id comes twice. *)
Lemma NewNetworks_loop_inr (raw_networks : list KeyValue) :
  forall acc networks,
    NoDup (map Id acc) ->
    NewNetworks_loop Id New acc raw_networks = inr networks <->
    exists tail,
      networks = acc ++ tail /\ parsed New raw_networks tail /\
      NoDup (map Id (acc ++ tail)).
Proof.
  induction raw_networks as [|raw rest IH]; intros acc networks Hacc; simpl.
  - split.
    + intros [= <-]. exists []. rewrite app_nil_r.
      repeat split; [constructor | assumption].
    + intros (tail & -> & Hp & _). inversion Hp. now rewrite app_nil_r.
  - destruct (New raw) as [err | network] eqn:En.
    + split; [discriminate |].
      intros (tail & _ & Hp & _). inversion Hp; subst. congruence.
    + destruct (Exist Id acc (Id network)) eqn:Ex.
      * split; [discriminate |].
        intros (tail & _ & Hp & Hnd). inversion Hp; subst.
        assert (y = network) by congruence. subst y.
        apply Exist_In in Ex. exfalso.
        exact (NoDup_ids_middle _ _ _ Hnd Ex).
      * apply Exist_not_In in Ex.
        rewrite (IH _ _ (NoDup_ids_snoc _ _ Hacc Ex)). split.
        -- intros (tail & -> & Hp & Hnd).
           exists (network :: tail). rewrite <- app_assoc in *. simpl in *.
           repeat split; [constructor; assumption | assumption].
        -- intros (tail & -> & Hp & Hnd). inversion Hp; subst.
           assert (y = network) by congruence. subst y.
           exists l'. rewrite <- app_assoc. simpl.
           repeat split; assumption.
Qed.

(** The loop goes through the raw networks it parses to distinct ids. *)
Lemma NewNetworks_loop_app (pre : list KeyValue) :
  forall acc networks rest,
    parsed New pre networks ->
    NoDup (map Id (acc ++ networks)) ->
    NewNetworks_loop Id New acc (pre ++ rest) =
    NewNetworks_loop Id New (acc ++ networks) rest.
Proof.
  induction pre as [|raw pre IH]; intros acc networks rest Hp Hnd.
  - inversion Hp. now rewrite app_nil_r.
  - inversion Hp as [|? network ? tail En Hp']; subst. simpl. rewrite En.
    pose proof (NoDup_ids_middle _ _ _ Hnd) as Hfresh.
    apply Exist_not_In in Hfresh. rewrite Hfresh.
    rewrite (IH (acc ++ [network]) tail rest Hp').
    + now rewrite <- app_assoc.
    + now rewrite <- app_assoc.
Qed.

Lemma Get_In (networks : list Network) (network : Network) :
  NoDup (map Id networks) ->
  In network networks ->
  Get Id networks (Id network) = inr network.
Proof.
  induction networks as [|n rest IH]; simpl; intros Hnd Hin; [contradiction |].
  inversion Hnd as [|? ? Hfresh Hrest]; subst.
  destruct Hin as [-> | Hin].
  - now rewrite String.eqb_refl.
  - destruct (String.eqb (Id n) (Id network)) eqn:E.
    + apply String.eqb_eq in E. exfalso. apply Hfresh. rewrite E.
      now apply in_map.
    + now apply IH.
Qed.

Lemma parsed_network_has_raw (raw_networks : list KeyValue)
    (networks : list Network) (network : Network) :
  parsed New raw_networks networks ->
  In network networks ->
  exists raw, In raw raw_networks /\ New raw = inr network.
Proof.
  intros Hp. induction Hp as [|raw n raws ns En Hp IH]; simpl; [contradiction |].
  intros [<- | Hin].
  - exists raw. split; [left; reflexivity | exact En].
  - destruct (IH Hin) as (raw' & Hraw & En'). exists raw'. split; [right |]; assumption.
Qed.

Lemma parsed_raw_has_network (raw_networks : list KeyValue)
    (networks : list Network) (raw : KeyValue) :
  parsed New raw_networks networks ->
  In raw raw_networks ->
  exists network, In network networks /\ New raw = inr network.
Proof.
  intros Hp. induction Hp as [|raw' n raws ns En Hp IH]; simpl; [contradiction |].
  intros [<- | Hin].
  - exists n. split; [left; reflexivity | exact En].
  - destruct (IH Hin) as (n' & Hn & En'). exists n'. split; [right |]; assumption.
Qed.

(** X16: [NewNetworks] returns a list of networks exactly when every raw
    network is parsed by [New] and the ids of the parsed networks are all
    different; the list it returns then holds the parsed networks one for
    one, in the order of the raw networks. *)
Theorem NewNetworks_succeeds_iff (raw_networks : list KeyValue)
    (networks : list Network) :
  NewNetworks Id New raw_networks = inr networks <->
  parsed New raw_networks networks /\ NoDup (map Id networks).
Proof.
  unfold NewNetworks.
  rewrite (NewNetworks_loop_inr raw_networks [] networks (NoDup_nil _)).
  simpl. split.
  - intros (tail & -> & Hp & Hnd). split; assumption.
  - intros [Hp Hnd]. exists networks. repeat split; assumption.
Qed.

(** X17: [NewNetworks] fails at the first raw network that cannot be
    taken: after raw networks parsed to different ids, a raw network that
    [New] refuses makes it return the wrapped error of [New], and one
    parsed to an id already in the list makes it return the error of the
    duplicate id; the raw networks that follow are not looked at. *)
Theorem NewNetworks_fails_at_first_offender (pre post : list KeyValue)
    (raw : KeyValue) (networks : list Network) :
  parsed New pre networks ->
  NoDup (map Id networks) ->
  (forall err, New raw = inl err ->
     NewNetworks Id New (pre ++ raw :: post) = inl (ErrNew err)) /\
  (forall network, New raw = inr network ->
     In (Id network) (map Id networks) ->
     NewNetworks Id New (pre ++ raw :: post) = inl (ErrDuplicate (Id network))).
Proof.
  intros Hp Hnd. unfold NewNetworks.
  rewrite (NewNetworks_loop_app pre [] networks (raw :: post) Hp Hnd).
  simpl. split.
  - intros err ->. reflexivity.
  - intros network -> Hin. apply Exist_In in Hin. now rewrite Hin.
Qed.

(** X18: [Get] returns the first network of the list with the id asked
    for, and fails exactly when [Exist] says there is none. *)
Theorem Get_first_with_id (networks : list Network) (network_id : string) :
  (forall network,
     Get Id networks network_id = inr network <->
     exists before after,
       networks = before ++ network :: after /\ Id network = network_id /\
       Exist Id before network_id = false) /\
  (forall err,
     Get Id networks network_id = inl err <->
     err = ErrNotFound network_id /\ Exist Id networks network_id = false).
Proof.
  induction networks as [|n rest [IHok IHerr]]; simpl.
  - split.
    + intros network. split; [discriminate |].
      intros (before & after & H & _). destruct before; discriminate.
    + intros err. split.
      * intros [= <-]. split; reflexivity.
      * intros [-> _]. reflexivity.
  - destruct (String.eqb (Id n) network_id) eqn:E.
    + split.
      * intros network. split.
        -- intros [= <-]. exists [], rest. apply String.eqb_eq in E.
           repeat split; assumption.
        -- intros (before & after & H & Hid & Hex).
           destruct before as [|b before]; simpl in *.
           ++ now injection H as -> _.
           ++ injection H as <- _. rewrite E in Hex. discriminate.
      * intros err. split; [discriminate | intros [_ H]; discriminate].
    + split.
      * intros network. rewrite IHok. split.
        -- intros (before & after & -> & Hid & Hex).
           exists (n :: before), after. simpl. rewrite E.
           repeat split; assumption.
        -- intros (before & after & H & Hid & Hex).
           destruct before as [|b before]; simpl in *.
           ++ injection H as -> _. apply String.eqb_neq in E. contradiction.
           ++ injection H as <- ->. rewrite E in Hex.
              exists before, after. repeat split; assumption.
      * intros err. apply IHerr.
Qed.

(** X19: every network of a list made by [NewNetworks] is the one [Get]
    returns for its id, and [Exist] answers for exactly the ids of the
    raw networks. *)
Theorem NewNetworks_then_Get (raw_networks : list KeyValue)
    (networks : list Network) :
  NewNetworks Id New raw_networks = inr networks ->
  (forall network, In network networks ->
     Get Id networks (Id network) = inr network) /\
  (forall network_id,
     Exist Id networks network_id = true <->
     exists raw network,
       In raw raw_networks /\ New raw = inr network /\ Id network = network_id).
Proof.
  unfold NewNetworks.
  rewrite (NewNetworks_loop_inr raw_networks [] networks (NoDup_nil _)).
  simpl. intros (tail & -> & Hp & Hnd). split.
  - intros network Hin. now apply Get_In.
  - intros network_id. rewrite Exist_In, in_map_iff. split.
    + intros (network & Hid & Hin).
      destruct (parsed_network_has_raw _ _ _ Hp Hin) as (raw & Hraw & En).
      now exists raw, network.
    + intros (raw & network & Hraw & En & Hid).
      destruct (parsed_raw_has_network _ _ _ Hp Hraw) as (network' & Hin & En').
      assert (network' = network) by congruence. subst network'.
      now exists network.
Qed.

End Networks.

Lemma sample_parsed :
  parsed sample_New [("eth", 1%nat); ("bsc", 56%nat)]%string
    [("eth", 1%nat); ("bsc", 56%nat)]%string.
Proof. repeat constructor. Qed.

Lemma sample_distinct :
  NoDup (map fst [("eth", 1%nat); ("bsc", 56%nat)]%string).
Proof.
  constructor; [intros [H | []]; discriminate |].
  constructor; [intros [] | constructor].
Qed.

Lemma NewNetworks_succeeds_iff_witness :
  NewNetworks fst sample_New [("eth", 1%nat); ("bsc", 56%nat)]%string =
  inr [("eth", 1%nat); ("bsc", 56%nat)]%string.
Proof.
  apply (NewNetworks_succeeds_iff _ fst _ _ sample_New).
  split; [exact sample_parsed | exact sample_distinct].
Defined.

Lemma NewNetworks_fails_at_first_offender_witness :
  NewNetworks fst sample_New
    ([("eth", 1%nat); ("bsc", 56%nat)]%string ++
     (("eth", 5%nat) :: [(EmptyString, 7%nat)])%string)%list =
  inl (ErrDuplicate "eth").
Proof.
  apply (proj2 (NewNetworks_fails_at_first_offender _ fst _ _ sample_New
                  [("eth", 1%nat); ("bsc", 56%nat)]%string [(EmptyString, 7%nat)]
                  ("eth", 5%nat)%string _ sample_parsed sample_distinct)
               ("eth", 5%nat)%string).
  - reflexivity.
  - simpl. left. reflexivity.
Defined.

Lemma Get_first_with_id_witness :
  Get fst [("eth", 1%nat); ("bsc", 56%nat); ("bsc", 97%nat)]%string "bsc" =
  inr ("bsc", 56%nat)%string.
Proof.
  apply (proj1 (Get_first_with_id _ fst
                  [("eth", 1%nat); ("bsc", 56%nat); ("bsc", 97%nat)]%string "bsc")).
  exists [("eth", 1%nat)]%string, [("bsc", 97%nat)]%string.
  repeat split; reflexivity.
Defined.

Lemma NewNetworks_then_Get_witness :
  Get fst [("eth", 1%nat); ("bsc", 56%nat)]%string (fst ("bsc", 56%nat)%string) =
  inr ("bsc", 56%nat)%string.
Proof.
  apply (proj1 (NewNetworks_then_Get _ fst _ _ sample_New
                  [("eth", 1%nat); ("bsc", 56%nat)]%string
                  [("eth", 1%nat); ("bsc", 56%nat)]%string eq_refl)).
  simpl. right. left. reflexivity.
Defined.

End NetworkProperties.

(** * Properties of the names of the internal configuration *)

Module ConfigProperties.

Import Config.

Local Open Scope string_scope.

Lemma ReplaceAll_length (s : string) (old new : ascii) :
  String.length (ReplaceAll s old new) = String.length s.
Proof. induction s as [|c rest IH]; simpl; [reflexivity | now rewrite IH]. Qed.

Lemma ReplaceAll_app (a b : string) (old new : ascii) :
  ReplaceAll (a ++ b) old new = ReplaceAll a old new ++ ReplaceAll b old new.
Proof. induction a as [|c rest IH]; simpl; [reflexivity | now rewrite IH]. Qed.

Lemma UrlToFileName_cons (c : ascii) (rest : string) :
  UrlToFileName (String c rest) =
  String (if Ascii.eqb c slash || Ascii.eqb c backslash then dot else c)
         (UrlToFileName rest).
Proof.
  unfold UrlToFileName. simpl.
  destruct (Ascii.eqb c slash) eqn:Es; simpl.
  - reflexivity.
  - reflexivity.
Qed.

Lemma UrlToFileName_app (a b : string) :
  UrlToFileName (a ++ b) = UrlToFileName a ++ UrlToFileName b.
Proof. unfold UrlToFileName. now rewrite !ReplaceAll_app. Qed.

Lemma UrlToFileName_plain (url : string) :
  plain (UrlToFileName url) = true.
Proof.
  induction url as [|c rest IH]; [reflexivity |].
  rewrite UrlToFileName_cons. simpl. rewrite IH.
  destruct (Ascii.eqb c slash) eqn:Es; simpl; [reflexivity |].
  destruct (Ascii.eqb c backslash) eqn:Eb; simpl; [reflexivity |].
  rewrite Es, Eb. reflexivity.
Qed.

Lemma UrlToFileName_fixed (url : string) :
  UrlToFileName url = url <-> plain url = true.
Proof.
  split.
  - intros <-. apply UrlToFileName_plain.
  - induction url as [|c rest IH]; [reflexivity |].
    rewrite UrlToFileName_cons. simpl. intros H.
    apply andb_prop in H as [H Hrest]. apply andb_prop in H as [Hs Hb].
    apply negb_true_iff in Hs, Hb. rewrite Hs, Hb. simpl.
    now rewrite (IH Hrest).
Qed.

(** X20: the file name of a url has neither a slash nor a backslash and
    is as long as the url: each slash and each backslash has become a
    dot and every other byte is kept in its place; the url is its own
    file name exactly when it has no slash and no backslash, so that
    converting twice is converting once. *)
Theorem UrlToFileName_replaces_separators (url : string) :
  plain (UrlToFileName url) = true /\
  String.length (UrlToFileName url) = String.length url /\
  (forall n,
     String.get n (UrlToFileName url) =
     option_map
       (fun c => if Ascii.eqb c slash || Ascii.eqb c backslash then dot else c)
       (String.get n url)) /\
  (UrlToFileName url = url <-> plain url = true) /\
  UrlToFileName (UrlToFileName url) = UrlToFileName url.
Proof.
  split; [apply UrlToFileName_plain |].
  split; [unfold UrlToFileName; now rewrite !ReplaceAll_length |].
  split.
  - induction url as [|c rest IH]; intros n; [reflexivity |].
    rewrite UrlToFileName_cons. destruct n as [|n]; simpl; [reflexivity | apply IH].
  - split; [apply UrlToFileName_fixed |].
    apply UrlToFileName_fixed, UrlToFileName_plain.
Qed.

(** X21: the name of the manager and the name of the context are never
    the same, whatever the urls; two urls give the same manager name, and
    the same context name, exactly when they have the same file name,
    which happens for different urls: a url with a slash or a backslash
    shares its names with the url that has a dot at that place. *)
Theorem internal_names_collide (u1 u2 : string) :
  ManagerName u1 <> ContextName u2 /\
  (ManagerName u1 = ManagerName u2 <-> UrlToFileName u1 = UrlToFileName u2) /\
  (ContextName u1 = ContextName u2 <-> UrlToFileName u1 = UrlToFileName u2) /\
  ManagerName (u1 ++ String slash u2) = ManagerName (u1 ++ String dot u2) /\
  ContextName (u1 ++ String backslash u2) = ContextName (u1 ++ String dot u2).
Proof.
  unfold ManagerName, ContextName. simpl.
  split; [discriminate |].
  split; [split; [intros [= H]; exact H | intros ->; reflexivity] |].
  split; [split; [intros [= H]; exact H | intros ->; reflexivity] |].
  rewrite !UrlToFileName_app, !UrlToFileName_cons. simpl. split; reflexivity.
Qed.

Lemma UrlToFileName_replaces_separators_witness :
  UrlToFileName "github.com/ahmetson/sample-service" =
  "github.com.ahmetson.sample-service" /\
  UrlToFileName "github.com.ahmetson.sample-service" =
  "github.com.ahmetson.sample-service".
Proof.
  split; [reflexivity |].
  apply (proj2 (proj1 (proj2 (proj2 (proj2
    (UrlToFileName_replaces_separators "github.com.ahmetson.sample-service")))))).
  reflexivity.
Defined.

End ConfigProperties.

(** * Properties of the service *)

Module ServiceProperties.

Import Service.

Local Open Scope string_scope.

Lemma Contains_In (l : list string) (v : string) :
  Contains l v = true <-> In v l.
Proof.
  unfold Contains. rewrite existsb_exists. split.
  - intros (x & Hin & E). apply String.eqb_eq in E. now subst.
  - intros Hin. exists v. split; [exact Hin | apply String.eqb_refl].
Qed.

Lemma Contains_not_In (l : list string) (v : string) :
  Contains l v = false <-> ~ In v l.
Proof.
  rewrite <- Contains_In. destruct (Contains l v); split; intro H;
    try reflexivity; try discriminate; try (intro; discriminate).
  exfalso. apply H. reflexivity.
Qed.

Lemma in_unless {A : Type} (b : bool) (l : list A) (x : A) :
  In x (if b then [] else l) <-> b = false /\ In x l.
Proof.
  destruct b; simpl; split; try tauto.
  intros [H _]. discriminate.
Qed.

(** The units made of the commands of a handler that are not excluded. *)
Lemma in_allowed_commands (s : Service) (rule : Rule) (h : Handler)
    (commands : list string) (u : Unit) :
  In u (flat_map
          (fun command =>
             if Contains (ExcludedCommands rule) command then []
             else [unit_of s h command])
          commands) <->
  In (Command u) commands /\ ~ In (Command u) (ExcludedCommands rule) /\
  u = unit_of s h (Command u).
Proof.
  rewrite in_flat_map. split.
  - intros (command & Hin & Hu). apply in_unless in Hu as [Hex [<- | []]].
    simpl. apply Contains_not_In in Hex. repeat split; assumption.
  - intros (Hin & Hex & Hu). exists (Command u). split; [exact Hin |].
    apply in_unless. apply Contains_not_In in Hex. split; [exact Hex |].
    left. symmetry. exact Hu.
Qed.

Lemma in_unitsByServiceRule (s : Service) (rule : Rule) (u : Unit) :
  In u (unitsByServiceRule s rule) <->
  exists raw,
    In raw (Handlers s) /\
    In (Command u) (RouteCommands (snd raw)) /\
    ~ In (Command u) (ExcludedCommands rule) /\
    u = unit_of s (snd raw) (Command u).
Proof.
  unfold unitsByServiceRule. rewrite in_flat_map.
  split; intros (raw & Hraw & H); exists raw; (split; [exact Hraw |]);
    now apply in_allowed_commands.
Qed.

Lemma in_unitsByHandlerRule (s : Service) (rule : Rule) (u : Unit) :
  In u (unitsByHandlerRule s rule) <->
  exists raw,
    In raw (Handlers s) /\
    In (Config_Category (snd raw)) (Categories rule) /\
    In (Command u) (RouteCommands (snd raw)) /\
    ~ In (Command u) (ExcludedCommands rule) /\
    u = unit_of s (snd raw) (Command u).
Proof.
  unfold unitsByHandlerRule. rewrite in_flat_map.
  split; intros (raw & Hraw & H); exists raw; (split; [exact Hraw |]).
  - cbv zeta in H. apply in_unless in H as [Hc H].
    apply negb_false_iff, Contains_In in Hc.
    apply in_allowed_commands in H. tauto.
  - cbv zeta. apply in_unless. destruct H as (Hc & H). split.
    + apply negb_false_iff, Contains_In. exact Hc.
    + now apply in_allowed_commands.
Qed.

Lemma in_unitsByRouteRule (s : Service) (rule : Rule) (u : Unit) :
  In u (unitsByRouteRule s rule) <->
  exists raw,
    In raw (Handlers s) /\
    In (Config_Category (snd raw)) (Categories rule) /\
    In (Command u) (Commands rule) /\
    ~ In (Command u) (ExcludedCommands rule) /\
    IsRouteExist (snd raw) (Command u) = true /\
    u = unit_of s (snd raw) (Command u).
Proof.
  unfold unitsByRouteRule. rewrite in_flat_map.
  split; intros (raw & Hraw & H); exists raw; (split; [exact Hraw |]).
  - cbv zeta in H. apply in_unless in H as [Hc H].
    apply negb_false_iff, Contains_In in Hc.
    apply in_flat_map in H as (command & Hin & H).
    apply in_unless in H as [Hex H]. apply in_unless in H as [Hr [<- | []]].
    simpl. apply Contains_not_In in Hex. apply negb_false_iff in Hr.
    repeat split; assumption.
  - cbv zeta. destruct H as (Hc & Hin & Hex & Hr & Hu).
    apply in_unless. split; [apply negb_false_iff, Contains_In; exact Hc |].
    apply in_flat_map. exists (Command u). split; [exact Hin |].
    apply in_unless. split; [apply Contains_not_In; exact Hex |].
    apply in_unless. split; [apply negb_false_iff; exact Hr |].
    left. symmetry. exact Hu.
Qed.

(** X22: the units of a route rule are exactly these: for a handler of
    the service whose configured category is among the categories of the
    rule, and a command of the rule that is not excluded and for which the
    handler has a route, the unit of the id of the service, the id of the
    handler and the command. *)
Theorem unitsByRouteRule_exact (s : Service) (rule : Rule) (u : Unit) :
  In u (unitsByRouteRule s rule) <->
  exists category h,
    In (category, h) (Handlers s) /\
    In (Config_Category h) (Categories rule) /\
    In (Command u) (Commands rule) /\
    ~ In (Command u) (ExcludedCommands rule) /\
    IsRouteExist h (Command u) = true /\
    ServiceId u = id s /\ HandlerId u = Config_Id h.
Proof.
  rewrite in_unitsByRouteRule. split.
  - intros ([category h] & Hraw & Hc & Hin & Hex & Hr & Hu). simpl in *.
    exists category, h. rewrite Hu. simpl. repeat split; assumption.
  - intros (category & h & Hraw & Hc & Hin & Hex & Hr & Hs & Hh).
    exists (category, h). simpl. repeat split; try assumption.
    destruct u as [sid hid command]. simpl in *. subst. reflexivity.
Qed.

(** X23: a wider rule gives more units.  For every service, every unit
    of the handler rule is a unit of the service rule, the handler rule
    being the service rule on the handlers whose category the rule names.
    For a service whose handlers list among their route commands every
    command they have a route for, every unit of the route rule is a unit
    of the handler rule. *)
Theorem rules_widen (s : Service) (rule : Rule) :
  incl (unitsByHandlerRule s rule) (unitsByServiceRule s rule) /\
  unitsByHandlerRule s rule =
  unitsByServiceRule
    (with_handlers s
       (filter (fun raw => Contains (Categories rule) (Config_Category (snd raw)))
               (Handlers s)))
    rule /\
  ((forall raw command,
      In raw (Handlers s) ->
      IsRouteExist (snd raw) command = true ->
      In command (RouteCommands (snd raw))) ->
   incl (unitsByRouteRule s rule) (unitsByHandlerRule s rule)).
Proof.
  split; [| split].
  - intros u Hu. apply in_unitsByHandlerRule in Hu
      as (raw & Hraw & Hc & Hin & Hex & Hu).
    apply in_unitsByServiceRule. exists raw. repeat split; assumption.
  - unfold unitsByHandlerRule, unitsByServiceRule, with_handlers, unit_of. simpl.
    induction (Handlers s) as [|raw rest IH]; simpl; [reflexivity |].
    destruct (Contains (Categories rule) (Config_Category (snd raw))); simpl.
    + f_equal. exact IH.
    + exact IH.
  - intros Hroutes u Hu. apply in_unitsByRouteRule in Hu
      as (raw & Hraw & Hc & Hin & Hex & Hr & Hu).
    apply in_unitsByHandlerRule. exists raw.
    repeat split; try assumption. now apply Hroutes.
Qed.

(** X24: whatever the kind of the rule, a unit never has a command the
    rule excludes; it carries the id of the service and the id of one of
    its handlers, and its command is a command of the rule (route rule)
    or a route command of that handler (handler and service rules). *)
Theorem excluded_commands_not_listed (s : Service) (rule : Rule) (u : Unit) :
  In u (unitsByRouteRule s rule) \/
  In u (unitsByHandlerRule s rule) \/
  In u (unitsByServiceRule s rule) ->
  ~ In (Command u) (ExcludedCommands rule) /\
  ServiceId u = id s /\
  exists raw,
    In raw (Handlers s) /\ HandlerId u = Config_Id (snd raw) /\
    (In (Command u) (Commands rule) \/ In (Command u) (RouteCommands (snd raw))).
Proof.
  intros [H | [H | H]].
  - apply in_unitsByRouteRule in H as (raw & Hraw & _ & Hin & Hex & _ & Hu).
    rewrite Hu. simpl. repeat split; try assumption.
    exists raw. repeat split; [assumption | left; assumption].
  - apply in_unitsByHandlerRule in H as (raw & Hraw & _ & Hin & Hex & Hu).
    rewrite Hu. simpl. repeat split; try assumption.
    exists raw. repeat split; [assumption | right; assumption].
  - apply in_unitsByServiceRule in H as (raw & Hraw & Hin & Hex & Hu).
    rewrite Hu. simpl. repeat split; try assumption.
    exists raw. repeat split; [assumption | right; assumption].
Qed.

(** X25: the order in which the map of the handlers is iterated changes
    the order of the units only: for two orders of the same handlers,
    the units of a rule of each kind are the same up to their order. *)
Theorem units_up_to_iteration_order (s : Service) (rule : Rule)
    (handlers : list (string * Handler)) :
  Permutation (Handlers s) handlers ->
  Permutation (unitsByRouteRule s rule)
              (unitsByRouteRule (with_handlers s handlers) rule) /\
  Permutation (unitsByHandlerRule s rule)
              (unitsByHandlerRule (with_handlers s handlers) rule) /\
  Permutation (unitsByServiceRule s rule)
              (unitsByServiceRule (with_handlers s handlers) rule).
Proof.
  intros Hp.
  unfold unitsByRouteRule, unitsByHandlerRule, unitsByServiceRule,
    with_handlers, unit_of. simpl.
  repeat split; apply Permutation_flat_map; exact Hp.
Qed.

Lemma Set_keys (kv : list (string * string)) (key value : string) :
  Exist kv key = true ->
  map fst (Set_ kv key value) = map fst kv.
Proof.
  induction kv as [|entry rest IH]; simpl; [discriminate |].
  destruct (String.eqb (fst entry) key) eqn:E; simpl.
  - intros _. apply String.eqb_eq in E. now rewrite E.
  - intros H. now rewrite (IH H).
Qed.

Lemma RequireExtension_keys (s : Service) (id' url' : string) :
  map fst (RequiredExtensions (RequireExtension s id' url')) =
  map fst (RequiredExtensions s).
Proof.
  unfold RequireExtension.
  destruct (Exist (RequiredExtensions s) id') eqn:E; [| reflexivity].
  simpl. now apply Set_keys.
Qed.

Lemma required_after_keys (calls : list (string * string)) :
  forall s,
    map fst (RequiredExtensions (required_after s calls)) =
    map fst (RequiredExtensions s).
Proof.
  unfold required_after.
  induction calls as [|call rest IH]; intros s; simpl; [reflexivity |].
  rewrite IH. apply RequireExtension_keys.
Qed.

Lemma New_returned (w : World) (s : Service) :
  returned (New w) = inr s ->
  s = {| id := flag_id w; url := flag_url w; Handlers := [];
         RequiredExtensions := [] |} /\
  closed (New w) = 0%nat /\
  context_New w = true /\ StartConfig w = true /\
  log_New w (flag_id w) = true /\
  (exists i, known_id w = Some i /\ i <> EmptyString) /\
  (exists u, known_url w = Some u /\ u <> EmptyString).
Proof.
  unfold New, known_id, known_url, flag_id, flag_url, close_and_fail.
  destruct (context_New w); simpl; [| discriminate].
  destruct (StartConfig w); simpl; [| discriminate].
  set (id0 := if FlagExist_Id w then FlagValue_Id w else EmptyString).
  set (url0 := if FlagExist_Url w then FlagValue_Url w else EmptyString).
  destruct (log_New w id0); simpl; [| discriminate].
  assert (Hid : (if Nat.eqb (String.length id0) 0 then String_IdEnv w else Some id0) =
                (if FlagExist_Id w && negb (Nat.eqb (String.length (FlagValue_Id w)) 0)
                 then Some (FlagValue_Id w) else String_IdEnv w)).
  { unfold id0. destruct (FlagExist_Id w); simpl; [| reflexivity].
    destruct (Nat.eqb (String.length (FlagValue_Id w)) 0); reflexivity. }
  assert (Hurl : (if Nat.eqb (String.length url0) 0 then String_UrlEnv w else Some url0) =
                 (if FlagExist_Url w && negb (Nat.eqb (String.length (FlagValue_Url w)) 0)
                  then Some (FlagValue_Url w) else String_UrlEnv w)).
  { unfold url0. destruct (FlagExist_Url w); simpl; [| reflexivity].
    destruct (Nat.eqb (String.length (FlagValue_Url w)) 0); reflexivity. }
  rewrite Hid, Hurl.
  destruct (if FlagExist_Id w && negb (Nat.eqb (String.length (FlagValue_Id w)) 0)
            then Some (FlagValue_Id w) else String_IdEnv w) as [id1|];
    simpl; [| discriminate].
  destruct (if FlagExist_Url w && negb (Nat.eqb (String.length (FlagValue_Url w)) 0)
            then Some (FlagValue_Url w) else String_UrlEnv w) as [url1|];
    simpl; [| discriminate].
  destruct (Nat.eqb (String.length id1) 0) eqn:Ei; simpl; [discriminate |].
  destruct (Nat.eqb (String.length url1) 0) eqn:Eu; simpl; [discriminate |].
  intros [= <-]. repeat split.
  - exists id1. split; [reflexivity |]. intros ->. discriminate.
  - exists url1. split; [reflexivity |]. intros ->. discriminate.
Qed.

Lemma nonempty_length (x : string) :
  x <> EmptyString -> Nat.eqb (String.length x) 0 = false.
Proof. destruct x; [congruence | reflexivity]. Qed.

(** X26: [RequireExtension] never adds an extension: the ids of the
    required extensions are the same after any calls of it, so that a
    service returned by [New], which requires none, still requires none
    after them. *)
Theorem RequireExtension_adds_nothing (s : Service)
    (calls : list (string * string)) :
  map fst (RequiredExtensions (required_after s calls)) =
  map fst (RequiredExtensions s) /\
  (forall w, returned (New w) = inr s ->
     RequiredExtensions (required_after s calls) = []).
Proof.
  split; [apply required_after_keys |].
  intros w Hnew. apply New_returned in Hnew as [-> _].
  apply (map_eq_nil fst). rewrite required_after_keys. reflexivity.
Qed.

(** X27: [New] returns a service exactly when the context is created,
    its configuration starts, the logger is created for the id of the
    flag, and an id and a url that are not empty are known, each from its
    flag or, when the flag is missing or empty, from the environment;
    the context is closed once when [New] fails after the configuration
    was started, and not at all otherwise. *)
Theorem New_succeeds_iff (w : World) :
  ((exists s, returned (New w) = inr s) <->
   context_New w = true /\ StartConfig w = true /\
   log_New w (flag_id w) = true /\
   (exists i, known_id w = Some i /\ i <> EmptyString) /\
   (exists u, known_url w = Some u /\ u <> EmptyString)) /\
  closed (New w) =
  (if context_New w && StartConfig w
   then match returned (New w) with inl _ => 1 | inr _ => 0 end
   else 0)%nat.
Proof.
  split.
  - split.
    + intros [s Hs]. apply New_returned in Hs. tauto.
    + intros (Hc & Hs & Hl & (i & Hi & Hin) & (u & Hu & Hun)).
      unfold New, known_id, known_url, flag_id in *. rewrite Hc, Hs. simpl.
      rewrite Hl. simpl.
      assert (Hid : (if Nat.eqb (String.length
                         (if FlagExist_Id w then FlagValue_Id w else EmptyString)) 0
                     then String_IdEnv w
                     else Some (if FlagExist_Id w then FlagValue_Id w
                                else EmptyString)) = Some i).
      { rewrite <- Hi. destruct (FlagExist_Id w); simpl; [| reflexivity].
        destruct (Nat.eqb (String.length (FlagValue_Id w)) 0); reflexivity. }
      assert (Hurl : (if Nat.eqb (String.length
                          (if FlagExist_Url w then FlagValue_Url w else EmptyString)) 0
                      then String_UrlEnv w
                      else Some (if FlagExist_Url w then FlagValue_Url w
                                 else EmptyString)) = Some u).
      { rewrite <- Hu. destruct (FlagExist_Url w); simpl; [| reflexivity].
        destruct (Nat.eqb (String.length (FlagValue_Url w)) 0); reflexivity. }
      rewrite Hid, Hurl, (nonempty_length i Hin), (nonempty_length u Hun).
      eexists. reflexivity.
  - unfold New, close_and_fail.
    destruct (context_New w); simpl; [| reflexivity].
    destruct (StartConfig w); simpl; [| reflexivity].
    destruct (log_New w _); simpl; [| reflexivity].
    destruct (if Nat.eqb _ 0 then String_IdEnv w else _) as [id1|];
      simpl; [| reflexivity].
    destruct (if Nat.eqb _ 0 then String_UrlEnv w else _) as [url1|];
      simpl; [| reflexivity].
    destruct (Nat.eqb (String.length id1) 0); simpl; [reflexivity |].
    destruct (Nat.eqb (String.length url1) 0); reflexivity.
Qed.

(** X28: the service [New] returns has the id and the url of the flags,
    no handler and no required extension: an id that [New] found in the
    environment, because the flag is missing, is checked but not kept,
    and the id of the service is then empty; the same holds for the
    url. *)
Theorem New_keeps_only_the_flags (w : World) (s : Service) :
  returned (New w) = inr s ->
  id s = flag_id w /\ url s = flag_url w /\
  Handlers s = [] /\ RequiredExtensions s = [] /\
  (FlagExist_Id w = false ->
   id s = EmptyString /\ exists i, String_IdEnv w = Some i /\ i <> EmptyString) /\
  (FlagExist_Url w = false ->
   url s = EmptyString /\ exists u, String_UrlEnv w = Some u /\ u <> EmptyString).
Proof.
  intros Hnew.
  apply New_returned in Hnew as (-> & _ & _ & _ & _ & Hid & Hurl). simpl.
  split; [reflexivity |]. split; [reflexivity |].
  split; [reflexivity |]. split; [reflexivity |].
  split; intros Hflag; split.
  - unfold flag_id. now rewrite Hflag.
  - unfold known_id in Hid. now rewrite Hflag in Hid.
  - unfold flag_url. now rewrite Hflag.
  - unfold known_url in Hurl. now rewrite Hflag in Hurl.
Qed.


Lemma unitsByRouteRule_exact_witness :
  In {| ServiceId := "sample"; HandlerId := "main_1"; Command := "hello" |}
     (unitsByRouteRule sample_service sample_rule).
Proof.
  apply (proj2 (unitsByRouteRule_exact sample_service sample_rule _)).
  exists "main", sample_handler. simpl.
  repeat split.
  - left. reflexivity.
  - left. reflexivity.
  - left. reflexivity.
  - intros [H | []]. discriminate.
Defined.

Lemma rules_widen_witness :
  incl (unitsByRouteRule sample_service sample_rule)
       (unitsByHandlerRule sample_service sample_rule).
Proof.
  apply (proj2 (proj2 (rules_widen sample_service sample_rule))).
  intros raw command [<- | []]. simpl. unfold Contains. simpl.
  destruct (String.eqb command "hello") eqn:E1.
  - apply String.eqb_eq in E1. left. now symmetry.
  - destruct (String.eqb command "bye") eqn:E2; [| discriminate].
    apply String.eqb_eq in E2. right. left. now symmetry.
Defined.

Lemma excluded_commands_not_listed_witness :
  ~ In (Command {| ServiceId := "sample"; HandlerId := "main_1"; Command := "hello" |})
       (ExcludedCommands sample_rule).
Proof.
  apply (excluded_commands_not_listed sample_service sample_rule).
  right. right. simpl. left. reflexivity.
Defined.

Lemma units_up_to_iteration_order_witness :
  Permutation
    (unitsByServiceRule
       (with_handlers sample_service
          [("main", sample_handler); ("other", sample_handler)]) sample_rule)
    (unitsByServiceRule
       (with_handlers sample_service
          [("other", sample_handler); ("main", sample_handler)]) sample_rule).
Proof.
  apply (units_up_to_iteration_order
           (with_handlers sample_service
              [("main", sample_handler); ("other", sample_handler)])
           sample_rule [("other", sample_handler); ("main", sample_handler)]).
  simpl. apply perm_swap.
Defined.

Lemma RequireExtension_adds_nothing_witness :
  RequiredExtensions
    (required_after
       {| id := EmptyString; url := EmptyString; Handlers := [];
          RequiredExtensions := [] |}
       [("database", "github.com/ahmetson/database-extension")]) = [].
Proof.
  apply (proj2 (RequireExtension_adds_nothing _ _) sample_world).
  reflexivity.
Defined.

Lemma New_succeeds_iff_witness :
  exists s, returned (New sample_world) = inr s.
Proof.
  apply (proj2 (proj1 (New_succeeds_iff sample_world))).
  simpl. repeat split.
  - exists "sample". split; [reflexivity | discriminate].
  - exists "github.com/ahmetson/sample-service". split; [reflexivity | discriminate].
Defined.

Lemma New_keeps_only_the_flags_witness :
  id {| id := EmptyString; url := EmptyString; Handlers := [];
        RequiredExtensions := [] |} = EmptyString /\
  exists i, String_IdEnv sample_world = Some i /\ i <> EmptyString.
Proof.
  apply (New_keeps_only_the_flags sample_world _ eq_refl).
  reflexivity.
Defined.


End ServiceProperties.

(** * Properties of the handler of the logs *)

Module LogHandlerProperties.

Import Message MessageProperties MessageValidation LogHandler.

Local Open Scope string_scope.

(** X30: [GetLogs] replies OK exactly when the keys are read from the
    request and the database returns the logs for them, and the reply
    then has the logs as its only parameter; otherwise the reply is the
    failure with the text of the error, of the keys first.  The reply
    cannot be encoded exactly when that text is empty. *)
Theorem GetLogs_reply (keys : outcome (list string))
    (GetLogsFromDb : list string -> outcome (list json)) :
  (IsOK (GetLogs keys GetLogsFromDb) = true <->
   exists keys' logs,
     keys = Success keys' /\ GetLogsFromDb keys' = Success logs /\
     GetLogs keys GetLogsFromDb =
     {| Status := OK; Message := EmptyString;
        Parameters := [("logs", JArray logs)] |}) /\
  (forall text,
     keys = Failure text \/
     (exists keys', keys = Success keys' /\ GetLogsFromDb keys' = Failure text) ->
     GetLogs keys GetLogsFromDb = Fail text) /\
  (is_ok (Reply_ToBytes (GetLogs keys GetLogsFromDb)) = false <->
   keys = Failure EmptyString \/
   (exists keys', keys = Success keys' /\
                  GetLogsFromDb keys' = Failure EmptyString)).
Proof.
  assert (Hfail : forall text,
             is_ok (Reply_ToBytes (Fail text)) = false <-> text = EmptyString).
  { intros text. split.
    - intros H. destruct text as [|c rest]; [reflexivity |].
      assert (Hw : wire_shaped (Fail (String c rest)))
        by (right; split; [reflexivity | discriminate]).
      apply Reply_ToBytes_ok_iff in Hw. rewrite Hw in H. discriminate.
    - intros ->. reflexivity. }
  unfold GetLogs. split; [| split].
  - split.
    + destruct keys as [keys'|text]; [| discriminate].
      destruct (GetLogsFromDb keys') as [logs|text] eqn:Edb; [| discriminate].
      intros _. exists keys', logs. repeat split. exact Edb.
    + intros (keys' & logs & -> & Hdb & _). rewrite Hdb. reflexivity.
  - intros text [-> | (keys' & -> & Hdb)]; [reflexivity |].
    rewrite Hdb. reflexivity.
  - destruct keys as [keys'|text].
    + destruct (GetLogsFromDb keys') as [logs|text] eqn:Edb.
      * split.
        -- intros H.
           assert (Hw : wire_shaped {| Status := "OK"; Message := EmptyString;
                                       Parameters := [("logs", JArray logs)] |})
             by (left; reflexivity).
           apply Reply_ToBytes_ok_iff in Hw. rewrite Hw in H. discriminate.
        -- intros [H | (keys'' & [= <-] & H)]; [discriminate |].
           rewrite Edb in H. discriminate.
      * rewrite Hfail. split.
        -- intros ->. right. exists keys'. split; [reflexivity | exact Edb].
        -- intros [H | (keys'' & [= <-] & H)]; [discriminate |].
           rewrite Edb in H. now injection H.
    + rewrite Hfail. split.
      * intros ->. left. reflexivity.
      * intros [[= ->] | (keys' & H & _)]; [reflexivity | discriminate].
Qed.

Lemma GetLogs_reply_witness :
  GetLogs (Success ["0xa"]) (fun _ => Failure "database is down") =
  Fail "database is down".
Proof.
  apply (proj1 (proj2 (GetLogs_reply (Success ["0xa"])
                         (fun _ => Failure "database is down")))).
  right. exists ["0xa"]. split; reflexivity.
Defined.

End LogHandlerProperties.
